(** * Point-set interpolators: Lagrange, Newton, piecewise linear, piecewise
    cubic Hermite.

    A shallow embedding of the four Python engines and of the sorted-set base
    class they share.  Python floats are modelled by exact rationals ([Qc],
    canonical fractions with Leibniz equality), so a statement about the
    engines below is a statement "under exact arithmetic".  Where rounding,
    overflow or underflow of binary64 decides what the code does, the
    functions concerned are embedded a second time in [Binary64], over the
    kernel's binary64 floats, and evaluated there.  Every operation that can
    raise in Python (indexing, division, [** -1], [list.index], [float()]) is
    fallible here too and returns the exception it raises. *)

From Stdlib Require Import QArith Qcanon Field List ZArith Lia Bool Arith.
From Stdlib Require Import Sorted Permutation.
From Stdlib Require Floats.
Import ListNotations.

(** ** Exceptions and results *)

Inductive exn : Type :=
| Exception
| ValueError
| TypeError
| IndexError
| ZeroDivisionError
| OverflowError.

(** The exceptions of a failed check: too few samples ([Exception]), a
    repeated x ([Exception], [ValueError] in the polynomial constructors), a
    malformed sample ([TypeError], [ValueError] of [float]), a bad index
    ([IndexError]).  The other two are raised by float arithmetic. *)
Definition check_error (e : exn) : Prop :=
  match e with
  | Exception | ValueError | TypeError | IndexError => True
  | ZeroDivisionError | OverflowError => False
  end.

Inductive result (A : Type) : Type :=
| Ok (a : A)
| Raise (e : exn).

Arguments Ok {A} a.
Arguments Raise {A} e.

Definition rbind {A B} (r : result A) (k : A -> result B) : result B :=
  match r with
  | Ok a => k a
  | Raise e => Raise e
  end.

Notation "'let?' x ':=' r 'in' k" := (rbind r (fun x => k))
  (at level 10, x pattern, r at level 100, k at level 200).

(** A method that mutates [self]: a function of the object's state that
    returns its result together with the state it leaves behind.  A raised
    exception keeps the state reached so far, as in Python. *)

Definition M (S A : Type) : Type := S -> result A * S.

Definition ret {S A} (a : A) : M S A := fun s => (Ok a, s).

Definition raise {S A} (e : exn) : M S A := fun s => (Raise e, s).

Definition bind {S A B} (m : M S A) (k : A -> M S B) : M S B :=
  fun s =>
    match m s with
    | (Ok a, s') => k a s'
    | (Raise e, s') => (Raise e, s')
    end.

Definition lift {S A} (r : result A) : M S A := fun s => (r, s).

Definition gets {S A} (f : S -> A) : M S A := fun s => (Ok (f s), s).

Definition modify {S} (f : S -> S) : M S unit := fun s => (Ok tt, f s).

Notation "x <- m ;; k" := (bind m (fun x => k))
  (at level 61, m at next level, right associativity).
Notation "m ;;; k" := (bind m (fun _ => k))
  (at level 61, right associativity).

Fixpoint for_each {S A} (l : list A) (body : A -> M S unit) : M S unit :=
  match l with
  | [] => ret tt
  | a :: l' => body a ;;; for_each l' body
  end.

Fixpoint foldM {A B} (f : B -> A -> result B) (l : list A) (b : B) : result B :=
  match l with
  | [] => Ok b
  | a :: l' => let? b' := f b a in foldM f l' b'
  end.

Fixpoint mapM {A B} (f : A -> result B) (l : list A) : result (list B) :=
  match l with
  | [] => Ok []
  | a :: l' => let? b := f a in let? bs := mapM f l' in Ok (b :: bs)
  end.

(** ** Python lists *)

(** [range(n)], as the integers it yields. *)
Definition range (n : nat) : list Z := map Z.of_nat (seq 0 n).

Definition enumerate {A} (l : list A) : list (Z * A) :=
  combine (range (length l)) l.

(** The position an index denotes in a list of length [n]: non-negative
    indices count from the front, negative ones from the back. *)
Definition norm_index (n : nat) (k : Z) : option nat :=
  if ((0 <=? k) && (k <? Z.of_nat n))%Z then Some (Z.to_nat k)
  else if ((- Z.of_nat n <=? k) && (k <? 0))%Z then Some (Z.to_nat (Z.of_nat n + k))
  else None.

(** [l[k]] *)
Definition list_getitem {A} (l : list A) (k : Z) : result A :=
  match norm_index (length l) k with
  | Some i =>
      match nth_error l i with
      | Some a => Ok a
      | None => Raise IndexError
      end
  | None => Raise IndexError
  end.

(** [del l[k]] *)
Definition list_delitem {A} (l : list A) (k : Z) : result (list A) :=
  match norm_index (length l) k with
  | Some i => Ok (firstn i l ++ skipn (S i) l)
  | None => Raise IndexError
  end.

(** [l[k] = v] *)
Definition list_setitem {A} (l : list A) (k : Z) (v : A) : result (list A) :=
  match norm_index (length l) k with
  | Some i => Ok (firstn i l ++ v :: skipn (S i) l)
  | None => Raise IndexError
  end.

(** [l.insert(k, v)]: never raises, an index beyond either end is clamped. *)
Definition list_insert {A} (l : list A) (k : Z) (v : A) : list A :=
  let n := Z.of_nat (length l) in
  let k1 := if (k <? 0)%Z then (k + n)%Z else k in
  let k2 := if (k1 <? 0)%Z then 0%Z else k1 in
  let k3 := if (n <? k2)%Z then n else k2 in
  firstn (Z.to_nat k3) l ++ v :: skipn (Z.to_nat k3) l.

(** [x in l] *)
Fixpoint list_contains (l : list Qc) (x : Qc) : bool :=
  match l with
  | [] => false
  | a :: l' => if Qc_eq_dec a x then true else list_contains l' x
  end.

Fixpoint find_index (l : list Qc) (x : Qc) : option nat :=
  match l with
  | [] => None
  | a :: l' =>
      if Qc_eq_dec a x then Some O
      else match find_index l' x with
           | Some i => Some (S i)
           | None => None
           end
  end.

(** [l.index(x)]: the first position holding [x], [ValueError] if none. *)
Definition list_index (l : list Qc) (x : Qc) : result nat :=
  match find_index l x with
  | Some i => Ok i
  | None => Raise ValueError
  end.

(** [len(set(l))] *)
Definition len_set (l : list Qc) : nat := length (nodup Qc_eq_dec l).

(** Access to a list attribute of [self]: [self.a[i]], [self.a[i] = v],
    [del self.a[i]]. *)
Definition load {S A} (get : S -> list A) (i : Z) : M S A :=
  fun s => (list_getitem (get s) i, s).

Definition store {S A} (get : S -> list A) (put : list A -> S -> S)
           (i : Z) (v : A) : M S unit :=
  fun s => match list_setitem (get s) i v with
           | Ok l => (Ok tt, put l s)
           | Raise e => (Raise e, s)
           end.

Definition delete {S A} (get : S -> list A) (put : list A -> S -> S)
           (i : Z) : M S unit :=
  fun s => match list_delitem (get s) i with
           | Ok l => (Ok tt, put l s)
           | Raise e => (Raise e, s)
           end.

(** ** Float arithmetic that can raise *)

Open Scope Qc_scope.

(** [a / b] *)
Definition div (a b : Qc) : result Qc :=
  if Qc_eq_dec b 0 then Raise ZeroDivisionError else Ok (a / b).

(** [a ** -1] *)
Definition pow_neg1 (a : Qc) : result Qc :=
  if Qc_eq_dec a 0 then Raise ZeroDivisionError else Ok (/ a).

(** The literals [2], [3] and [6] of the Hermite formula. *)
Definition two : Qc := 1 + 1.
Definition three : Qc := 1 + 1 + 1.
Definition six : Qc := three * two.

(** [prod(nums)] of LagrangeInterpolator.py *)
Definition prod (nums : list Qc) : Qc :=
  fold_left (fun res x => res * x) nums 1.

(** [sum(nums)] *)
Definition sum (nums : list Qc) : Qc :=
  fold_left (fun res x => res + x) nums 0.

(** ** Python values handed to the mutators as a point *)

(** A component of a point.  The engines do one thing with it, [float(.)],
    so a component is told apart by what [float] does on it: [PyFloat q] is
    a number that [float] turns into [q] (a float; also an int, a bool or a
    numeric string of that value), [PyNone] is a value [float] refuses with
    [TypeError] ([None], a list), [PyStr] a string that is no number, on
    which [float] raises [ValueError]. *)
Inductive pyatom : Type :=
| PyFloat (q : Qc)
| PyNone
| PyStr.

(** A point: a tuple or a list of components, or a value that cannot be
    indexed, which is a bare number or [None]. *)
Inductive pyobj : Type :=
| PyScalar (q : option Qc)
| PyTuple (l : list pyatom)
| PyList (l : list pyatom).

(** [p[k]] *)
Definition py_getitem (p : pyobj) (k : Z) : result pyatom :=
  match p with
  | PyTuple l | PyList l => list_getitem l k
  | _ => Raise TypeError
  end.

(** [float(p)] *)
Definition py_float (p : pyatom) : result Qc :=
  match p with
  | PyFloat q => Ok q
  | PyNone => Raise TypeError
  | PyStr => Raise ValueError
  end.

(** [type(point) != tuple or len(point) != n], the guard of [append] and
    [add]; [len] is only reached for a tuple. *)
Definition not_tuple_of (n : nat) (point : pyobj) : bool :=
  match point with
  | PyTuple l => negb (length l =? n)%nat
  | _ => true
  end.

(** [float(point[0]), float(point[1])] *)
Definition float_pair (point : pyobj) : result (Qc * Qc) :=
  let? p0 := py_getitem point 0 in
  let? x := py_float p0 in
  let? p1 := py_getitem point 1 in
  let? y := py_float p1 in
  Ok (x, y).

(** ** LagrangeInterpolator.py *)

Module Lagrange.

Record state : Type := mk { xs : list Qc; ys : list Qc; ws : list Qc }.

Definition put_xs (l : list Qc) (s : state) : state := mk l (ys s) (ws s).
Definition put_ys (l : list Qc) (s : state) : state := mk (xs s) l (ws s).
Definition put_ws (l : list Qc) (s : state) : state := mk (xs s) (ys s) l.

(** [prod([xi - xj for j, xj in enumerate(xs) if j != i]) ** -1] *)
Definition weight_at (xs : list Qc) (i : Z) (xi : Qc) : result Qc :=
  pow_neg1
    (prod (map (fun '(_, xj) => xi - xj)
               (filter (fun '(j, _) => negb (j =? i)%Z) (enumerate xs)))).

(** [__init__] *)
Definition init (points : list (Qc * Qc)) : result state :=
  if (length points <? 2)%nat then Raise Exception
  else
    let xs := map fst points in
    if negb (length xs =? len_set xs)%nat then Raise ValueError
    else
      let ys := map snd points in
      let? ws := mapM (fun '(i, xi) => weight_at xs i xi) (enumerate xs) in
      Ok (mk xs ys ws).

(** [__call__] *)
Definition call (s : state) (x : Qc) : result Qc :=
  match list_index (xs s) x with
  | Ok index => list_getitem (ys s) (Z.of_nat index)
  | Raise ValueError =>
      let phi_x := prod (map (fun xi => x - xi) (xs s)) in
      let? terms :=
        mapM (fun '(wi, xi, yi) => let? d := div wi (x - xi) in Ok (d * yi))
             (combine (combine (ws s) (xs s)) (ys s)) in
      Ok (phi_x * sum terms)
  | Raise e => Raise e
  end.

(** [for i in range(N): self.ws[i] /= self.xs[i] - x_new] *)
Definition divide_weights (N : nat) (x_new : Qc) : M state unit :=
  for_each (range N)
    (fun i =>
       wi <- load ws i ;;
       xi <- load xs i ;;
       d <- lift (div wi (xi - x_new)) ;;
       store ws put_ws i d).

(** [append] *)
Definition append (point : pyobj) : M state unit :=
  if not_tuple_of 2 point then raise TypeError
  else
    xy <- lift (float_pair point) ;;
    let '(x_new, y_new) := xy in
    xs0 <- gets xs ;;
    if list_contains xs0 x_new then raise Exception
    else
      N <- gets (fun s => length (ws s)) ;;
      divide_weights N x_new ;;;
      xs1 <- gets xs ;;
      w <- lift (pow_neg1 (prod (map (fun xj => x_new - xj) xs1))) ;;
      modify (fun s => put_ws (ws s ++ [w]) s) ;;;
      modify (fun s => put_xs (xs s ++ [x_new]) s) ;;;
      modify (fun s => put_ys (ys s ++ [y_new]) s).

(** [__delitem__] *)
Definition delitem (index : Z) : M state unit :=
  N <- gets (fun s => length (xs s)) ;;
  if (N <=? 2)%nat then raise Exception
  else
    x_remove <- load xs index ;;
    delete xs put_xs index ;;;
    delete ys put_ys index ;;;
    delete ws put_ws index ;;;
    for_each (range (N - 1))
      (fun i =>
         wi <- load ws i ;;
         xi <- load xs i ;;
         store ws put_ws i (wi * (xi - x_remove))).

(** [__getitem__] *)
Definition getitem (s : state) (index : Z) : result (Qc * Qc) :=
  let N := Z.of_nat (length (xs s)) in
  if ((index <? 0) || (N <=? index))%Z then Raise IndexError
  else
    let? x := list_getitem (xs s) index in
    let? y := list_getitem (ys s) index in
    Ok (x, y).

(** [__setitem__] *)
Definition setitem (index : Z) (point : pyobj) : M state unit :=
  N <- gets (fun s => length (xs s)) ;;
  if ((index <? 0) || (Z.of_nat N <=? index))%Z then raise IndexError
  else if not_tuple_of 2 point then raise TypeError
  else
    xy <- lift (float_pair point) ;;
    let '(x_new, y_new) := xy in
    xs0 <- gets xs ;;
    if list_contains
         (map snd (filter (fun '(i, _) => negb (i =? index)%Z) (enumerate xs0)))
         x_new
    then raise Exception
    else
      for_each (range N)
        (fun i =>
           if (i =? index)%Z then ret tt
           else
             wi <- load ws i ;;
             xi <- load xs i ;;
             xind <- load xs index ;;
             store ws put_ws i (wi * (xi - xind)) ;;;
             wi' <- load ws i ;;
             xi' <- load xs i ;;
             d <- lift (div wi' (xi' - x_new)) ;;
             store ws put_ws i d) ;;;
      xs1 <- gets xs ;;
      w <- lift (pow_neg1
                   (prod (map (fun '(_, xj) => x_new - xj)
                              (filter (fun '(j, _) => negb (j =? index)%Z)
                                      (enumerate xs1))))) ;;
      store ws put_ws index w ;;;
      store xs put_xs index x_new ;;;
      store ys put_ys index y_new.

(** [insert] *)
Definition insert (index : Z) (point : pyobj) : M state unit :=
  N <- gets (fun s => length (xs s)) ;;
  if ((index <? 0) || (Z.of_nat N <=? index))%Z then raise IndexError
  else
    xy <- lift (float_pair point) ;;
    let '(x_new, y_new) := xy in
    xs0 <- gets xs ;;
    if list_contains xs0 x_new then raise Exception
    else
      divide_weights N x_new ;;;
      xs1 <- gets xs ;;
      w <- lift (pow_neg1 (prod (map (fun xj => x_new - xj) xs1))) ;;
      modify (fun s => put_ws (list_insert (ws s) index w) s) ;;;
      modify (fun s => put_xs (list_insert (xs s) index x_new) s) ;;;
      modify (fun s => put_ys (list_insert (ys s) index y_new) s).

(** [__len__] *)
Definition len (s : state) : nat := length (xs s).

(** The mutating operations, and the engines a caller can hold: a
    constructed engine, changed by operations that returned normally. *)
Inductive op : Type :=
| Append (point : pyobj)
| Insert (index : Z) (point : pyobj)
| Delete (index : Z)
| Replace (index : Z) (point : pyobj).

Definition run (o : op) : M state unit :=
  match o with
  | Append p => append p
  | Insert i p => insert i p
  | Delete i => delitem i
  | Replace i p => setitem i p
  end.

Inductive reachable : state -> Prop :=
| reach_init points s : init points = Ok s -> reachable s
| reach_step s o s' : reachable s -> run o s = (Ok tt, s') -> reachable s'.

End Lagrange.

(** ** NewtonInterpolator.py *)

Module Newton.

Record state : Type :=
  mk { xs : list Qc; ys : list Qc; coef : list Qc; divided_diff : list Qc }.

Definition put_xs (l : list Qc) (s : state) : state :=
  mk l (ys s) (coef s) (divided_diff s).
Definition put_ys (l : list Qc) (s : state) : state :=
  mk (xs s) l (coef s) (divided_diff s).
Definition put_coef (l : list Qc) (s : state) : state :=
  mk (xs s) (ys s) l (divided_diff s).
Definition put_divided_diff (l : list Qc) (s : state) : state :=
  mk (xs s) (ys s) (coef s) l.

(** One turn of the inner loop of [__init__]:
    [new_row.append((prev - new_row[-1]) / (xs[i-1-j] - xs[i]))]. *)
Definition row_step (xs : list Qc) (i : Z) (new_row : list Qc) (jp : Z * Qc)
  : result (list Qc) :=
  let '(j, prev) := jp in
  let? last := list_getitem new_row (-1) in
  let? xa := list_getitem xs (i - 1 - j) in
  let? xb := list_getitem xs i in
  let? d := div (prev - last) (xa - xb) in
  Ok (new_row ++ [d]).

(** One turn of the outer loop of [__init__], on the pair
    [(self._coef, prev_row)]. *)
Definition table_step (xs ys : list Qc) (acc : list Qc * list Qc) (i : Z)
  : result (list Qc * list Qc) :=
  let '(coef, prev_row) := acc in
  let? yi := list_getitem ys i in
  let? new_row := foldM (row_step xs i) (enumerate prev_row) [yi] in
  let? c := list_getitem new_row (-1) in
  Ok (coef ++ [c], new_row).

(** [__init__] *)
Definition init (points : list (Qc * Qc)) : result state :=
  let N := length points in
  if (N <? 2)%nat then Raise Exception
  else
    let xs := map fst points in
    if negb (length xs =? len_set xs)%nat then Raise ValueError
    else
      let ys := map snd points in
      let? acc := foldM (table_step xs ys) (range N) ([], []) in
      let '(coef, new_row) := acc in
      Ok (mk xs ys coef new_row).

(** [append] *)
Definition append (point : pyobj) : M state unit :=
  if not_tuple_of 2 point then raise TypeError
  else
    xy <- lift (float_pair point) ;;
    let '(x_new, y_new) := xy in
    xs0 <- gets xs ;;
    if list_contains xs0 x_new then raise Exception
    else
      index <- gets (fun s => Z.of_nat (length (xs s))) ;;
      modify (fun s => put_xs (xs s ++ [x_new]) s) ;;;
      modify (fun s => put_ys (ys s ++ [y_new]) s) ;;;
      prev_row <- gets divided_diff ;;
      yi <- load ys index ;;
      modify (put_divided_diff [yi]) ;;;
      for_each (enumerate prev_row)
        (fun '(j, prev) =>
           last <- load divided_diff (-1) ;;
           xa <- load xs (index - 1 - j) ;;
           xb <- load xs index ;;
           d <- lift (div (prev - last) (xa - xb)) ;;
           modify (fun s => put_divided_diff (divided_diff s ++ [d]) s)) ;;;
      c <- load divided_diff (-1) ;;
      modify (fun s => put_coef (coef s ++ [c]) s).

(** [range(start, stop, -1)] *)
Definition range_down (start stop : Z) : list Z :=
  map (fun k => (start - Z.of_nat k)%Z) (seq 0 (Z.to_nat (start - stop))).

(** [__call__] *)
Definition call (s : state) (x : Qc) : result Qc :=
  let? y0 := list_getitem (coef s) (-1) in
  let N := Z.of_nat (length (xs s)) in
  foldM (fun y i =>
           let? xi := list_getitem (xs s) i in
           let? ci := list_getitem (coef s) i in
           Ok (y * (x - xi) + ci))
        (range_down (N - 2) (-1)) y0.

(** [__getitem__] *)
Definition getitem (s : state) (index : Z) : result (Qc * Qc) :=
  let N := Z.of_nat (length (xs s)) in
  if ((index <? 0) || (N <=? index))%Z then Raise IndexError
  else
    let? x := list_getitem (xs s) index in
    let? y := list_getitem (ys s) index in
    Ok (x, y).

(** [__len__] *)
Definition len (s : state) : nat := length (xs s).

Inductive reachable : state -> Prop :=
| reach_init points s : init points = Ok s -> reachable s
| reach_append s p s' : reachable s -> append p s = (Ok tt, s') -> reachable s'.

End Newton.

(** ** The library functions [sorted] and [bisect] *)

(** [sorted(l, key=...)] is a stable sort: elements with equal keys keep
    their order.  Every stable sort returns the same list; the one written
    here is insertion sort. *)
Section Sorted.
Context {A : Type}.
Variable key : A -> Qc.

Fixpoint insert_stable (a : A) (l : list A) : list A :=
  match l with
  | [] => [a]
  | b :: l' =>
      if Qclt_le_dec (key b) (key a) then b :: insert_stable a l'
      else a :: b :: l'
  end.

Definition sorted (l : list A) : list A := fold_right insert_stable [] l.
End Sorted.

(** [bisect.bisect_left(a, x)] and [bisect.bisect_right(a, x)]: the binary
    searches of the [bisect] module,
    [while lo < hi: mid = (lo + hi) // 2; ...].  The interval [lo, hi) shrinks
    at every turn, so [len(a)] turns are enough. *)
Fixpoint bisect_left_loop (fuel : nat) (a : list Qc) (x : Qc) (lo hi : nat) : nat :=
  match fuel with
  | O => lo
  | S fuel' =>
      if (lo <? hi)%nat then
        let mid := ((lo + hi) / 2)%nat in
        if Qclt_le_dec (nth mid a 0) x
        then bisect_left_loop fuel' a x (S mid) hi
        else bisect_left_loop fuel' a x lo mid
      else lo
  end.

Definition bisect_left (a : list Qc) (x : Qc) : nat :=
  bisect_left_loop (length a) a x 0 (length a).

Fixpoint bisect_right_loop (fuel : nat) (a : list Qc) (x : Qc) (lo hi : nat) : nat :=
  match fuel with
  | O => lo
  | S fuel' =>
      if (lo <? hi)%nat then
        let mid := ((lo + hi) / 2)%nat in
        if Qclt_le_dec x (nth mid a 0)
        then bisect_right_loop fuel' a x lo mid
        else bisect_right_loop fuel' a x (S mid) hi
      else lo
  end.

(** [bisect.bisect] is [bisect_right]. *)
Definition bisect_right (a : list Qc) (x : Qc) : nat :=
  bisect_right_loop (length a) a x 0 (length a).

(** [bisect.insort(a, x)]: insert at [bisect_right(a, x)]. *)
Definition insort (a : list Qc) (x : Qc) : list Qc :=
  list_insert a (Z.of_nat (bisect_right a x)) x.

(** ** MutableSetInterpolator.py *)

Module MutableSet.

Record state : Type := mk { xs : list Qc; ys : list Qc }.

Definition put_xs (l : list Qc) (s : state) : state := mk l (ys s).
Definition put_ys (l : list Qc) (s : state) : state := mk (xs s) l.

(** [__init__] *)
Definition init (xs ys : list Qc) : result state :=
  if (length xs <? 1)%nat then Raise Exception else Ok (mk xs ys).

(** [__contains__] *)
Definition contains (s : state) (x : Qc) : bool := list_contains (xs s) x.

(** [__iter__] *)
Definition iter (s : state) : list (Qc * Qc) := combine (xs s) (ys s).

(** [__getitem__] *)
Definition getitem (s : state) (index : Z) : result (Qc * Qc) :=
  let N := Z.of_nat (length (xs s)) in
  if ((index <? 0) || (N <=? index))%Z then Raise IndexError
  else
    let? x := list_getitem (xs s) index in
    let? y := list_getitem (ys s) index in
    Ok (x, y).

(** [__len__] *)
Definition len (s : state) : nat := length (xs s).

End MutableSet.

(** ** LinearInterpolator.py *)

Module Linear.

Definition state : Type := MutableSet.state.

(** [__init__] *)
Definition init (points : list (Qc * Qc)) : result state :=
  let zipped := sorted fst points in
  let xs := map fst zipped in
  let ys := map snd zipped in
  MutableSet.init xs ys.

(** [__call__] *)
Definition call (s : state) (x : Qc) : result Qc :=
  let N := Z.of_nat (length (MutableSet.xs s)) in
  let L := (Z.of_nat (bisect_left (MutableSet.xs s) x) - 1)%Z in
  if (L =? -1)%Z then list_getitem (MutableSet.ys s) 0
  else if (L =? N - 1)%Z then list_getitem (MutableSet.ys s) (-1)
  else
    let R := (L + 1)%Z in
    let? yL := list_getitem (MutableSet.ys s) L in
    let? yR := list_getitem (MutableSet.ys s) R in
    let? xL := list_getitem (MutableSet.xs s) L in
    let? xR := list_getitem (MutableSet.xs s) R in
    let? a := div (yL - yR) (xL - xR) in
    let? yL' := list_getitem (MutableSet.ys s) L in
    let? xL' := list_getitem (MutableSet.xs s) L in
    let b := yL' - a * xL' in
    Ok (a * x + b).

(** [discard] *)
Definition discard (x : Qc) : M state unit :=
  xs0 <- gets MutableSet.xs ;;
  if list_contains xs0 x then
    N <- gets (fun s => length (MutableSet.xs s)) ;;
    if (N <=? 1)%nat then raise Exception
    else
      xs1 <- gets MutableSet.xs ;;
      index <- lift (list_index xs1 x) ;;
      delete MutableSet.xs MutableSet.put_xs (Z.of_nat index) ;;;
      delete MutableSet.ys MutableSet.put_ys (Z.of_nat index)
  else ret tt.

(** [add] *)
Definition add (point : pyobj) : M state unit :=
  if not_tuple_of 2 point then raise TypeError
  else
    xy <- lift (float_pair point) ;;
    let '(x_new, y_new) := xy in
    xs0 <- gets MutableSet.xs ;;
    if list_contains xs0 x_new then raise Exception
    else
      xy' <- lift (float_pair point) ;;
      let '(xnew, ynew) := xy' in
      xs1 <- gets MutableSet.xs ;;
      let index := bisect_right xs1 x_new in
      modify (fun s => MutableSet.put_xs (insort (MutableSet.xs s) xnew) s) ;;;
      modify (fun s => MutableSet.put_ys
                         (list_insert (MutableSet.ys s) (Z.of_nat index) ynew) s).

Inductive op : Type :=
| Add (point : pyobj)
| Discard (x : Qc).

Definition run (o : op) : M state unit :=
  match o with
  | Add p => add p
  | Discard x => discard x
  end.

(** Engines built from samples with pairwise distinct x and changed by
    operations that returned normally. *)
Inductive reachable : state -> Prop :=
| reach_init points s :
    NoDup (map fst points) -> init points = Ok s -> reachable s
| reach_step s o s' : reachable s -> run o s = (Ok tt, s') -> reachable s'.

End Linear.

(** ** PiecewiseCubicHermiteInterpolator.py *)

Module Hermite.

Record state : Type := mk { base : MutableSet.state; fprime : list Qc }.

Definition xs (s : state) : list Qc := MutableSet.xs (base s).
Definition ys (s : state) : list Qc := MutableSet.ys (base s).

Definition put_xs (l : list Qc) (s : state) : state :=
  mk (MutableSet.put_xs l (base s)) (fprime s).
Definition put_ys (l : list Qc) (s : state) : state :=
  mk (MutableSet.put_ys l (base s)) (fprime s).
Definition put_fprime (l : list Qc) (s : state) : state := mk (base s) l.

(** [zip(xs, f, fprime)] *)
Definition zip3 (xs f fprime : list Qc) : list (Qc * Qc * Qc) :=
  combine (combine xs f) fprime.

(** [__init__] *)
Definition init (xs f fprime : list Qc) : result state :=
  let N := length xs in
  if (N <? 1)%nat then Raise Exception
  else
    let zipped := sorted (fun z => fst (fst z)) (zip3 xs f fprime) in
    let xs' := map (fun z => fst (fst z)) zipped in
    let ys' := map (fun z => snd (fst z)) zipped in
    let? b := MutableSet.init xs' ys' in
    Ok (mk b (map snd zipped)).

(** [__call__] *)
Definition call (s : state) (x : Qc) : result Qc :=
  let N := Z.of_nat (length (xs s)) in
  let L := (Z.of_nat (bisect_left (xs s) x) - 1)%Z in
  if (L =? -1)%Z then list_getitem (ys s) 0
  else if (L =? N - 1)%Z then list_getitem (ys s) (-1)
  else
    let R := (L + 1)%Z in
    let? xL := list_getitem (xs s) L in
    let? xR := list_getitem (xs s) R in
    let? fL := list_getitem (ys s) L in
    let? fR := list_getitem (ys s) R in
    let? fpL := list_getitem (fprime s) L in
    let? fpR := list_getitem (fprime s) R in
    let h := xR - xL in
    let? c3 := div three (h ^ 2) in
    let? c6 := div six (h ^ 3) in
    let alpha := c3 * (fpL + fpR) + c6 * (fL - fR) in
    let? t1 := div (- fpL) h in
    let? t2 := div fpR h in
    Ok (t1 * ((x - xR) ^ 2 / two - h ^ 2 / two)
        + t2 * (x - xL) ^ 2 / two
        + alpha * (x - xL) ^ 2 * ((x - xL) / three - h / two)
        + fL).

(** [discard] *)
Definition discard (x : Qc) : M state unit :=
  xs0 <- gets xs ;;
  if list_contains xs0 x then
    N <- gets (fun s => length (xs s)) ;;
    if (N <=? 1)%nat then raise Exception
    else
      xs1 <- gets xs ;;
      index <- lift (list_index xs1 x) ;;
      delete xs put_xs (Z.of_nat index) ;;;
      delete ys put_ys (Z.of_nat index) ;;;
      delete fprime put_fprime (Z.of_nat index)
  else ret tt.

(** [x_new, y_new, fprime_new = (float(p) for p in point)], for a [point]
    that is a tuple of three. *)
Definition float_triple (point : pyobj) : result (Qc * Qc * Qc) :=
  match point with
  | PyTuple l =>
      let? fs := mapM py_float l in
      match fs with
      | [a; b; c] => Ok (a, b, c)
      | _ => Raise ValueError
      end
  | _ => Raise TypeError
  end.

(** [add] *)
Definition add (point : pyobj) : M state unit :=
  if not_tuple_of 3 point then raise TypeError
  else
    xyf <- lift (float_triple point) ;;
    let '(x_new, y_new, fprime_new) := xyf in
    xs0 <- gets xs ;;
    if list_contains xs0 x_new then raise Exception
    else
      xy' <- lift (float_pair point) ;;
      let '(xnew, ynew) := xy' in
      xs1 <- gets xs ;;
      let index := bisect_right xs1 x_new in
      modify (fun s => put_xs (insort (xs s) xnew) s) ;;;
      modify (fun s => put_ys (list_insert (ys s) (Z.of_nat index) ynew) s) ;;;
      modify (fun s => put_fprime
                         (list_insert (fprime s) (Z.of_nat index) fprime_new) s).

Inductive op : Type :=
| Add (point : pyobj)
| Discard (x : Qc).

Definition run (o : op) : M state unit :=
  match o with
  | Add p => add p
  | Discard x => discard x
  end.

(** Engines built from samples with pairwise distinct x and lists of one
    length, and changed by operations that returned normally. *)
Inductive reachable : state -> Prop :=
| reach_init xs0 f fp s :
    NoDup xs0 -> length f = length xs0 -> length fp = length xs0 ->
    init xs0 f fp = Ok s -> reachable s
| reach_step s o s' : reachable s -> run o s = (Ok tt, s') -> reachable s'.

End Hermite.

(** * The same code over binary64

    Python's [float] is an IEEE-754 binary64 number.  The functions whose
    outcome rounding, overflow or underflow can change are embedded here a
    second time, from the same source lines, over the kernel's binary64
    floats.  In Python [+], [-] and [*] on floats never raise (an overflow
    gives an infinity, an underflow a zero), [/] raises [ZeroDivisionError]
    on a zero divisor and rounds otherwise, and [** -1] raises
    [ZeroDivisionError] on zero and [OverflowError] when the reciprocal
    overflows. *)

Module Binary64.
Import PrimFloat.
Local Open Scope float_scope.

(** [a / b] *)
Definition div (a b : float) : result float :=
  if b =? 0 then Raise ZeroDivisionError else Ok (a / b).

(** [a ** -1] *)
Definition pow_neg1 (a : float) : result float :=
  if a =? 0 then Raise ZeroDivisionError
  else
    let r := 1 / a in
    if is_infinity r then Raise OverflowError else Ok r.

(** [prod(nums)] of LagrangeInterpolator.py *)
Definition prod (nums : list float) : float :=
  fold_left (fun res x => res * x) nums 1.

(** [x in l] *)
Fixpoint list_contains (l : list float) (x : float) : bool :=
  match l with
  | [] => false
  | a :: l' => if a =? x then true else list_contains l' x
  end.

(** [len(set(l))] *)
Fixpoint dedup (l : list float) : list float :=
  match l with
  | [] => []
  | a :: l' => if list_contains l' a then dedup l' else a :: dedup l'
  end.

Definition len_set (l : list float) : nat := length (dedup l).

(** Whether no two entries of a list are equal ([==]). *)
Fixpoint distinct (l : list float) : bool :=
  match l with
  | [] => true
  | a :: l' => negb (list_contains l' a) && distinct l'
  end.

(** Whether two lists hold equal ([==]) numbers at every position. *)
Fixpoint same_lists (l l' : list float) : bool :=
  match l, l' with
  | [], [] => true
  | a :: l1, b :: l1' => (a =? b) && same_lists l1 l1'
  | _, _ => false
  end.

(** [sorted(l, key=lambda z: z[0])], a stable sort, as insertion sort. *)
Fixpoint insert_stable (a : float * float) (l : list (float * float))
  : list (float * float) :=
  match l with
  | [] => [a]
  | b :: l' =>
      if fst b <? fst a then b :: insert_stable a l' else a :: b :: l'
  end.

Definition sorted (l : list (float * float)) : list (float * float) :=
  fold_right insert_stable [] l.

(** [bisect.bisect_left(a, x)] *)
Fixpoint bisect_left_loop (fuel : nat) (a : list float) (x : float)
         (lo hi : nat) : nat :=
  match fuel with
  | O => lo
  | S fuel' =>
      if (lo <? hi)%nat then
        let mid := ((lo + hi) / 2)%nat in
        if nth mid a 0 <? x
        then bisect_left_loop fuel' a x (S mid) hi
        else bisect_left_loop fuel' a x lo mid
      else lo
  end.

Definition bisect_left (a : list float) (x : float) : nat :=
  bisect_left_loop (length a) a x 0 (length a).

(** ** LagrangeInterpolator.py *)

Module Lagrange.

Record state : Type := mk { xs : list float; ys : list float; ws : list float }.

Definition put_xs (l : list float) (s : state) : state := mk l (ys s) (ws s).
Definition put_ys (l : list float) (s : state) : state := mk (xs s) l (ws s).
Definition put_ws (l : list float) (s : state) : state := mk (xs s) (ys s) l.

(** [prod([xi - xj for j, xj in enumerate(xs) if j != i]) ** -1] *)
Definition weight_at (xs : list float) (i : Z) (xi : float) : result float :=
  pow_neg1
    (prod (map (fun '(_, xj) => xi - xj)
               (filter (fun '(j, _) => negb (j =? i)%Z) (enumerate xs)))).

(** [__init__] *)
Definition init (points : list (float * float)) : result state :=
  if (length points <? 2)%nat then Raise Exception
  else
    let xs := map fst points in
    if negb (length xs =? len_set xs)%nat then Raise ValueError
    else
      let ys := map snd points in
      let? ws := mapM (fun '(i, xi) => weight_at xs i xi) (enumerate xs) in
      Ok (mk xs ys ws).

(** [for i in range(N): self.ws[i] /= self.xs[i] - x_new] *)
Definition divide_weights (N : nat) (x_new : float) : M state unit :=
  for_each (range N)
    (fun i =>
       wi <- load ws i ;;
       xi <- load xs i ;;
       d <- lift (div wi (xi - x_new)) ;;
       store ws put_ws i d).

(** [append], for a point that is a tuple of the two floats [x_new] and
    [y_new]: the guard on the point's type passes and [float()] returns
    the components. *)
Definition append (x_new y_new : float) : M state unit :=
  xs0 <- gets xs ;;
  if list_contains xs0 x_new then raise Exception
  else
    N <- gets (fun s => length (ws s)) ;;
    divide_weights N x_new ;;;
    xs1 <- gets xs ;;
    w <- lift (pow_neg1 (prod (map (fun xj => x_new - xj) xs1))) ;;
    modify (fun s => put_ws (ws s ++ [w]) s) ;;;
    modify (fun s => put_xs (xs s ++ [x_new]) s) ;;;
    modify (fun s => put_ys (ys s ++ [y_new]) s).

End Lagrange.

(** ** LinearInterpolator.py, on MutableSetInterpolator.py *)

Module Linear.

Record state : Type := mk { xs : list float; ys : list float }.

(** [__init__], with [MutableSetInterpolator.__init__] *)
Definition init (points : list (float * float)) : result state :=
  let zipped := sorted points in
  let xs := map fst zipped in
  let ys := map snd zipped in
  if (length xs <? 1)%nat then Raise Exception else Ok (mk xs ys).

(** [__call__] *)
Definition call (s : state) (x : float) : result float :=
  let N := Z.of_nat (length (xs s)) in
  let L := (Z.of_nat (bisect_left (xs s) x) - 1)%Z in
  if (L =? -1)%Z then list_getitem (ys s) 0
  else if (L =? N - 1)%Z then list_getitem (ys s) (-1)
  else
    let R := (L + 1)%Z in
    let? yL := list_getitem (ys s) L in
    let? yR := list_getitem (ys s) R in
    let? xL := list_getitem (xs s) L in
    let? xR := list_getitem (xs s) R in
    let? a := div (yL - yR) (xL - xR) in
    let? yL' := list_getitem (ys s) L in
    let? xL' := list_getitem (xs s) L in
    let b := yL' - a * xL' in
    Ok (a * x + b).

End Linear.

(** ** Inputs on which binary64 decides the outcome *)

(** Three pairwise distinct nodes so close together that the product of two
    of their differences, [2^-600 * 2^-599], is below the smallest
    binary64 number. *)
Definition close_nodes : list (float * float) :=
  [(0, 0); (0x1p-600, 1); (0x1p-599, 2)].

(** The first two of them, and the third as the point of an [append]. *)
Definition two_close_nodes : list (float * float) := [(0, 0); (0x1p-600, 1)].

Definition lagrange_two_close : Lagrange.state :=
  match Lagrange.init two_close_nodes with
  | Ok s => s
  | Raise _ => Lagrange.mk [] [] []
  end.

Definition third_x : float := 0x1p-599.
Definition third_y : float := 2.

(** The weights of [lagrange_two_close], [-2^600] and [2^600], and what the
    first loop of [append] leaves in their place. *)
Definition weights_before : list float := [-0x1p600; 0x1p600].
Definition weights_after : list float := [infinity; neg_infinity].

(** The linear engine on [(0, 0), (49, 1)], its two nodes, its last value,
    and the binary64 number just below 1. *)
Definition chord_49 : list (float * float) := [(0, 0); (49, 1)].

Definition linear_49 : Linear.state :=
  match Linear.init chord_49 with
  | Ok s => s
  | Raise _ => Linear.mk [] []
  end.

Definition first_node : float := 0.
Definition last_node : float := 49.
Definition last_value : float := 1.
Definition below_one : float := 0x1.fffffffffffffp-1.

End Binary64.

(** ** Specification-level definitions used by the proofs *)

(** The product of the differences [x - xj] over a list of nodes. *)
Definition wden (x : Qc) (l : list Qc) : Qc := prod (map (fun xj => x - xj) l).

(** The nodes of [l] other than [x]. *)
Definition others (x : Qc) (l : list Qc) : list Qc :=
  filter (fun xj => if Qc_eq_dec xj x then false else true) l.

(** The barycentric weights of a list of nodes:
    [w_i = 1 / prod_{j <> i} (x_i - x_j)]. *)
Definition weights (l : list Qc) : list Qc :=
  map (fun xi => / wden xi (others xi l)) l.

(** The barycentric weight of the node [xi] among the nodes [X]. *)
Definition bw (X : list Qc) (xi : Qc) : Qc := / wden xi (others xi X).

(** The divided difference of a list of points, in its symmetric closed
    form: [sum_p y_p / prod_{q <> p} (x_p - x_q)]. *)
Definition ddf (pts : list (Qc * Qc)) : Qc :=
  sum (map (fun p => snd p * bw (map fst pts) (fst p)) pts).

(** The interpolating polynomial of a list of points at [x], in Lagrange
    form: [sum_p y_p * prod_{q <> p} (x - x_q) / (x_p - x_q)]. *)
Definition lagrange_form (pts : list (Qc * Qc)) (x : Qc) : Qc :=
  sum (map (fun p => snd p * bw (map fst pts) (fst p)
                     * wden x (others (fst p) (map fst pts))) pts).

(** The Newton form with coefficients [cs] on the nodes [xs]:
    [c0 + (x - x0) * (c1 + (x - x1) * (c2 + ...))]. *)
Fixpoint newton_form (cs xs : list Qc) (x : Qc) : Qc :=
  match cs, xs with
  | c :: cs', x0 :: xs' => c + (x - x0) * newton_form cs' xs' x
  | _, _ => 0
  end.

(** One turn of the loop of [NewtonInterpolator.__call__]. *)
Definition horner_step (cs xs : list Qc) (x : Qc) (y : Qc) (i : Z) : result Qc :=
  let? xi := list_getitem xs i in
  let? ci := list_getitem cs i in
  Ok (y * (x - xi) + ci).

(** The first [n] points, last one first. *)
Definition rq (n : nat) (pts : list (Qc * Qc)) : list (Qc * Qc) :=
  rev (firstn n pts).

(** The divided-difference row once [n] points are in: entry [j] is the
    divided difference of the last [j + 1] of them. *)
Definition row_spec (pts : list (Qc * Qc)) (n : nat) : list Qc :=
  map (fun j => ddf (firstn (S j) (rq n pts))) (seq 0 n).

(** The Newton coefficients of the first [n] points: entry [k] is the
    divided difference of the first [k + 1] points. *)
Definition coef_spec (pts : list (Qc * Qc)) (n : nat) : list Qc :=
  map (fun k => ddf (rq (S k) pts)) (seq 0 n).

(** The list a loop [for i in range(len(l)): l[i] = g(i, l[i])] leaves,
    counting positions from [k]. *)
Fixpoint mapi_from (k : nat) (g : nat -> Qc -> Qc) (l : list Qc) : list Qc :=
  match l with
  | [] => []
  | w :: l' => g k w :: mapi_from (S k) g l'
  end.

(** A list with [v] put in before position [k], with position [k] taken
    out, and with position [k] overwritten. *)
Definition ins {A} (k : nat) (v : A) (l : list A) : list A :=
  firstn k l ++ v :: skipn k l.

Definition cut {A} (k : nat) (l : list A) : list A :=
  firstn k l ++ skipn (S k) l.

Definition upd {A} (k : nat) (v : A) (l : list A) : list A :=
  firstn k l ++ v :: skipn (S k) l.

Module LagrangeInv.
Import Lagrange.

(** What every engine a caller can hold satisfies. *)
Record wf (s : state) : Prop := {
  wf_len_ys : length (ys s) = length (xs s);
  wf_nodup : NoDup (xs s);
  wf_two : (2 <= length (xs s))%nat;
  wf_ws : ws s = weights (xs s)
}.

End LagrangeInv.

Module NewtonInv.
Import Newton.

(** What every Newton engine a caller can hold satisfies. *)
Record wf (s : state) : Prop := {
  wf_len_ys : length (ys s) = length (xs s);
  wf_nodup : NoDup (xs s);
  wf_two : (2 <= length (xs s))%nat;
  wf_coef : coef s = coef_spec (combine (xs s) (ys s)) (length (xs s));
  wf_row : divided_diff s = row_spec (combine (xs s) (ys s)) (length (xs s))
}.

End NewtonInv.

(** The cubic Hermite segment, as [__call__] writes it. *)
Definition hermite_segment (xL xR fL fR fpL fpR x : Qc) : Qc :=
  let h := xR - xL in
  let alpha := three / h ^ 2 * (fpL + fpR) + six / h ^ 3 * (fL - fR) in
  - fpL / h * ((x - xR) ^ 2 / two - h ^ 2 / two)
  + fpR / h * (x - xL) ^ 2 / two
  + alpha * (x - xL) ^ 2 * ((x - xL) / three - h / two)
  + fL.

Module LinearInv.

(** What every piecewise-linear engine built from distinct nodes satisfies:
    the nodes ascend strictly and each has its value. *)
Record wf (s : Linear.state) : Prop := {
  wf_sorted : StronglySorted Qclt (MutableSet.xs s);
  wf_len_ys : length (MutableSet.ys s) = length (MutableSet.xs s);
  wf_one : (1 <= length (MutableSet.xs s))%nat
}.

End LinearInv.

Module HermiteInv.
Import Hermite.

Record wf (s : state) : Prop := {
  wf_sorted : StronglySorted Qclt (xs s);
  wf_len_ys : length (ys s) = length (xs s);
  wf_len_fprime : length (fprime s) = length (xs s);
  wf_one : (1 <= length (xs s))%nat
}.

End HermiteInv.

(** ** The four engines behind one interface *)

Inductive engine : Type :=
| ELagrange (s : Lagrange.state)
| ENewton (s : Newton.state)
| ELinear (s : Linear.state)
| EHermite (s : Hermite.state).

(** [engine(x)] *)
Definition evaluate (e : engine) (x : Qc) : result Qc :=
  match e with
  | ELagrange s => Lagrange.call s x
  | ENewton s => Newton.call s x
  | ELinear s => Linear.call s x
  | EHermite s => Hermite.call s x
  end.

(** [engine.xs] and [engine.ys] *)
Definition nodes (e : engine) : list Qc :=
  match e with
  | ELagrange s => Lagrange.xs s
  | ENewton s => Newton.xs s
  | ELinear s => MutableSet.xs s
  | EHermite s => Hermite.xs s
  end.

Definition values (e : engine) : list Qc :=
  match e with
  | ELagrange s => Lagrange.ys s
  | ENewton s => Newton.ys s
  | ELinear s => MutableSet.ys s
  | EHermite s => Hermite.ys s
  end.

(** An engine a caller can hold: built from at least the minimum number of
    samples with pairwise distinct x and changed by operations that returned
    normally. *)
Definition valid (e : engine) : Prop :=
  match e with
  | ELagrange s => Lagrange.reachable s
  | ENewton s => Newton.reachable s
  | ELinear s => Linear.reachable s
  | EHermite s => Hermite.reachable s
  end.

(** A piecewise engine whose nodes ascend strictly, each with its value
    (and derivative). *)
Definition ascending (e : engine) : Prop :=
  match e with
  | ELinear s => LinearInv.wf s
  | EHermite s => HermiteInv.wf s
  | _ => False
  end.

(** One mutating call on an engine: its outcome and the engine it leaves. *)
Inductive mutates : engine -> result unit -> engine -> Prop :=
| mutates_lagrange s o r s' :
    Lagrange.run o s = (r, s') -> mutates (ELagrange s) r (ELagrange s')
| mutates_newton s p r s' :
    Newton.append p s = (r, s') -> mutates (ENewton s) r (ENewton s')
| mutates_linear s o r s' :
    Linear.run o s = (r, s') -> mutates (ELinear s) r (ELinear s')
| mutates_hermite s o r s' :
    Hermite.run o s = (r, s') -> mutates (EHermite s) r (EHermite s').

(** ** Worked examples *)

Definition qz (z : Z) : Qc := Q2Qc (inject_Z z).

Definition point (x y : Z) : pyobj := PyTuple [PyFloat (qz x); PyFloat (qz y)].

(** Scenario A: the samples [(0,1), (1,3), (2,2)]. *)
Definition scenario_A : list (Qc * Qc) :=
  [(qz 0, qz 1); (qz 1, qz 3); (qz 2, qz 2)].

Definition lagrange_A : Lagrange.state :=
  match Lagrange.init scenario_A with
  | Ok s => s
  | Raise _ => Lagrange.mk [] [] []
  end.

(** Scenario A after [append((3,5))], [insert(1, (5,7))], [del e[0]] and
    [e[2] = (4,4)]. *)
Definition lagrange_ops : list Lagrange.op :=
  [Lagrange.Append (point 3 5); Lagrange.Insert 1 (point 5 7);
   Lagrange.Delete 0; Lagrange.Replace 2 (point 4 4)].

Definition lagrange_after (ops : list Lagrange.op) (s : Lagrange.state)
  : Lagrange.state :=
  fold_left (fun s o => snd (Lagrange.run o s)) ops s.

Definition lagrange_demo : Lagrange.state := lagrange_after lagrange_ops lagrange_A.

Definition newton_A : Newton.state :=
  match Newton.init scenario_A with
  | Ok s => s
  | Raise _ => Newton.mk [] [] [] []
  end.

(** Scenario A after [append((3,5))] and [append((-1,4))]. *)
Definition newton_demo : Newton.state :=
  snd (Newton.append (point (-1) 4) (snd (Newton.append (point 3 5) newton_A))).

(** Scenario D: the linear engine on [(0,0), (10,10)], given upper node
    first. *)
Definition linear_D : Linear.state :=
  match Linear.init [(qz 10, qz 10); (qz 0, qz 0)] with
  | Ok s => s
  | Raise _ => MutableSet.mk [] []
  end.

Definition linear_demo : Linear.state := snd (Linear.add (point 3 5) linear_D).

(** Scenario E: the Hermite engine on x = [0,1], f = [0,1], f' = [1,1]. *)
Definition hermite_E : Hermite.state :=
  match Hermite.init [qz 0; qz 1] [qz 0; qz 1] [qz 1; qz 1] with
  | Ok s => s
  | Raise _ => Hermite.mk (MutableSet.mk [] []) []
  end.

Definition hermite_demo : Hermite.state :=
  snd (Hermite.add (PyTuple [PyFloat (qz 3); PyFloat (qz 5); PyFloat (qz 2)])
                   hermite_E).

(** Whether every operation of a list returns normally, run in order. *)
Fixpoint lagrange_all_ok (ops : list Lagrange.op) (s : Lagrange.state) : bool :=
  match ops with
  | [] => true
  | o :: ops' =>
      match Lagrange.run o s with
      | (Ok _, s') => lagrange_all_ok ops' s'
      | (Raise _, _) => false
      end
  end.

(** ** Definitions for the further properties *)

(** The samples an engine holds, in its order. *)
Definition samples (e : engine) : list (Qc * Qc) := combine (nodes e) (values e).

(** The two polynomial engines. *)
Definition polynomial (e : engine) : Prop :=
  match e with
  | ELagrange _ | ENewton _ => True
  | _ => False
  end.

(** Scenario A given last sample first, to the Newton engine. *)
Definition newton_rev_A : Newton.state :=
  match Newton.init (rev scenario_A) with
  | Ok s => s
  | Raise _ => Newton.mk [] [] [] []
  end.

(** The cubic Hermite interpolant on [[xL, xR]] in its textbook form: with
    [t = (x - xL) / h], the basis polynomials [2t^3 - 3t^2 + 1],
    [t^3 - 2t^2 + t], [-2t^3 + 3t^2] and [t^3 - t^2] weigh the two values
    and the two slopes. *)
Definition cubic_hermite (xL xR fL fR fpL fpR x : Qc) : Qc :=
  let h := xR - xL in
  let t := (x - xL) / h in
  (two * t ^ 3 - three * t ^ 2 + 1) * fL
  + (t ^ 3 - two * t ^ 2 + t) * h * fpL
  + (three * t ^ 2 - two * t ^ 3) * fR
  + (t ^ 3 - t ^ 2) * h * fpR.

(** [engine.discard(x)] on a piecewise engine: its outcome and the engine
    it leaves. *)
Inductive discards : engine -> Qc -> result unit -> engine -> Prop :=
| discards_linear s x r s' :
    Linear.discard x s = (r, s') -> discards (ELinear s) x r (ELinear s')
| discards_hermite s x r s' :
    Hermite.discard x s = (r, s') -> discards (EHermite s) x r (EHermite s').

(** ** What the operations are asked to produce (spec 4.1, 4.2) *)

(** The sample a point denotes when it is a pair of numbers. *)
Definition sample_of (p : pyobj) : option (Qc * Qc) :=
  match p with
  | PyTuple [PyFloat x; PyFloat y] => Some (x, y)
  | _ => None
  end.

(** An index that is a position of a sequence of length [n], in
    [[0, n)]. *)
Definition position (n : nat) (index : Z) : option nat :=
  if ((0 <=? index) && (index <? Z.of_nat n))%Z then Some (Z.to_nat index)
  else None.

(** The sequence of samples the spec asks one operation to leave: [append]
    puts the sample at the end, [insert] at the index, [delete] takes out
    the sample at the index, [replace] overwrites it.  [None] is an
    operation the spec has rejected: a malformed sample, a colliding x, an
    index outside [[0, length)], a delete from two samples. *)
Definition lagrange_asked (o : Lagrange.op) (pts : list (Qc * Qc))
  : option (list (Qc * Qc)) :=
  match o with
  | Lagrange.Append p =>
      match sample_of p with
      | Some (x, y) =>
          if list_contains (map fst pts) x then None
          else Some (pts ++ [(x, y)])
      | None => None
      end
  | Lagrange.Insert index p =>
      match position (length pts) index, sample_of p with
      | Some k, Some (x, y) =>
          if list_contains (map fst pts) x then None
          else Some (ins k (x, y) pts)
      | _, _ => None
      end
  | Lagrange.Delete index =>
      match position (length pts) index with
      | Some k => if (length pts <=? 2)%nat then None else Some (cut k pts)
      | None => None
      end
  | Lagrange.Replace index p =>
      match position (length pts) index, sample_of p with
      | Some k, Some (x, y) =>
          if list_contains (map fst (cut k pts)) x then None
          else Some (upd k (x, y) pts)
      | _, _ => None
      end
  end.

Fixpoint lagrange_asked_all (ops : list Lagrange.op) (pts : list (Qc * Qc))
  : option (list (Qc * Qc)) :=
  match ops with
  | [] => Some pts
  | o :: ops' =>
      match lagrange_asked o pts with
      | Some pts' => lagrange_asked_all ops' pts'
      | None => None
      end
  end.

(** The calls of a list of operations on one engine, in order; the first
    that raises ends the run. *)
Definition lagrange_run_all (ops : list Lagrange.op) : M Lagrange.state unit :=
  for_each ops Lagrange.run.

(** [engine.append((x, y))] for each sample of a list, in order. *)
Definition newton_append_all (added : list (Qc * Qc)) : M Newton.state unit :=
  for_each added
    (fun p => Newton.append (PyTuple [PyFloat (fst p); PyFloat (snd p)])).

(** Scenario A with the four operations of [lagrange_ops] applied to the
    sequence itself. *)
Definition scenario_A_after : list (Qc * Qc) :=
  [(qz 5, qz 7); (qz 1, qz 3); (qz 4, qz 4); (qz 3, qz 5)].

(** * Proofs *)

(** ** The monad *)

(** One step through the binds of a method, up to the first call whose
    outcome is not known yet. *)
Ltac mstep := cbn [bind lift gets modify raise ret].

Lemma bind_ok {S A B} (m : M S A) (k : A -> M S B) s a s' :
  m s = (Ok a, s') -> bind m k s = k a s'.
Proof. intros H. unfold bind. now rewrite H. Qed.

Lemma bind_raise {S A B} (m : M S A) (k : A -> M S B) s e s' :
  m s = (Raise e, s') -> bind m k s = (Raise e, s').
Proof. intros H. unfold bind. now rewrite H. Qed.

Lemma bind_load {S A B} (get : S -> list A) i (k : A -> M S B) s a :
  list_getitem (get s) i = Ok a -> bind (load get i) k s = k a s.
Proof. intros H. unfold bind, load. now rewrite H. Qed.

Lemma bind_delete {S A B} (get : S -> list A) put i (k : unit -> M S B) s l :
  list_delitem (get s) i = Ok l -> bind (delete get put i) k s = k tt (put l s).
Proof. intros H. unfold bind, delete. now rewrite H. Qed.

Lemma bind_store {S A B} (get : S -> list A) put i v (k : unit -> M S B) s l :
  list_setitem (get s) i v = Ok l ->
  bind (store get put i v) k s = k tt (put l s).
Proof. intros H. unfold bind, store. now rewrite H. Qed.

Lemma mapM_ok {A B} (f : A -> result B) (g : A -> B) l :
  (forall a, In a l -> f a = Ok (g a)) -> mapM f l = Ok (map g l).
Proof.
  induction l as [|a l IH]; intros H; simpl; [reflexivity|].
  rewrite (H a (or_introl eq_refl)). simpl.
  rewrite IH by (intros; apply H; now right). reflexivity.
Qed.

(** ** Python lists *)

Lemma norm_index_nat n i : (i < n)%nat -> norm_index n (Z.of_nat i) = Some i.
Proof.
  intros H. unfold norm_index.
  replace ((0 <=? Z.of_nat i)%Z && (Z.of_nat i <? Z.of_nat n)%Z) with true.
  - now rewrite Nat2Z.id.
  - symmetry. apply andb_true_iff. split; [apply Z.leb_le|apply Z.ltb_lt]; lia.
Qed.

Lemma norm_index_inv n k i :
  norm_index n k = Some i ->
  (i < n)%nat /\
  ((0 <= k < Z.of_nat n)%Z /\ i = Z.to_nat k \/
   (- Z.of_nat n <= k < 0)%Z /\ i = Z.to_nat (Z.of_nat n + k)).
Proof.
  unfold norm_index.
  destruct ((0 <=? k)%Z && (k <? Z.of_nat n)%Z) eqn:E1.
  - apply andb_true_iff in E1. destruct E1 as [H1 H2].
    apply Z.leb_le in H1. apply Z.ltb_lt in H2.
    intros [= <-]. split; [lia|left; split; [lia|reflexivity]].
  - destruct ((- Z.of_nat n <=? k)%Z && (k <? 0)%Z) eqn:E2; [|discriminate].
    apply andb_true_iff in E2. destruct E2 as [H1 H2].
    apply Z.leb_le in H1. apply Z.ltb_lt in H2.
    intros [= <-]. split; [lia|right; split; [lia|reflexivity]].
Qed.

Lemma norm_index_none n k :
  norm_index n k = None -> (k < - Z.of_nat n \/ Z.of_nat n <= k)%Z.
Proof.
  unfold norm_index.
  destruct ((0 <=? k)%Z && (k <? Z.of_nat n)%Z) eqn:E1; [discriminate|].
  destruct ((- Z.of_nat n <=? k)%Z && (k <? 0)%Z) eqn:E2; [discriminate|].
  intros _. apply andb_false_iff in E1, E2.
  destruct E1 as [E1|E1], E2 as [E2|E2];
    try apply Z.leb_gt in E1; try apply Z.ltb_ge in E1;
    try apply Z.leb_gt in E2; try apply Z.ltb_ge in E2; lia.
Qed.

Lemma norm_index_last n : (0 < n)%nat -> norm_index n (-1) = Some (n - 1)%nat.
Proof.
  intros H. unfold norm_index.
  destruct ((0 <=? -1)%Z && (-1 <? Z.of_nat n)%Z) eqn:E1; [discriminate|].
  destruct ((- Z.of_nat n <=? -1)%Z && (-1 <? 0)%Z) eqn:E2.
  - f_equal. lia.
  - apply andb_false_iff in E2. destruct E2 as [E2|E2]; [|discriminate].
    apply Z.leb_gt in E2. lia.
Qed.

Lemma list_getitem_nat {A} (l : list A) i a :
  nth_error l i = Some a -> list_getitem l (Z.of_nat i) = Ok a.
Proof.
  intros H. unfold list_getitem.
  rewrite norm_index_nat by (apply nth_error_Some; congruence).
  now rewrite H.
Qed.

Lemma list_getitem_last {A} (l : list A) a : list_getitem (l ++ [a]) (-1) = Ok a.
Proof.
  unfold list_getitem. rewrite norm_index_last by (rewrite length_app; simpl; lia).
  rewrite length_app. simpl.
  replace (length l + 1 - 1)%nat with (length l) by lia.
  rewrite nth_error_app2 by lia. now rewrite Nat.sub_diag.
Qed.

Lemma list_getitem_ok_inv {A} (l : list A) k a :
  list_getitem l k = Ok a ->
  exists i, norm_index (length l) k = Some i /\ nth_error l i = Some a.
Proof.
  unfold list_getitem. destruct (norm_index (length l) k) as [i|]; [|discriminate].
  destruct (nth_error l i) eqn:E; [|discriminate].
  intros [= <-]. eauto.
Qed.

Lemma list_getitem_raise {A} (l : list A) k e :
  list_getitem l k = Raise e ->
  e = IndexError /\ (k < - Z.of_nat (length l) \/ Z.of_nat (length l) <= k)%Z.
Proof.
  unfold list_getitem. destruct (norm_index (length l) k) as [i|] eqn:E.
  - apply norm_index_inv in E. destruct E as [E _].
    destruct (nth_error l i) eqn:E'; [discriminate|].
    apply nth_error_None in E'. lia.
  - intros [= <-]. split; [reflexivity|now apply norm_index_none].
Qed.

Lemma list_setitem_nat {A} (l : list A) i v :
  (i < length l)%nat ->
  list_setitem l (Z.of_nat i) v = Ok (firstn i l ++ v :: skipn (S i) l).
Proof. intros H. unfold list_setitem. now rewrite norm_index_nat. Qed.

Lemma list_delitem_nat {A} (l : list A) i :
  (i < length l)%nat ->
  list_delitem l (Z.of_nat i) = Ok (firstn i l ++ skipn (S i) l).
Proof. intros H. unfold list_delitem. now rewrite norm_index_nat. Qed.

Lemma list_insert_nat {A} (l : list A) i v :
  (i <= length l)%nat ->
  list_insert l (Z.of_nat i) v = firstn i l ++ v :: skipn i l.
Proof.
  intros H. unfold list_insert.
  destruct (Z.of_nat i <? 0)%Z eqn:E1; [apply Z.ltb_lt in E1; lia|].
  rewrite E1.
  destruct (Z.of_nat (length l) <? Z.of_nat i)%Z eqn:E2;
    [apply Z.ltb_lt in E2; lia|].
  now rewrite Nat2Z.id.
Qed.

Lemma list_contains_In l x : list_contains l x = true <-> In x l.
Proof.
  induction l as [|a l IH]; simpl.
  - split; [discriminate|tauto].
  - destruct (Qc_eq_dec a x) as [->|n].
    + tauto.
    + rewrite IH. split; [tauto|intros [H|H]; [congruence|assumption]].
Qed.

Lemma list_contains_false l x : list_contains l x = false <-> ~ In x l.
Proof.
  rewrite <- list_contains_In. destruct (list_contains l x); split; congruence.
Qed.

Lemma find_index_none l x : find_index l x = None <-> ~ In x l.
Proof.
  induction l as [|a l IH]; simpl.
  - tauto.
  - destruct (Qc_eq_dec a x) as [->|n].
    + split; [discriminate|intros H; exfalso; apply H; now left].
    + destruct (find_index l x).
      * split; [discriminate|]. intros H. exfalso. apply H. right.
        destruct IH as [IH1 IH2].
        destruct (in_dec Qc_eq_dec x l) as [i|ni]; [assumption|].
        specialize (IH2 ni). discriminate.
      * split; [|reflexivity]. intros _ [H|H]; [congruence|].
        now apply (proj1 IH).
Qed.

Lemma find_index_some l x i :
  find_index l x = Some i -> nth_error l i = Some x.
Proof.
  revert i. induction l as [|a l IH]; simpl; intros i; [discriminate|].
  destruct (Qc_eq_dec a x) as [->|n].
  - now intros [= <-].
  - destruct (find_index l x) as [j|]; [|discriminate].
    intros [= <-]. simpl. now apply IH.
Qed.

Lemma find_index_nodup l x i :
  NoDup l -> nth_error l i = Some x -> find_index l x = Some i.
Proof.
  revert i. induction l as [|a l IH]; intros i Hnd Hn.
  - destruct i; discriminate.
  - inversion Hnd as [|? ? Hni Hnd']; subst. simpl.
    destruct i as [|i]; simpl in Hn.
    + injection Hn as ->. destruct (Qc_eq_dec x x); congruence.
    + destruct (Qc_eq_dec a x) as [->|n].
      * exfalso. apply Hni. eapply nth_error_In; eauto.
      * now rewrite (IH i Hnd' Hn).
Qed.

Lemma nodup_length_le (l : list Qc) : (length (nodup Qc_eq_dec l) <= length l)%nat.
Proof.
  induction l as [|a l IH]; simpl; [lia|].
  destruct (in_dec Qc_eq_dec a l); simpl; lia.
Qed.

Lemma len_set_NoDup l : length l = len_set l <-> NoDup l.
Proof.
  unfold len_set. split.
  - induction l as [|a l IH]; simpl; [constructor|].
    destruct (in_dec Qc_eq_dec a l) as [i|ni]; simpl; intros H.
    + pose proof (nodup_length_le l). lia.
    + constructor; [assumption|]. apply IH. lia.
  - intros H. now rewrite nodup_fixed_point.
Qed.

(** ** Products and sums *)

Lemma fold_mult_acc l a : fold_left (fun res x => res * x) l a = a * prod l.
Proof.
  unfold prod. revert a. induction l as [|b l IH]; intros a; simpl.
  - ring.
  - rewrite IH, (IH (1 * b)). ring.
Qed.

Lemma prod_nil : prod [] = 1.
Proof. reflexivity. Qed.

Lemma prod_cons a l : prod (a :: l) = a * prod l.
Proof. unfold prod at 1. simpl. rewrite fold_mult_acc. ring. Qed.

Lemma prod_app l1 l2 : prod (l1 ++ l2) = prod l1 * prod l2.
Proof.
  induction l1 as [|a l1 IH]; simpl.
  - rewrite prod_nil. ring.
  - rewrite !prod_cons, IH. ring.
Qed.

Lemma fold_plus_acc l a : fold_left (fun res x => res + x) l a = a + sum l.
Proof.
  unfold sum. revert a. induction l as [|b l IH]; intros a; simpl.
  - ring.
  - rewrite IH, (IH (0 + b)). ring.
Qed.

Lemma sum_nil : sum [] = 0.
Proof. reflexivity. Qed.

Lemma sum_cons a l : sum (a :: l) = a + sum l.
Proof. unfold sum at 1. simpl. rewrite fold_plus_acc. ring. Qed.

Lemma sum_app l1 l2 : sum (l1 ++ l2) = sum l1 + sum l2.
Proof.
  induction l1 as [|a l1 IH]; simpl.
  - rewrite sum_nil. ring.
  - rewrite !sum_cons, IH. ring.
Qed.

Lemma Qc_sub_ne (a b : Qc) : a <> b -> a - b <> 0.
Proof. intros H E. apply H. rewrite <- (Qcplus_0_r b), <- E. ring. Qed.

Lemma Qc_mult_ne (a b : Qc) : a <> 0 -> b <> 0 -> a * b <> 0.
Proof.
  intros Ha Hb E. apply Qcmult_integral in E. tauto.
Qed.

Lemma prod_ne0 l : (forall a, In a l -> a <> 0) -> prod l <> 0.
Proof.
  induction l as [|a l IH]; intros H.
  - rewrite prod_nil. discriminate.
  - rewrite prod_cons. apply Qc_mult_ne; [apply H; now left|].
    apply IH. intros; apply H; now right.
Qed.

Lemma wden_nil x : wden x [] = 1.
Proof. reflexivity. Qed.

Lemma wden_cons x a l : wden x (a :: l) = (x - a) * wden x l.
Proof. unfold wden. simpl. apply prod_cons. Qed.

Lemma wden_app x l1 l2 : wden x (l1 ++ l2) = wden x l1 * wden x l2.
Proof. unfold wden. rewrite map_app. apply prod_app. Qed.

Lemma wden_ne0 x l : ~ In x l -> wden x l <> 0.
Proof.
  intros H. unfold wden. apply prod_ne0. intros a Ha.
  apply in_map_iff in Ha. destruct Ha as [b [<- Hb]].
  apply Qc_sub_ne. intros ->. contradiction.
Qed.

(** ** Enumerations *)

Lemma filter_enum_from (l : list Qc) : forall k t,
  map snd (filter (fun '(j, _) => negb (j =? Z.of_nat t)%Z)
                  (combine (map Z.of_nat (seq k (length l))) l))
  = if (t <? k)%nat then l else firstn (t - k) l ++ skipn (S (t - k)) l.
Proof.
  induction l as [|a l IH]; intros k t.
  - simpl. destruct (t <? k)%nat; [reflexivity|].
    now rewrite firstn_nil.
  - cbn [length seq map combine filter].
    destruct (Z.of_nat k =? Z.of_nat t)%Z eqn:E; cbn [negb].
    + apply Z.eqb_eq in E. assert (t = k) by lia. subst t.
      rewrite IH. rewrite Nat.ltb_irrefl, Nat.sub_diag.
      replace (k <? S k)%nat with true by (symmetry; apply Nat.ltb_lt; lia).
      reflexivity.
    + apply Z.eqb_neq in E. cbn [map snd]. rewrite IH.
      destruct (t <? k)%nat eqn:E1.
      * apply Nat.ltb_lt in E1.
        replace (t <? S k)%nat with true by (symmetry; apply Nat.ltb_lt; lia).
        reflexivity.
      * apply Nat.ltb_ge in E1.
        replace (t <? S k)%nat with false by (symmetry; apply Nat.ltb_ge; lia).
        replace (t - k)%nat with (S (t - S k)) by lia.
        reflexivity.
Qed.

Lemma filter_enumerate (l : list Qc) (i : Z) :
  (0 <= i)%Z ->
  map snd (filter (fun '(j, _) => negb (j =? i)%Z) (enumerate l))
  = firstn (Z.to_nat i) l ++ skipn (S (Z.to_nat i)) l.
Proof.
  intros Hi. unfold enumerate, range.
  rewrite <- (Z2Nat.id i Hi). generalize (Z.to_nat i) as t. intros t.
  rewrite Nat2Z.id, filter_enum_from. simpl. now rewrite Nat.sub_0_r.
Qed.

Lemma map_snd_sub (x : Qc) (l : list (Z * Qc)) :
  map (fun '(_, xj) => x - xj) l = map (fun xj => x - xj) (map snd l).
Proof. rewrite map_map. apply map_ext. now intros [j xj]. Qed.

Lemma mapM_enum_from {B} (f : Z -> Qc -> result B) (g : Qc -> B) (l : list Qc) :
  forall k,
  (forall i xi, nth_error l i = Some xi -> f (Z.of_nat (k + i)) xi = Ok (g xi)) ->
  mapM (fun '(i, xi) => f i xi) (combine (map Z.of_nat (seq k (length l))) l)
  = Ok (map g l).
Proof.
  induction l as [|a l IH]; intros k H; [reflexivity|].
  cbn [length seq map combine mapM].
  specialize (H O a eq_refl) as H0. rewrite Nat.add_0_r in H0. rewrite H0.
  cbn [rbind]. rewrite IH; [reflexivity|].
  intros i xi Hi. replace (S k + i)%nat with (k + S i)%nat by lia.
  now apply H.
Qed.

(** ** The nodes other than one *)

Lemma others_notin x l : ~ In x l -> others x l = l.
Proof.
  induction l as [|a l IH]; intros H; [reflexivity|]. simpl.
  destruct (Qc_eq_dec a x) as [->|n].
  - exfalso. apply H. now left.
  - f_equal. apply IH. intros Hi. apply H. now right.
Qed.

Lemma others_app x l1 l2 : others x (l1 ++ l2) = others x l1 ++ others x l2.
Proof. apply filter_app. Qed.

Lemma others_cons_eq x l : others x (x :: l) = others x l.
Proof. simpl. destruct (Qc_eq_dec x x); congruence. Qed.

Lemma others_cons_ne x a l : a <> x -> others x (a :: l) = a :: others x l.
Proof. intros H. simpl. destruct (Qc_eq_dec a x); congruence. Qed.

Lemma not_in_others x l : ~ In x (others x l).
Proof.
  unfold others. intros H. apply filter_In in H. destruct H as [_ H].
  destruct (Qc_eq_dec x x); congruence.
Qed.

Lemma others_middle x l1 l2 :
  ~ In x (l1 ++ l2) -> others x (l1 ++ x :: l2) = l1 ++ l2.
Proof.
  intros H. rewrite others_app, others_cons_eq, <- others_app.
  now apply others_notin.
Qed.

Lemma nth_error_split_len {A} (l : list A) i a :
  nth_error l i = Some a ->
  l = firstn i l ++ a :: skipn (S i) l /\ length (firstn i l) = i.
Proof.
  intros H. destruct (nth_error_split l i H) as [l1 [l2 [E Hl]]].
  subst l i. rewrite firstn_app, Nat.sub_diag, firstn_all, firstn_O, app_nil_r.
  split; [|reflexivity].
  do 2 f_equal. rewrite skipn_app, skipn_all2 by lia.
  now replace (S (length l1) - length l1)%nat with 1%nat by lia.
Qed.

Lemma NoDup_middle (x : Qc) l1 l2 : NoDup (l1 ++ x :: l2) -> ~ In x (l1 ++ l2).
Proof. intros H. now apply NoDup_remove_2. Qed.

Lemma others_nth l i xi :
  NoDup l -> nth_error l i = Some xi ->
  others xi l = firstn i l ++ skipn (S i) l.
Proof.
  intros Hnd Hn. destruct (nth_error_split_len l i _ Hn) as [E _].
  rewrite E in Hnd. rewrite E at 1.
  apply others_middle. now apply NoDup_middle.
Qed.

(** ** Lagrange: construction *)

Lemma weight_at_ok l i xi :
  NoDup l -> nth_error l i = Some xi ->
  Lagrange.weight_at l (Z.of_nat i) xi = Ok (/ wden xi (others xi l)).
Proof.
  intros Hnd Hn. unfold Lagrange.weight_at.
  rewrite map_snd_sub, filter_enumerate by lia. rewrite Nat2Z.id.
  rewrite <- (others_nth _ _ _ Hnd Hn). fold (wden xi (others xi l)).
  unfold pow_neg1.
  destruct (Qc_eq_dec (wden xi (others xi l)) 0) as [E|_]; [|reflexivity].
  exfalso. revert E. apply wden_ne0, not_in_others.
Qed.

Lemma Lagrange_init_ok points :
  (2 <= length points)%nat -> NoDup (map fst points) ->
  Lagrange.init points
  = Ok (Lagrange.mk (map fst points) (map snd points) (weights (map fst points))).
Proof.
  intros H2 Hnd. unfold Lagrange.init.
  replace (length points <? 2)%nat with false
    by (symmetry; apply Nat.ltb_ge; lia).
  replace (length (map fst points) =? len_set (map fst points))%nat with true
    by (symmetry; apply Nat.eqb_eq; now apply len_set_NoDup).
  cbn [negb]. unfold enumerate, range.
  rewrite mapM_enum_from with (g := fun xi => / wden xi (others xi (map fst points))).
  - reflexivity.
  - intros i xi Hi. now apply weight_at_ok.
Qed.

Lemma Lagrange_init_cases points :
  ((length points < 2)%nat /\ Lagrange.init points = Raise Exception) \/
  ((2 <= length points)%nat /\ ~ NoDup (map fst points) /\
   Lagrange.init points = Raise ValueError) \/
  ((2 <= length points)%nat /\ NoDup (map fst points) /\
   Lagrange.init points
   = Ok (Lagrange.mk (map fst points) (map snd points) (weights (map fst points)))).
Proof.
  destruct (Nat.lt_ge_cases (length points) 2) as [H|H].
  - left. split; [assumption|]. unfold Lagrange.init.
    now replace (length points <? 2)%nat with true
      by (symmetry; apply Nat.ltb_lt; lia).
  - right.
    destruct (Nat.eq_dec (length (map fst points)) (len_set (map fst points)))
      as [E|E].
    + right. apply len_set_NoDup in E. auto using Lagrange_init_ok.
    + left. split; [assumption|]. split.
      * intros Hnd. apply E. now apply len_set_NoDup.
      * unfold Lagrange.init.
        replace (length points <? 2)%nat with false
          by (symmetry; apply Nat.ltb_ge; lia).
        now replace (length (map fst points) =? len_set (map fst points))%nat
          with false by (symmetry; apply Nat.eqb_neq; assumption).
Qed.

(** ** Lists cut at a position *)

Lemma firstn_middle {A} (l1 l2 : list A) a :
  firstn (length l1) (l1 ++ a :: l2) = l1.
Proof. now rewrite firstn_app, Nat.sub_diag, firstn_all, firstn_O, app_nil_r. Qed.

Lemma skipn_middle {A} (l1 l2 : list A) a :
  skipn (length l1) (l1 ++ a :: l2) = a :: l2.
Proof. now rewrite skipn_app, Nat.sub_diag, skipn_all. Qed.

Lemma skipn_S_middle {A} (l1 l2 : list A) a :
  skipn (S (length l1)) (l1 ++ a :: l2) = l2.
Proof.
  rewrite skipn_app, skipn_all2 by lia.
  now replace (S (length l1) - length l1)%nat with 1%nat by lia.
Qed.

Lemma nth_error_middle {A} (l1 l2 : list A) a :
  nth_error (l1 ++ a :: l2) (length l1) = Some a.
Proof. rewrite nth_error_app2 by lia. now rewrite Nat.sub_diag. Qed.

Lemma firstn_S_middle {A} (l1 l2 : list A) a :
  firstn (S (length l1)) (l1 ++ a :: l2) = l1 ++ [a].
Proof.
  rewrite firstn_app, firstn_all2 by lia.
  now replace (S (length l1) - length l1)%nat with 1%nat by lia.
Qed.

Lemma mapi_from_map (f : Qc -> Qc) (h : Qc -> Qc) g (X : list Qc) : forall k,
  (forall i xi, nth_error X i = Some xi -> g (k + i)%nat (f xi) = h xi) ->
  mapi_from k g (map f X) = map h X.
Proof.
  induction X as [|a X IH]; intros k H; [reflexivity|]. simpl.
  rewrite <- (H O a eq_refl), Nat.add_0_r. f_equal.
  apply IH. intros i xi Hi. replace (S k + i)%nat with (k + S i)%nat by lia.
  now apply H.
Qed.

(** *** How the weights change with the nodes *)

Lemma weight_add l1 l2 x xi :
  xi <> x ->
  / wden xi (others xi (l1 ++ x :: l2))
  = / wden xi (others xi (l1 ++ l2)) / (xi - x).
Proof.
  intros H. rewrite !others_app, others_cons_ne by congruence.
  rewrite !wden_app, wden_cons, !Qcinv_mult_distr. unfold Qcdiv. ring.
Qed.

Lemma weight_remove l1 l2 xr xi :
  xi <> xr ->
  / wden xi (others xi (l1 ++ xr :: l2)) * (xi - xr)
  = / wden xi (others xi (l1 ++ l2)).
Proof.
  intros H. rewrite weight_add by assumption.
  generalize (/ wden xi (others xi (l1 ++ l2))). intros c.
  field. now apply Qc_sub_ne.
Qed.

Lemma weights_insert l1 l2 x :
  ~ In x (l1 ++ l2) ->
  weights (l1 ++ x :: l2)
  = map (fun xi => / wden xi (others xi (l1 ++ l2)) / (xi - x)) l1
    ++ / wden x (l1 ++ l2)
    :: map (fun xi => / wden xi (others xi (l1 ++ l2)) / (xi - x)) l2.
Proof.
  intros H. unfold weights. rewrite map_app. cbn [map]. f_equal; [|f_equal].
  - apply map_ext_in. intros xi Hi. apply weight_add.
    intros ->. apply H, in_or_app. now left.
  - now rewrite others_middle.
  - apply map_ext_in. intros xi Hi. apply weight_add.
    intros ->. apply H, in_or_app. now right.
Qed.

Lemma weights_delete l1 l2 xr :
  NoDup (l1 ++ xr :: l2) ->
  map (fun xi => / wden xi (others xi (l1 ++ xr :: l2)) * (xi - xr)) (l1 ++ l2)
  = weights (l1 ++ l2).
Proof.
  intros H. apply NoDup_middle in H. unfold weights.
  apply map_ext_in. intros xi Hi. apply weight_remove.
  intros ->. contradiction.
Qed.

Lemma length_weights l : length (weights l) = length l.
Proof. apply length_map. Qed.

(** *** Parsing a point *)

Lemma not_tuple_of_false n p :
  not_tuple_of n p = false -> exists l, p = PyTuple l /\ length l = n.
Proof.
  destruct p as [a|l|l]; simpl; try discriminate.
  intros H. exists l. split; [reflexivity|].
  apply negb_false_iff, Nat.eqb_eq in H. assumption.
Qed.

Lemma float_pair_cases p :
  not_tuple_of 2 p = false ->
  (exists x y, p = PyTuple [PyFloat x; PyFloat y] /\ float_pair p = Ok (x, y))
  \/ (exists e, check_error e /\ float_pair p = Raise e).
Proof.
  intros H. apply not_tuple_of_false in H. destruct H as [l [-> Hl]].
  destruct l as [|a [|b [|c l]]]; try discriminate.
  destruct a as [x| |];
    [|right; exists TypeError; now split|right; exists ValueError; now split].
  destruct b as [y| |];
    [|right; exists TypeError; now split|right; exists ValueError; now split].
  left. now exists x, y.
Qed.

Lemma py_float_raise a e : py_float a = Raise e -> check_error e.
Proof. destruct a; simpl; intros H; try discriminate; now injection H as <-. Qed.

Lemma py_getitem_raise p k e : py_getitem p k = Raise e -> check_error e.
Proof.
  destruct p; simpl; intros H.
  - now injection H as <-.
  - apply list_getitem_raise in H. destruct H as [-> _]. exact I.
  - apply list_getitem_raise in H. destruct H as [-> _]. exact I.
Qed.

Lemma float_pair_raise p e : float_pair p = Raise e -> check_error e.
Proof.
  unfold float_pair. intros H.
  destruct (py_getitem p 0) as [a|e0] eqn:H0; cbn [rbind] in H;
    [|injection H as <-; now apply py_getitem_raise with p 0%Z].
  destruct (py_float a) as [x|e0] eqn:Ha; cbn [rbind] in H;
    [|injection H as <-; now apply py_float_raise with a].
  destruct (py_getitem p 1) as [b|e0] eqn:H1; cbn [rbind] in H;
    [|injection H as <-; now apply py_getitem_raise with p 1%Z].
  destruct (py_float b) as [y|e0] eqn:Hb; cbn [rbind] in H;
    [discriminate|injection H as <-; now apply py_float_raise with b].
Qed.


Lemma index_guard_false (index : Z) (N : nat) :
  ((index <? 0) || (Z.of_nat N <=? index))%Z = false ->
  exists k, index = Z.of_nat k /\ (k < N)%nat.
Proof.
  intros H. apply orb_false_iff in H. destruct H as [H1 H2].
  apply Z.ltb_ge in H1. apply Z.leb_gt in H2.
  exists (Z.to_nat index). split; lia.
Qed.

Lemma index_guard_true (index : Z) (N : nat) :
  ((index <? 0) || (Z.of_nat N <=? index))%Z = true <->
  (index < 0 \/ Z.of_nat N <= index)%Z.
Proof. rewrite orb_true_iff, Z.ltb_lt, Z.leb_le. tauto. Qed.

Lemma cut_map {A B} (f : A -> B) k l : cut k (map f l) = map f (cut k l).
Proof. unfold cut. now rewrite map_app, firstn_map, skipn_map. Qed.

Lemma length_cut {A} k (l : list A) :
  (k < length l)%nat -> length (cut k l) = (length l - 1)%nat.
Proof.
  intros H. unfold cut. rewrite length_app, length_firstn, length_skipn. lia.
Qed.

Lemma upd_map {A B} (f : A -> B) k v l : upd k (f v) (map f l) = map f (upd k v l).
Proof. unfold upd. now rewrite map_app, firstn_map, skipn_map. Qed.


Module LagrangeFacts.
Import Lagrange LagrangeInv.

Lemma put_ws_put_ws l l' s : put_ws l (put_ws l' s) = put_ws l s.
Proof. reflexivity. Qed.

Lemma put_ws_same s : put_ws (ws s) s = s.
Proof. now destruct s. Qed.

(** A loop over [range(N)] whose turn [i] replaces [ws[i]] by [g i ws[i]]
    and touches nothing else. *)
Lemma inplace_loop (X Y : list Qc) (body : Z -> M state unit)
      (g : nat -> Qc -> Qc) (N : nat) :
  (forall s i w,
      xs s = X -> ys s = Y -> length (ws s) = N ->
      nth_error (ws s) i = Some w ->
      body (Z.of_nat i) s
      = (Ok tt, put_ws (firstn i (ws s) ++ g i w :: skipn (S i) (ws s)) s)) ->
  forall m k s,
    (k + m = N)%nat -> xs s = X -> ys s = Y -> length (ws s) = N ->
    for_each (map Z.of_nat (seq k m)) body s
    = (Ok tt, put_ws (firstn k (ws s) ++ mapi_from k g (skipn k (ws s))) s).
Proof.
  intros Hb. induction m as [|m IH]; intros k s Hk HX HY HN.
  - simpl. unfold ret. rewrite skipn_all2, firstn_all2 by lia.
    simpl. now rewrite app_nil_r, put_ws_same.
  - cbn [seq map for_each].
    destruct (nth_error (ws s) k) as [w|] eqn:Hw;
      [|apply nth_error_None in Hw; lia].
    erewrite bind_ok by (apply (Hb s k w); assumption).
    destruct (nth_error_split _ _ Hw) as [l1 [l2 [E Hl]]].
    rewrite IH; cbn [ws xs ys put_ws]; try assumption; try lia.
    + rewrite put_ws_put_ws. f_equal. f_equal.
      rewrite E. subst k.
      rewrite firstn_middle, skipn_S_middle, firstn_S_middle, skipn_S_middle.
      rewrite skipn_middle. cbn [mapi_from]. now rewrite <- app_assoc.
    + rewrite E in *. subst k.
      rewrite firstn_middle, skipn_S_middle.
      rewrite length_app in *. cbn [length] in *. lia.
Qed.


(** *** The weight-dividing loop of [append] and [insert] *)

Lemma divide_weights_ok s x_new :
  length (ws s) = length (xs s) -> ~ In x_new (xs s) ->
  divide_weights (length (xs s)) x_new s
  = (Ok tt,
     put_ws (mapi_from 0 (fun i w => w / (nth i (xs s) 0 - x_new)) (ws s)) s).
Proof.
  intros Hl Hni. unfold divide_weights, range.
  rewrite (inplace_loop (xs s) (ys s) _
             (fun i w => w / (nth i (xs s) 0 - x_new)) (length (xs s)));
    try reflexivity; try assumption.
  intros s' i w HX HY HN Hw.
  assert (Hi : (i < length (xs s))%nat)
    by (rewrite <- HN; apply nth_error_Some; congruence).
  unfold bind, load, lift, store.
  rewrite (list_getitem_nat _ _ _ Hw), HX.
  rewrite (list_getitem_nat _ _ _ (nth_error_nth' (xs s) 0 Hi)).
  unfold div.
  destruct (Qc_eq_dec (nth i (xs s) 0 - x_new) 0) as [E|_].
  - exfalso. revert E. apply Qc_sub_ne. intros E. apply Hni. rewrite <- E.
    now apply nth_In.
  - rewrite list_setitem_nat by lia. reflexivity.
Qed.

Lemma divide_weights_wf s x_new :
  ws s = weights (xs s) -> ~ In x_new (xs s) ->
  divide_weights (length (xs s)) x_new s
  = (Ok tt,
     put_ws (map (fun xi => / wden xi (others xi (xs s)) / (xi - x_new)) (xs s)) s).
Proof.
  intros Hw Hni. rewrite divide_weights_ok;
    [|rewrite Hw; apply length_weights|assumption].
  do 2 f_equal. rewrite Hw. unfold weights. apply mapi_from_map.
  intros i xi Hi. simpl. now rewrite (nth_error_nth _ _ 0 Hi).
Qed.

(** *** [append] and [insert] *)

Lemma lagrange_append_cases s p :
  wf s ->
  (exists e, check_error e /\ append p s = (Raise e, s)) \/
  (exists x y, p = PyTuple [PyFloat x; PyFloat y] /\ ~ In x (xs s) /\
     append p s
     = (Ok tt, mk (xs s ++ [x]) (ys s ++ [y]) (weights (xs s ++ [x])))).
Proof.
  intros [Hly Hnd H2 Hws]. unfold append.
  destruct (not_tuple_of 2 p) eqn:Hnt.
  { left. exists TypeError. split; [exact I|reflexivity]. }
  destruct (float_pair_cases _ Hnt) as [[x [y [-> Hfp]]]|[ec [Hec Hfp]]]; mstep; rewrite Hfp; mstep.
  2:{ left. exists ec. split; [assumption|reflexivity]. }
  destruct (list_contains (xs s) x) eqn:Hc.
  { left. exists Exception. split; [exact I|reflexivity]. }
  apply list_contains_false in Hc.
  right. exists x, y. split; [reflexivity|]. split; [assumption|].
  assert (Hlw : length (ws s) = length (xs s)) by (rewrite Hws; apply length_weights).
  mstep. rewrite Hlw.
  erewrite bind_ok by (now apply divide_weights_wf). mstep.
  cbn [xs ys ws put_ws put_xs put_ys].
  fold (wden x (xs s)). unfold pow_neg1.
  destruct (Qc_eq_dec (wden x (xs s)) 0) as [E|_];
    [exfalso; revert E; now apply wden_ne0|]. mstep.
  cbn [xs ys ws put_ws put_xs put_ys]. do 2 f_equal.
  rewrite (weights_insert (xs s) [] x) by now rewrite app_nil_r.
  now rewrite app_nil_r.
Qed.

Lemma lagrange_insert_cases s index p :
  wf s ->
  (exists e, check_error e /\ insert index p s = (Raise e, s)) \/
  (exists x y k,
     index = Z.of_nat k /\ (k < length (xs s))%nat /\
     float_pair p = Ok (x, y) /\ ~ In x (xs s) /\
     insert index p s
     = (Ok tt, mk (ins k x (xs s)) (ins k y (ys s)) (weights (ins k x (xs s))))).
Proof.
  intros [Hly Hnd H2 Hws]. unfold insert. mstep.
  destruct ((index <? 0)%Z || (Z.of_nat (length (xs s)) <=? index)%Z) eqn:Hg.
  { left. exists IndexError. split; [exact I|reflexivity]. }
  apply index_guard_false in Hg. destruct Hg as [k [-> Hk]].
  destruct (float_pair p) as [[x y]|e] eqn:Hfp; mstep.
  2:{ left. exists e. split; [now apply float_pair_raise with p|reflexivity]. }
  destruct (list_contains (xs s) x) eqn:Hc.
  { left. exists Exception. split; [exact I|reflexivity]. }
  apply list_contains_false in Hc.
  right. exists x, y, k. repeat (split; [reflexivity || assumption|]).
  erewrite bind_ok by (now apply divide_weights_wf). mstep.
  cbn [xs ys ws put_ws put_xs put_ys].
  fold (wden x (xs s)). unfold pow_neg1.
  destruct (Qc_eq_dec (wden x (xs s)) 0) as [E|_];
    [exfalso; revert E; now apply wden_ne0|]. mstep.
  unfold modify. cbn [xs ys ws put_ws put_xs put_ys].
  rewrite !list_insert_nat by (rewrite ?length_map; lia).
  unfold ins. rewrite weights_insert by now rewrite firstn_skipn.
  now rewrite firstn_skipn, firstn_map, skipn_map.
Qed.

(** *** [__delitem__] *)

Lemma scale_weights_ok s xr :
  length (ws s) = length (xs s) ->
  for_each (range (length (xs s)))
    (fun i =>
       wi <- load ws i ;;
       xi <- load xs i ;;
       store ws put_ws i (wi * (xi - xr))) s
  = (Ok tt,
     put_ws (mapi_from 0 (fun i w => w * (nth i (xs s) 0 - xr)) (ws s)) s).
Proof.
  intros Hl. unfold range.
  rewrite (inplace_loop (xs s) (ys s) _
             (fun i w => w * (nth i (xs s) 0 - xr)) (length (xs s)));
    try reflexivity; try assumption.
  intros s' i w HX HY HN Hw.
  assert (Hi : (i < length (xs s))%nat)
    by (rewrite <- HN; apply nth_error_Some; congruence).
  unfold bind, load, store.
  rewrite (list_getitem_nat _ _ _ Hw), HX.
  rewrite (list_getitem_nat _ _ _ (nth_error_nth' (xs s) 0 Hi)).
  rewrite list_setitem_nat by lia. reflexivity.
Qed.

Lemma lagrange_delitem_cases s index :
  wf s ->
  ((length (xs s) <= 2)%nat /\ delitem index s = (Raise Exception, s)) \/
  ((2 < length (xs s))%nat /\ norm_index (length (xs s)) index = None /\
   delitem index s = (Raise IndexError, s)) \/
  ((2 < length (xs s))%nat /\
   exists k, norm_index (length (xs s)) index = Some k /\
     delitem index s
     = (Ok tt, mk (cut k (xs s)) (cut k (ys s)) (weights (cut k (xs s))))).
Proof.
  intros [Hly Hnd H2 Hws]. unfold delitem. mstep.
  assert (Hlw : length (ws s) = length (xs s))
    by (rewrite Hws; apply length_weights).
  destruct (length (xs s) <=? 2)%nat eqn:HN.
  { left. apply Nat.leb_le in HN. split; [assumption|reflexivity]. }
  apply Nat.leb_gt in HN. right.
  destruct (norm_index (length (xs s)) index) as [k|] eqn:Hn.
  2:{ left. split; [assumption|]. split; [reflexivity|].
      unfold bind, load, list_getitem. now rewrite Hn. }
  right. split; [assumption|]. exists k. split; [reflexivity|].
  destruct (norm_index_inv _ _ _ Hn) as [Hk _].
  destruct (nth_error (xs s) k) as [xr|] eqn:Hxr;
    [|apply nth_error_None in Hxr; lia].
  erewrite bind_load by (unfold list_getitem; rewrite Hn, Hxr; reflexivity).
  erewrite bind_delete by (unfold list_delitem; rewrite Hn; reflexivity).
  erewrite bind_delete
    by (unfold list_delitem; cbn [ys put_xs]; rewrite Hly, Hn; reflexivity).
  erewrite bind_delete
    by (unfold list_delitem; cbn [ws put_xs put_ys]; rewrite Hlw, Hn;
        reflexivity).
  fold (cut k (xs s)). fold (cut k (ys s)). fold (cut k (ws s)).
  set (s3 := put_ws _ _).
  replace (length (xs s) - 1)%nat with (length (xs s3))
    by (subst s3; cbn [xs put_ws put_ys put_xs]; now rewrite length_cut).
  rewrite scale_weights_ok
    by (subst s3; cbn [xs ws put_ws put_ys put_xs];
        rewrite !length_cut by lia; lia).
  subst s3. cbn [xs ys ws put_ws put_xs put_ys]. unfold put_ws.
  cbn [xs ys ws put_ws put_xs put_ys]. do 2 f_equal.
  rewrite Hws. unfold weights at 1. rewrite cut_map.
  rewrite mapi_from_map
    with (h := fun xi => / wden xi (others xi (xs s)) * (xi - xr)).
  - destruct (nth_error_split _ _ Hxr) as [l1 [l2 [E Hl]]].
    rewrite E in Hnd |- *. subst k. unfold cut.
    rewrite firstn_middle, skipn_S_middle. now apply weights_delete.
  - intros i xi Hi. simpl. now rewrite (nth_error_nth _ _ 0 Hi).
Qed.

(** *** [__setitem__] *)

Lemma replace_loop_ok s k xn :
  length (ws s) = length (xs s) -> (k < length (xs s))%nat ->
  (forall i, i <> k -> (i < length (xs s))%nat -> nth i (xs s) 0 <> xn) ->
  for_each (range (length (xs s)))
    (fun i =>
       if (i =? Z.of_nat k)%Z then ret tt
       else
         wi <- load ws i ;;
         xi <- load xs i ;;
         xind <- load xs (Z.of_nat k) ;;
         store ws put_ws i (wi * (xi - xind)) ;;;
         wi' <- load ws i ;;
         xi' <- load xs i ;;
         d <- lift (div wi' (xi' - xn)) ;;
         store ws put_ws i d) s
  = (Ok tt,
     put_ws (mapi_from 0
               (fun i w => if (i =? k)%nat then w
                           else w * (nth i (xs s) 0 - nth k (xs s) 0)
                                / (nth i (xs s) 0 - xn))
               (ws s)) s).
Proof.
  intros Hl Hk Hne. unfold range.
  rewrite (inplace_loop (xs s) (ys s) _
             (fun i w => if (i =? k)%nat then w
                         else w * (nth i (xs s) 0 - nth k (xs s) 0)
                              / (nth i (xs s) 0 - xn)) (length (xs s)));
    try reflexivity; try assumption.
  intros s' i w HX HY HN Hw.
  assert (Hi : (i < length (xs s))%nat)
    by (rewrite <- HN; apply nth_error_Some; congruence).
  destruct (nth_error_split _ _ Hw) as [l1 [l2 [E Hl1]]].
  destruct (Nat.eqb_spec i k) as [->|Hik].
  - rewrite Z.eqb_refl. unfold ret. rewrite E, <- Hl1.
    rewrite firstn_middle, skipn_S_middle, <- E. now rewrite put_ws_same.
  - replace (Z.of_nat i =? Z.of_nat k)%Z with false
      by (symmetry; apply Z.eqb_neq; lia).
    erewrite bind_load by (apply list_getitem_nat, Hw).
    erewrite bind_load
      by (rewrite HX; apply list_getitem_nat, (nth_error_nth' (xs s) 0 Hi)).
    erewrite bind_load
      by (rewrite HX; apply list_getitem_nat, (nth_error_nth' (xs s) 0 Hk)).
    erewrite bind_store by (apply list_setitem_nat; lia).
    rewrite E, <- Hl1, firstn_middle, skipn_S_middle.
    erewrite bind_load
      by (cbn [ws put_ws]; rewrite Hl1 at 1;
          apply list_getitem_nat; rewrite <- Hl1; apply nth_error_middle).
    erewrite bind_load
      by (cbn [xs put_ws]; rewrite HX; rewrite Hl1;
          apply list_getitem_nat, (nth_error_nth' (xs s) 0 Hi)).
    mstep. unfold div.
    destruct (Qc_eq_dec (nth i (xs s) 0 - xn) 0) as [E0|_].
    { exfalso. revert E0. apply Qc_sub_ne. now apply Hne. }
    mstep. unfold store. cbn [ws put_ws].
    rewrite Hl1 at 1.
    rewrite list_setitem_nat by (rewrite length_app; simpl; lia).
    rewrite <- Hl1, firstn_middle, skipn_S_middle. reflexivity.
Qed.

Lemma lagrange_setitem_cases s index p :
  wf s ->
  (exists e, check_error e /\ setitem index p s = (Raise e, s)) \/
  (exists x y k,
     index = Z.of_nat k /\ (k < length (xs s))%nat /\
     p = PyTuple [PyFloat x; PyFloat y] /\ ~ In x (cut k (xs s)) /\
     setitem index p s
     = (Ok tt, mk (upd k x (xs s)) (upd k y (ys s)) (weights (upd k x (xs s))))).
Proof.
  intros [Hly Hnd H2 Hws]. unfold setitem. mstep.
  assert (Hlw : length (ws s) = length (xs s))
    by (rewrite Hws; apply length_weights).
  destruct ((index <? 0)%Z || (Z.of_nat (length (xs s)) <=? index)%Z) eqn:Hg.
  { left. exists IndexError. split; [exact I|reflexivity]. }
  apply index_guard_false in Hg. destruct Hg as [k [-> Hk]].
  destruct (not_tuple_of 2 p) eqn:Hnt.
  { left. exists TypeError. split; [exact I|reflexivity]. }
  destruct (float_pair_cases _ Hnt) as [[x [y [-> Hfp]]]|[ec [Hec Hfp]]]; mstep;
    rewrite Hfp; mstep.
  2:{ left. exists ec. split; [assumption|reflexivity]. }
  rewrite filter_enumerate by lia. rewrite Nat2Z.id. fold (cut k (xs s)).
  destruct (list_contains (cut k (xs s)) x) eqn:Hc.
  { left. exists Exception. split; [exact I|reflexivity]. }
  apply list_contains_false in Hc.
  right. exists x, y, k. repeat (split; [reflexivity || assumption|]).
  destruct (nth_error (xs s) k) as [xo|] eqn:Hxo;
    [|apply nth_error_None in Hxo; lia].
  destruct (nth_error_split _ _ Hxo) as [l1 [l2 [E Hl1]]].
  assert (Hcut : cut k (xs s) = l1 ++ l2).
  { unfold cut. rewrite E, <- Hl1. now rewrite firstn_middle, skipn_S_middle. }
  erewrite bind_ok.
  2:{ apply replace_loop_ok; try assumption.
      intros i Hik Hi E0. apply Hc. rewrite Hcut.
      rewrite E in E0, Hi. rewrite length_app in Hi. cbn [length] in Hi.
      destruct (Nat.lt_ge_cases i (length l1)) as [Hlt|Hge].
      - rewrite app_nth1 in E0 by assumption. apply in_or_app. left.
        rewrite <- E0. now apply nth_In.
      - rewrite app_nth2 in E0 by assumption.
        destruct (i - length l1)%nat as [|j] eqn:Ej; [lia|].
        cbn [nth] in E0. apply in_or_app. right. rewrite <- E0.
        apply nth_In. lia. }
  mstep. cbn [xs put_ws]. rewrite map_snd_sub, filter_enumerate by lia.
  rewrite Nat2Z.id. fold (cut k (xs s)). fold (wden x (cut k (xs s))).
  unfold pow_neg1.
  destruct (Qc_eq_dec (wden x (cut k (xs s))) 0) as [E0|_];
    [exfalso; revert E0; now apply wden_ne0|]. mstep.
  assert (Hloop :
    mapi_from 0
      (fun i w => if (i =? k)%nat then w
                  else w * (nth i (xs s) 0 - nth k (xs s) 0)
                       / (nth i (xs s) 0 - x)) (ws s)
    = map (fun xi => if Qc_eq_dec xi xo then / wden xi (others xi (xs s))
                     else / wden xi (others xi (xs s)) * (xi - xo) / (xi - x))
          (xs s)).
  { rewrite Hws. unfold weights. apply mapi_from_map.
    intros i xi Hi. cbn [Nat.add].
    rewrite (nth_error_nth _ _ 0 Hi), (nth_error_nth _ _ 0 Hxo).
    destruct (Nat.eqb_spec i k) as [->|Hik].
    - assert (xi = xo) by congruence. subst xi.
      destruct (Qc_eq_dec xo xo); congruence.
    - destruct (Qc_eq_dec xi xo) as [->|_]; [|reflexivity].
      exfalso. apply Hik.
      apply (proj1 (NoDup_nth_error (xs s)) Hnd); [|congruence].
      apply nth_error_Some. congruence. }
  rewrite Hloop.
  erewrite bind_store
    by (cbn [ws put_ws]; apply list_setitem_nat; rewrite length_map; lia).
  erewrite bind_store by (cbn [xs put_ws]; apply list_setitem_nat; lia).
  unfold store. cbn [xs ys ws put_ws put_xs put_ys].
  rewrite list_setitem_nat by lia.
  cbn [xs ys ws put_ws put_xs put_ys]. unfold put_ys.
  cbn [xs ys ws put_ws put_xs put_ys]. fold (upd k x (xs s)).
  fold (upd k y (ys s)). do 2 f_equal.
  unfold upd. rewrite Hcut. rewrite E in Hnd |- *. subst k.
  rewrite map_app. cbn [map].
  rewrite <- (length_map (fun xi : Qc =>
     if Qc_eq_dec xi xo then / wden xi (others xi (l1 ++ xo :: l2))
     else / wden xi (others xi (l1 ++ xo :: l2)) * (xi - xo) / (xi - x)) l1)
    at 1 2.
  rewrite !firstn_middle, !skipn_S_middle.
  rewrite Hcut in Hc. rewrite weights_insert by assumption.
  assert (Hno : ~ In xo (l1 ++ l2)) by now apply NoDup_middle.
  f_equal; [|f_equal]; apply map_ext_in; intros xi Hi;
    (destruct (Qc_eq_dec xi xo) as [->|Hne];
     [exfalso; apply Hno, in_or_app; tauto|]);
    now rewrite weight_remove.
Qed.

End LagrangeFacts.

(** *** The invariant *)

Lemma NoDup_ins (x : Qc) l1 l2 :
  NoDup (l1 ++ l2) -> ~ In x (l1 ++ l2) -> NoDup (l1 ++ x :: l2).
Proof.
  intros H1 H2. apply (NoDup_Add (Add_app x l1 l2)). now split.
Qed.

Lemma map_fst_combine {A B} (l : list A) (l' : list B) :
  length l' = length l -> map fst (combine l l') = l.
Proof.
  revert l'. induction l as [|a l IH]; intros [|b l'] H; simpl in *;
    try discriminate; [reflexivity|]. f_equal. apply IH. lia.
Qed.

Lemma map_snd_combine {A B} (l : list A) (l' : list B) :
  length l' = length l -> map snd (combine l l') = l'.
Proof.
  revert l'. induction l as [|a l IH]; intros [|b l'] H; simpl in *;
    try discriminate; [reflexivity|]. f_equal. apply IH. lia.
Qed.

Lemma combine_map_fst_snd {A B} (l : list (A * B)) :
  combine (map fst l) (map snd l) = l.
Proof. induction l as [|[a b] l IH]; simpl; congruence. Qed.

Lemma length_ins {A} k (v : A) l : length (ins k v l) = S (length l).
Proof.
  unfold ins. rewrite length_app. cbn [length].
  rewrite <- (firstn_skipn k l) at 3. rewrite length_app. lia.
Qed.

Lemma length_upd {A} k (v : A) l :
  (k < length l)%nat -> length (upd k v l) = length l.
Proof.
  intros H. unfold upd. rewrite length_app. cbn [length].
  rewrite length_firstn, length_skipn. lia.
Qed.

Module LagrangeReach.
Import Lagrange LagrangeInv LagrangeFacts.

Lemma lagrange_init_wf points s : init points = Ok s -> wf s.
Proof.
  intros H.
  destruct (Lagrange_init_cases points)
    as [[_ E]|[[_ [_ E]]|[H2 [Hnd E]]]]; rewrite E in H; try discriminate.
  injection H as <-. constructor; cbn [xs ys ws].
  - now rewrite !length_map.
  - assumption.
  - now rewrite length_map.
  - reflexivity.
Qed.

Lemma lagrange_append_wf s p s' : wf s -> append p s = (Ok tt, s') -> wf s'.
Proof.
  intros Hwf H. destruct (lagrange_append_cases s p Hwf) as [[e [_ E]]|[x [y [_ [Hni E]]]]];
    rewrite E in H; [discriminate|].
  injection H as <-. destruct Hwf as [Hly Hnd H2 _].
  constructor; cbn [xs ys ws].
  - rewrite !length_app. simpl. lia.
  - apply NoDup_ins; now rewrite app_nil_r.
  - rewrite length_app. lia.
  - reflexivity.
Qed.

Lemma lagrange_insert_wf s i p s' : wf s -> insert i p s = (Ok tt, s') -> wf s'.
Proof.
  intros Hwf H.
  destruct (lagrange_insert_cases s i p Hwf)
    as [[e [_ E]]|[x [y [k [_ [Hk [_ [Hni E]]]]]]]];
    rewrite E in H; [discriminate|].
  injection H as <-. destruct Hwf as [Hly Hnd H2 _].
  constructor; cbn [xs ys ws].
  - rewrite !length_ins. lia.
  - unfold ins. apply NoDup_ins; now rewrite firstn_skipn.
  - rewrite length_ins. lia.
  - reflexivity.
Qed.

Lemma lagrange_delitem_wf s i s' : wf s -> delitem i s = (Ok tt, s') -> wf s'.
Proof.
  intros Hwf H.
  destruct (lagrange_delitem_cases s i Hwf)
    as [[_ E]|[[_ [_ E]]|[HN [k [Hn E]]]]];
    rewrite E in H; try discriminate.
  injection H as <-. destruct Hwf as [Hly Hnd H2 _].
  destruct (norm_index_inv _ _ _ Hn) as [Hk _].
  constructor; cbn [xs ys ws].
  - rewrite !length_cut; lia.
  - destruct (nth_error (xs s) k) as [xr|] eqn:Hxr;
      [|apply nth_error_None in Hxr; lia].
    destruct (nth_error_split _ _ Hxr) as [l1 [l2 [E' Hl1]]].
    unfold cut. rewrite E' in Hnd |- *. subst k.
    rewrite firstn_middle, skipn_S_middle. now apply NoDup_remove_1 in Hnd.
  - rewrite length_cut; lia.
  - reflexivity.
Qed.

Lemma lagrange_setitem_wf s i p s' : wf s -> setitem i p s = (Ok tt, s') -> wf s'.
Proof.
  intros Hwf H.
  destruct (lagrange_setitem_cases s i p Hwf)
    as [[e [_ E]]|[x [y [k [_ [Hk [_ [Hni E]]]]]]]];
    rewrite E in H; [discriminate|].
  injection H as <-. destruct Hwf as [Hly Hnd H2 _].
  constructor; cbn [xs ys ws].
  - rewrite !length_upd; lia.
  - destruct (nth_error (xs s) k) as [xo|] eqn:Hxo;
      [|apply nth_error_None in Hxo; lia].
    destruct (nth_error_split _ _ Hxo) as [l1 [l2 [E' Hl1]]].
    unfold upd, cut in *. rewrite E' in Hnd, Hni |- *. subst k.
    rewrite firstn_middle, skipn_S_middle in *.
    apply NoDup_ins; [now apply NoDup_remove_1 in Hnd|assumption].
  - rewrite length_upd; lia.
  - reflexivity.
Qed.

Lemma lagrange_run_wf s o s' : wf s -> run o s = (Ok tt, s') -> wf s'.
Proof.
  destruct o; simpl; eauto using lagrange_append_wf, lagrange_insert_wf, lagrange_delitem_wf, lagrange_setitem_wf.
Qed.

Lemma lagrange_reachable_wf s : reachable s -> wf s.
Proof.
  induction 1 as [points s H|s o s' _ IH H]; eauto using lagrange_init_wf, lagrange_run_wf.
Qed.

Lemma lagrange_wf_init s : wf s -> init (combine (xs s) (ys s)) = Ok s.
Proof.
  intros [Hly Hnd H2 Hws].
  rewrite Lagrange_init_ok.
  - rewrite map_fst_combine, map_snd_combine by lia.
    rewrite <- Hws. now destruct s.
  - rewrite length_combine. lia.
  - now rewrite map_fst_combine.
Qed.

End LagrangeReach.

(** ** Divided differences *)

Lemma sum_map_add {A} (f g : A -> Qc) l :
  sum (map (fun q => f q + g q) l) = sum (map f l) + sum (map g l).
Proof.
  induction l as [|a l IH]; simpl.
  - rewrite sum_nil. ring.
  - rewrite !sum_cons, IH. ring.
Qed.

Lemma sum_map_scale {A} (c : Qc) (f : A -> Qc) l :
  sum (map (fun q => c * f q) l) = c * sum (map f l).
Proof.
  induction l as [|a l IH]; simpl.
  - rewrite sum_nil. ring.
  - rewrite !sum_cons, IH. ring.
Qed.

Lemma sum_map_ext_in {A} (f g : A -> Qc) l :
  (forall a, In a l -> f a = g a) -> sum (map f l) = sum (map g l).
Proof. intros H. f_equal. now apply map_ext_in. Qed.

Lemma sum_map_app {A} (f : A -> Qc) l1 l2 :
  sum (map f (l1 ++ l2)) = sum (map f l1) + sum (map f l2).
Proof. now rewrite map_app, sum_app. Qed.

Lemma bw_remove l1 l2 xr xi :
  xi <> xr -> bw (l1 ++ l2) xi = bw (l1 ++ xr :: l2) xi * (xi - xr).
Proof. intros H. unfold bw. now rewrite weight_remove. Qed.

Lemma bw_add l1 l2 x xi :
  xi <> x -> bw (l1 ++ x :: l2) xi = bw (l1 ++ l2) xi / (xi - x).
Proof. intros H. unfold bw. now apply weight_add. Qed.

Lemma bw_remove_head l b xi : xi <> b -> bw l xi = bw (b :: l) xi * (xi - b).
Proof. intros H. exact (bw_remove [] l b xi H). Qed.

Lemma bw_remove_last l a xi : xi <> a -> bw l xi = bw (l ++ [a]) xi * (xi - a).
Proof.
  intros H. rewrite <- (app_nil_r l) at 1. exact (bw_remove l [] a xi H).
Qed.

(** The recurrence of divided differences, for the points [pb :: m ++ [pa]]. *)
Lemma ddf_rec (pa pb : Qc * Qc) (m : list (Qc * Qc)) :
  NoDup (map fst (pb :: m ++ [pa])) ->
  (ddf (m ++ [pa]) - ddf (pb :: m)) / (fst pa - fst pb)
  = ddf (pb :: m ++ [pa]).
Proof.
  intros Hnd. destruct pa as [a ya], pb as [b yb]. cbn [fst snd] in *.
  rewrite map_cons, map_app in Hnd. cbn [map fst] in Hnd.
  set (M := map fst m) in *.
  assert (Hnb : ~ In b (M ++ [a])) by (now inversion Hnd).
  assert (Hna : ~ In a M).
  { assert (Hnd' : NoDup (M ++ [a])) by (now inversion Hnd).
    apply NoDup_remove_2 in Hnd'. now rewrite app_nil_r in Hnd'. }
  assert (Hab : a <> b).
  { intros E. apply Hnb, in_or_app. right. now left. }
  assert (HMb : forall q, In q m -> fst q <> b).
  { intros q Hq E. apply Hnb, in_or_app. left. rewrite <- E. now apply in_map. }
  assert (HMa : forall q, In q m -> fst q <> a).
  { intros q Hq E. apply Hna. rewrite <- E. now apply in_map. }
  set (X := b :: M ++ [a]).
  assert (E1 : ddf (m ++ [(a, ya)])
               = sum (map (fun q => snd q * bw X (fst q) * (fst q - b)) m)
                 + ya * bw X a * (a - b)).
  { unfold ddf.
    replace (map fst (m ++ [(a, ya)])) with (M ++ [a]) by (now rewrite map_app).
    rewrite sum_map_app. cbn [map]. rewrite sum_cons, sum_nil. cbn [fst snd].
    rewrite (bw_remove_head (M ++ [a]) b a) by assumption. fold X.
    rewrite (sum_map_ext_in _ (fun q => snd q * bw X (fst q) * (fst q - b))).
    - ring.
    - intros q Hq. rewrite (bw_remove_head (M ++ [a]) b (fst q)) by auto.
      fold X. ring. }
  assert (E2 : ddf ((b, yb) :: m)
               = yb * bw X b * (b - a)
                 + sum (map (fun q => snd q * bw X (fst q) * (fst q - a)) m)).
  { unfold ddf. cbn [map fst snd]. fold M. rewrite sum_cons.
    assert (EX : forall xi, xi <> a -> bw (b :: M) xi = bw X xi * (xi - a)).
    { intros xi Hxi. now rewrite (bw_remove_last (b :: M) a xi). }
    rewrite EX by auto.
    rewrite (sum_map_ext_in (fun p => snd p * bw (b :: M) (fst p))
                            (fun q => snd q * bw X (fst q) * (fst q - a))).
    - ring.
    - intros q Hq. rewrite EX by auto. ring. }
  assert (E3 : ddf ((b, yb) :: m ++ [(a, ya)])
               = yb * bw X b + sum (map (fun q => snd q * bw X (fst q)) m)
                 + ya * bw X a).
  { unfold ddf.
    replace (map fst ((b, yb) :: m ++ [(a, ya)])) with X
      by (subst X M; cbn [map fst]; now rewrite map_app).
    cbn [map fst snd]. rewrite sum_cons, sum_map_app. cbn [map]. rewrite sum_cons, sum_nil.
    cbn [fst snd]. ring. }
  rewrite E1, E2, E3.
  rewrite (sum_map_ext_in (fun q => snd q * bw X (fst q) * (fst q - b))
             (fun q => snd q * bw X (fst q) * (fst q - a)
                       + (a - b) * (snd q * bw X (fst q))))
    by (intros; ring).
  rewrite sum_map_add, sum_map_scale.
  field. now apply Qc_sub_ne.
Qed.

(** ** Newton: the divided-difference table *)

Lemma foldM_app {A B} (f : B -> A -> result B) l1 l2 b :
  foldM f (l1 ++ l2) b = let? b' := foldM f l1 b in foldM f l2 b'.
Proof.
  revert b. induction l1 as [|a l1 IH]; intros b; [reflexivity|]. simpl.
  destruct (f b a); simpl; [apply IH|reflexivity].
Qed.

Lemma range_S n : range (S n) = range n ++ [Z.of_nat n].
Proof. unfold range. now rewrite seq_S, map_app. Qed.

Lemma firstn_S_nth {A} (l : list A) j a :
  nth_error l j = Some a -> firstn (S j) l = firstn j l ++ [a].
Proof.
  intros H. destruct (nth_error_split _ _ H) as [l1 [l2 [-> <-]]].
  now rewrite firstn_S_middle, firstn_middle.
Qed.

Lemma NoDup_firstn {A} (l : list A) k : NoDup l -> NoDup (firstn k l).
Proof.
  intros H. rewrite <- (firstn_skipn k l) in H.
  now apply NoDup_app_remove_r in H.
Qed.

(** The inner loop of the divided-difference table: from the row of the
    points [Q] (last point first) to the row of [p :: Q]. *)
Lemma row_fold_ok (xs : list Qc) (n : nat) (Q : list (Qc * Qc)) (p : Qc * Qc) :
  length Q = n ->
  NoDup (map fst (p :: Q)) ->
  list_getitem xs (Z.of_nat n) = Ok (fst p) ->
  (forall j qj, nth_error Q j = Some qj ->
                list_getitem xs (Z.of_nat n - 1 - Z.of_nat j) = Ok (fst qj)) ->
  forall m j0, (j0 + m = n)%nat ->
    foldM (Newton.row_step xs (Z.of_nat n))
          (combine (map Z.of_nat (seq j0 m))
                   (map (fun j => ddf (firstn (S j) Q)) (seq j0 m)))
          (map (fun j => ddf (firstn (S j) (p :: Q))) (seq 0 (S j0)))
    = Ok (map (fun j => ddf (firstn (S j) (p :: Q))) (seq 0 (S n))).
Proof.
  intros HQ Hnd Hxn Hxj. induction m as [|m IH]; intros j0 Hj.
  - simpl. now replace j0 with n by lia.
  - set (G := fun j => ddf (firstn (S j) (p :: Q))) in *.
    assert (Hacc : map G (seq 0 (S j0)) = map G (seq 0 j0) ++ [G j0])
      by (now rewrite seq_S, map_app).
    rewrite Hacc. clear Hacc.
    cbn [seq map combine foldM]. unfold Newton.row_step at 1.
    rewrite list_getitem_last. cbn [rbind].
    destruct (nth_error Q j0) as [qj|] eqn:Hq;
      [|apply nth_error_None in Hq; lia].
    rewrite (Hxj _ _ Hq), Hxn. cbn [rbind].
    assert (Hpre : NoDup (map fst (p :: firstn j0 Q ++ [qj]))).
    { rewrite <- (firstn_S_nth _ _ _ Hq).
      change (p :: firstn (S j0) Q) with (firstn (S (S j0)) (p :: Q)).
      rewrite <- firstn_map. now apply NoDup_firstn. }
    assert (Hne : fst qj <> fst p).
    { intros E. rewrite map_cons in Hpre. inversion Hpre as [|? ? Hni _].
      apply Hni. rewrite map_app, <- E. apply in_or_app. right. now left. }
    unfold div.
    destruct (Qc_eq_dec (fst qj - fst p) 0) as [E0|_];
      [exfalso; revert E0; now apply Qc_sub_ne|].
    cbn [rbind].
    assert (Hstep : (ddf (firstn (S j0) Q) - G j0) / (fst qj - fst p) = G (S j0)).
    { subst G. cbv beta. rewrite (firstn_S_nth _ _ _ Hq). cbn [firstn].
      rewrite (ddf_rec qj p (firstn j0 Q) Hpre).
      now rewrite <- (firstn_S_nth _ _ _ Hq). }
    rewrite Hstep.
    replace ((map G (seq 0 j0) ++ [G j0]) ++ [G (S j0)])
      with (map G (seq 0 (S (S j0))))
      by (now rewrite (seq_S (S j0)), map_app, seq_S, map_app).
    apply IH. lia.
Qed.

Lemma nth_error_combine {A B} (l : list A) (l' : list B) i a b :
  nth_error l i = Some a -> nth_error l' i = Some b ->
  nth_error (combine l l') i = Some (a, b).
Proof.
  revert l' i. induction l as [|a0 l IH]; intros [|b0 l'] [|i] Ha Hb;
    simpl in *; try discriminate; [congruence|]. now apply IH.
Qed.

Lemma nth_error_combine_inv {A B} (l : list A) (l' : list B) i p :
  nth_error (combine l l') i = Some p ->
  nth_error l i = Some (fst p) /\ nth_error l' i = Some (snd p).
Proof.
  revert l' i. induction l as [|a0 l IH]; intros [|b0 l'] [|i] H;
    simpl in *; try discriminate.
  - injection H as <-. now split.
  - now apply IH.
Qed.

Lemma rq_S pts n p :
  nth_error pts n = Some p -> rq (S n) pts = p :: rq n pts.
Proof.
  intros H. unfold rq. rewrite (firstn_S_nth _ _ _ H), rev_app_distr.
  reflexivity.
Qed.

Lemma length_rq pts n : (n <= length pts)%nat -> length (rq n pts) = n.
Proof. intros H. unfold rq. rewrite length_rev, length_firstn. lia. Qed.

Lemma nth_error_rq pts n j qj :
  (n <= length pts)%nat ->
  nth_error (rq n pts) j = Some qj -> nth_error pts (n - 1 - j) = Some qj /\ (j < n)%nat.
Proof.
  intros Hn H. unfold rq in H.
  assert (Hj : (j < n)%nat).
  { assert (Hl := proj1 (nth_error_Some (rev (firstn n pts)) j)).
    rewrite length_rev, length_firstn in Hl.
    assert (nth_error (rev (firstn n pts)) j <> None) by congruence.
    specialize (Hl H0). lia. }
  split; [|assumption].
  rewrite nth_error_rev, length_firstn in H.
  destruct (Nat.ltb_spec j (Init.Nat.min n (length pts))) as [_|Hge]; [|lia].
  replace (Init.Nat.min n (length pts) - S j)%nat with (n - 1 - j)%nat in H by lia.
  rewrite nth_error_firstn in H.
  destruct (Nat.ltb_spec (n - 1 - j) n); [assumption|lia].
Qed.

Lemma map_fst_rq xs ys n :
  length ys = length xs ->
  map fst (rq n (combine xs ys)) = rev (firstn n xs).
Proof.
  intros H. unfold rq. rewrite map_rev, <- firstn_map.
  now rewrite map_fst_combine.
Qed.

Lemma ddf_single p : ddf [p] = snd p.
Proof.
  unfold ddf, bw. cbn [map fst]. rewrite others_cons_eq. cbn [others filter].
  rewrite wden_nil, sum_cons, sum_nil. field. discriminate.
Qed.

(** One more row of the table. *)
Lemma next_row xs ys n p :
  length ys = length xs -> NoDup xs ->
  nth_error (combine xs ys) n = Some p ->
  foldM (Newton.row_step xs (Z.of_nat n))
        (enumerate (row_spec (combine xs ys) n)) [snd p]
  = Ok (row_spec (combine xs ys) (S n)).
Proof.
  intros Hl Hnd Hp. set (pts := combine xs ys) in *.
  assert (Hn : (n < length pts)%nat) by (apply nth_error_Some; congruence).
  assert (Hlp : length pts = length xs)
    by (subst pts; rewrite length_combine; lia).
  unfold enumerate, range, row_spec. rewrite length_map, length_seq.
  rewrite (rq_S _ _ _ Hp).
  destruct (nth_error_combine_inv _ _ _ _ Hp) as [Hx Hy].
  rewrite <- (ddf_single p).
  apply (row_fold_ok xs n (rq n pts) p) with (m := n) (j0 := O).
  - apply length_rq. lia.
  - rewrite <- (rq_S _ _ _ Hp). subst pts. rewrite map_fst_rq by assumption.
    apply NoDup_rev. now apply NoDup_firstn.
  - now apply list_getitem_nat.
  - intros j qj Hq. apply nth_error_rq in Hq; [|lia]. destruct Hq as [Hq Hj].
    replace (Z.of_nat n - 1 - Z.of_nat j)%Z with (Z.of_nat (n - 1 - j)) by lia.
    apply list_getitem_nat.
    now destruct (nth_error_combine_inv _ _ _ _ Hq).
  - reflexivity.
Qed.

Lemma row_spec_last pts n :
  (n < length pts)%nat ->
  list_getitem (row_spec pts (S n)) (-1) = Ok (ddf (rq (S n) pts)).
Proof.
  intros H. unfold row_spec. rewrite seq_S, map_app. cbn [map Nat.add].
  rewrite list_getitem_last. f_equal. f_equal.
  apply firstn_all2. rewrite length_rq; lia.
Qed.

Lemma coef_spec_S pts n :
  coef_spec pts (S n) = coef_spec pts n ++ [ddf (rq (S n) pts)].
Proof. unfold coef_spec. now rewrite seq_S, map_app. Qed.

Lemma rq_prefix pts l n :
  (n <= length pts)%nat -> rq n (pts ++ l) = rq n pts.
Proof.
  intros H. unfold rq. rewrite firstn_app.
  replace (n - length pts)%nat with O by lia. now rewrite firstn_O, app_nil_r.
Qed.

Lemma row_spec_prefix pts l n :
  (n <= length pts)%nat -> row_spec (pts ++ l) n = row_spec pts n.
Proof. intros H. unfold row_spec. now rewrite rq_prefix. Qed.

Lemma coef_spec_prefix pts l n :
  (n <= length pts)%nat -> coef_spec (pts ++ l) n = coef_spec pts n.
Proof.
  intros H. unfold coef_spec. apply map_ext_in. intros k Hk.
  apply in_seq in Hk. rewrite rq_prefix by lia. reflexivity.
Qed.

(** The table built by the outer loop of [__init__]. *)
Lemma table_ok xs ys n :
  length ys = length xs -> NoDup xs -> (n <= length xs)%nat ->
  foldM (Newton.table_step xs ys) (range n) ([], [])
  = Ok (coef_spec (combine xs ys) n, row_spec (combine xs ys) n).
Proof.
  intros Hl Hnd. induction n as [|n IH]; intros Hn; [reflexivity|].
  rewrite range_S, foldM_app, IH by lia. cbn [rbind foldM].
  unfold Newton.table_step.
  assert (Hlp : length (combine xs ys) = length xs)
    by (rewrite length_combine; lia).
  destruct (nth_error (combine xs ys) n) as [p|] eqn:Hp;
    [|apply nth_error_None in Hp; lia].
  destruct (nth_error_combine_inv _ _ _ _ Hp) as [Hx Hy].
  rewrite (list_getitem_nat _ _ _ Hy). cbn [rbind].
  rewrite (next_row _ _ _ _ Hl Hnd Hp). cbn [rbind].
  rewrite row_spec_last by lia. cbn [rbind].
  now rewrite coef_spec_S.
Qed.

Lemma Newton_init_cases points :
  ((length points < 2)%nat /\ Newton.init points = Raise Exception) \/
  ((2 <= length points)%nat /\ ~ NoDup (map fst points) /\
   Newton.init points = Raise ValueError) \/
  ((2 <= length points)%nat /\ NoDup (map fst points) /\
   Newton.init points
   = Ok (Newton.mk (map fst points) (map snd points)
                   (coef_spec points (length points))
                   (row_spec points (length points)))).
Proof.
  unfold Newton.init.
  destruct (Nat.ltb_spec (length points) 2) as [H|H].
  { left. now split. }
  right.
  destruct (Nat.eqb_spec (length (map fst points)) (len_set (map fst points)))
    as [E|E]; cbn [negb].
  - right. apply len_set_NoDup in E. split; [assumption|]. split; [assumption|].
    rewrite table_ok
      by (rewrite ?length_map; solve [reflexivity|assumption|lia]).
    cbn [rbind]. now rewrite combine_map_fst_snd.
  - left. split; [assumption|]. split; [|reflexivity].
    intros Hnd. apply E. now apply len_set_NoDup.
Qed.

(** ** Newton: [append] and the invariant *)

Lemma combine_snoc {A B} (l : list A) (l' : list B) a b :
  length l' = length l -> combine (l ++ [a]) (l' ++ [b]) = combine l l' ++ [(a, b)].
Proof.
  revert l'. induction l as [|a0 l IH]; intros [|b0 l'] H; simpl in *;
    try discriminate; [reflexivity|]. f_equal. apply IH. lia.
Qed.

Module NewtonFacts.
Import Newton NewtonInv.

(** The loop of [append] computes what the inner loop of [__init__] does. *)
Lemma newton_append_loop index l : forall s r,
  foldM (row_step (xs s) index) l (divided_diff s) = Ok r ->
  for_each l
    (fun '(j, prev) =>
       last <- load divided_diff (-1) ;;
       xa <- load xs (index - 1 - j) ;;
       xb <- load xs index ;;
       d <- lift (div (prev - last) (xa - xb)) ;;
       modify (fun s => put_divided_diff (divided_diff s ++ [d]) s)) s
  = (Ok tt, put_divided_diff r s).
Proof.
  induction l as [|[j prev] l IH]; intros s r H.
  - simpl in H. injection H as <-. unfold ret. now destruct s.
  - cbn [foldM for_each] in *. unfold row_step at 1 in H.
    destruct (list_getitem (divided_diff s) (-1)) as [last|] eqn:E1;
      cbn [rbind] in H; [|discriminate].
    destruct (list_getitem (xs s) (index - 1 - j)) as [xa|] eqn:E2;
      cbn [rbind] in H; [|discriminate].
    destruct (list_getitem (xs s) index) as [xb|] eqn:E3;
      cbn [rbind] in H; [|discriminate].
    destruct (div (prev - last) (xa - xb)) as [d|] eqn:E4;
      cbn [rbind] in H; [|discriminate].
    erewrite bind_ok.
    2:{ erewrite bind_load by exact E1. erewrite bind_load by exact E2.
        erewrite bind_load by exact E3. rewrite E4. mstep. reflexivity. }
    rewrite (IH (put_divided_diff (divided_diff s ++ [d]) s) r H).
    reflexivity.
Qed.

Lemma newton_append_cases s p :
  wf s ->
  (exists e, check_error e /\ append p s = (Raise e, s)) \/
  (exists x y, p = PyTuple [PyFloat x; PyFloat y] /\ ~ In x (xs s) /\
     append p s
     = (Ok tt,
        mk (xs s ++ [x]) (ys s ++ [y])
           (coef_spec (combine (xs s ++ [x]) (ys s ++ [y])) (S (length (xs s))))
           (row_spec (combine (xs s ++ [x]) (ys s ++ [y])) (S (length (xs s)))))).
Proof.
  intros [Hly Hnd H2 Hcoef Hrow]. unfold append.
  destruct (not_tuple_of 2 p) eqn:Hnt.
  { left. exists TypeError. split; [exact I|reflexivity]. }
  destruct (float_pair_cases _ Hnt) as [[x [y [-> Hfp]]]|[ec [Hec Hfp]]]; mstep;
    rewrite Hfp; mstep.
  2:{ left. exists ec. split; [assumption|reflexivity]. }
  destruct (list_contains (xs s) x) eqn:Hc.
  { left. exists Exception. split; [exact I|reflexivity]. }
  apply list_contains_false in Hc.
  right. exists x, y. split; [reflexivity|]. split; [assumption|].
  cbn [xs ys coef divided_diff put_xs put_ys put_coef put_divided_diff].
  set (pts' := combine (xs s ++ [x]) (ys s ++ [y])).
  assert (Hpts' : pts' = combine (xs s) (ys s) ++ [(x, y)])
    by (subst pts'; now apply combine_snoc).
  assert (Hlp : length (combine (xs s) (ys s)) = length (xs s))
    by (rewrite length_combine; lia).
  assert (Hp : nth_error pts' (length (xs s)) = Some (x, y))
    by (rewrite Hpts', <- Hlp; apply nth_error_middle).
  assert (Hnd' : NoDup (xs s ++ [x]))
    by (apply NoDup_ins; now rewrite app_nil_r).
  assert (Hl' : length (ys s ++ [y]) = length (xs s ++ [x]))
    by (rewrite !length_app; simpl; lia).
  mstep.
  erewrite bind_load.
  2:{ cbn [ys put_ys put_xs]. apply list_getitem_nat. rewrite <- Hly. apply nth_error_middle. }
  mstep. cbn [xs ys coef divided_diff put_xs put_ys put_coef put_divided_diff].
  erewrite bind_ok.
  2:{ apply newton_append_loop.
      cbn [xs ys coef divided_diff put_xs put_ys put_coef put_divided_diff].
      rewrite Hrow, <- (row_spec_prefix _ [(x, y)]), <- Hpts' by lia.
      exact (next_row _ _ _ _ Hl' Hnd' Hp). }
  erewrite bind_load.
  2:{ cbn [divided_diff put_divided_diff]. apply row_spec_last.
      rewrite length_combine, !length_app. simpl. lia. }
  unfold modify.
  cbn [xs ys coef divided_diff put_xs put_ys put_coef put_divided_diff].
  unfold put_coef.
  cbn [xs ys coef divided_diff put_xs put_ys put_coef put_divided_diff].
  rewrite Hcoef, coef_spec_S.
  rewrite <- (coef_spec_prefix _ [(x, y)]), <- Hpts' by lia.
  reflexivity.
Qed.

Lemma newton_init_wf points s : init points = Ok s -> wf s.
Proof.
  intros H.
  destruct (Newton_init_cases points)
    as [[_ E]|[[_ [_ E]]|[H2 [Hnd E]]]]; rewrite E in H; try discriminate.
  injection H as <-. constructor; cbn [xs ys coef divided_diff];
    rewrite ?combine_map_fst_snd, ?length_map; auto.
Qed.

Lemma newton_append_wf s p s' : wf s -> append p s = (Ok tt, s') -> wf s'.
Proof.
  intros Hwf H.
  destruct (newton_append_cases s p Hwf) as [[e [_ E]]|[x [y [_ [Hni E]]]]];
    rewrite E in H; [discriminate|].
  injection H as <-. destruct Hwf as [Hly Hnd H2 _ _].
  constructor; cbn [xs ys coef divided_diff].
  - rewrite !length_app. simpl. lia.
  - apply NoDup_ins; now rewrite app_nil_r.
  - rewrite length_app. lia.
  - rewrite length_app. simpl. now rewrite Nat.add_1_r.
  - rewrite length_app. simpl. now rewrite Nat.add_1_r.
Qed.

Lemma newton_reachable_wf s : reachable s -> wf s.
Proof.
  induction 1 as [points s H|s p s' _ IH H]; eauto using newton_init_wf, newton_append_wf.
Qed.

Lemma newton_wf_init s : wf s -> init (combine (xs s) (ys s)) = Ok s.
Proof.
  intros [Hly Hnd H2 Hcoef Hrow].
  destruct (Newton_init_cases (combine (xs s) (ys s)))
    as [[H _]|[[_ [H _]]|[_ [_ E]]]].
  - rewrite length_combine in H. lia.
  - rewrite map_fst_combine in H by assumption. contradiction.
  - rewrite E, map_fst_combine, map_snd_combine by lia.
    rewrite length_combine, Hly, Nat.min_id, <- Hcoef, <- Hrow.
    now destruct s.
Qed.

End NewtonFacts.

(** ** The Lagrange form of the interpolating polynomial *)

Lemma prod_rev l : prod (rev l) = prod l.
Proof.
  induction l as [|a l IH]; [reflexivity|]. simpl.
  rewrite prod_app, prod_cons, prod_cons, prod_nil, IH. ring.
Qed.

Lemma sum_rev l : sum (rev l) = sum l.
Proof.
  induction l as [|a l IH]; [reflexivity|]. simpl.
  rewrite sum_app, sum_cons, sum_cons, sum_nil, IH. ring.
Qed.

Lemma others_rev x l : others x (rev l) = rev (others x l).
Proof.
  induction l as [|a l IH]; [reflexivity|]. simpl rev.
  rewrite others_app, IH. simpl.
  destruct (Qc_eq_dec a x); simpl; [now rewrite app_nil_r|reflexivity].
Qed.

Lemma wden_rev x l : wden x (rev l) = wden x l.
Proof. unfold wden. now rewrite map_rev, prod_rev. Qed.

Lemma bw_rev X xi : bw (rev X) xi = bw X xi.
Proof. unfold bw. now rewrite others_rev, wden_rev. Qed.

Lemma ddf_rev pts : ddf (rev pts) = ddf pts.
Proof.
  unfold ddf. rewrite map_rev, sum_rev, map_rev.
  apply sum_map_ext_in. intros p _. now rewrite bw_rev.
Qed.

Lemma wden_in x l : In x l -> wden x l = 0.
Proof.
  induction l as [|a l IH]; intros H; [contradiction|].
  rewrite wden_cons. destruct H as [->|H].
  - ring.
  - rewrite IH by assumption. ring.
Qed.

Lemma wden_split x a X :
  NoDup X -> In a X -> wden x X = (x - a) * wden x (others a X).
Proof.
  intros Hnd Hin. destruct (in_split _ _ Hin) as [l1 [l2 ->]].
  rewrite others_middle by now apply NoDup_middle.
  rewrite !wden_app, wden_cons. ring.
Qed.

Lemma sum_map_zero {A} (l : list A) : sum (map (fun _ => 0) l) = 0.
Proof.
  induction l as [|a l IH]; simpl; [reflexivity|].
  rewrite sum_cons, IH. ring.
Qed.

(** Adding a point adds one Newton term to the Lagrange form. *)
Lemma lagrange_form_snoc l p x :
  NoDup (map fst (l ++ [p])) ->
  lagrange_form (l ++ [p]) x
  = lagrange_form l x + ddf (l ++ [p]) * wden x (map fst l).
Proof.
  intros Hnd. rewrite map_app in Hnd. cbn [map] in Hnd.
  set (X := map fst l) in *. set (xp := fst p) in *.
  assert (HndX : NoDup X) by now apply NoDup_app_remove_r in Hnd.
  assert (Hxp : ~ In xp X).
  { apply NoDup_remove_2 in Hnd. now rewrite app_nil_r in Hnd. }
  assert (Hq : forall q, In q l -> fst q <> xp).
  { intros q Hq E. apply Hxp. rewrite <- E. now apply in_map. }
  assert (HinX : forall q, In q l -> In (fst q) X).
  { intros q Hin. unfold X. now apply in_map. }
  unfold lagrange_form, ddf.
  replace (map fst (l ++ [p])) with (X ++ [xp]) by (now rewrite map_app).
  fold X. rewrite !sum_map_app. cbn [map]. rewrite !sum_cons, !sum_nil.
  fold xp. rewrite (others_middle xp X []) by now rewrite app_nil_r.
  rewrite app_nil_r.
  rewrite (sum_map_ext_in
             (fun p0 => snd p0 * bw (X ++ [xp]) (fst p0)
                        * wden x (others (fst p0) (X ++ [xp])))
             (fun q => snd q * bw X (fst q) * wden x (others (fst q) X)
                       + wden x X * (snd q * bw (X ++ [xp]) (fst q)))).
  - rewrite sum_map_add, sum_map_scale. ring.
  - intros q Hin.
    rewrite (wden_split x (fst q) X) by auto.
    rewrite (bw_remove_last X xp (fst q)) by auto.
    rewrite others_app, (others_cons_ne) by (apply not_eq_sym; auto).
    cbn [others filter]. rewrite wden_app, wden_cons, wden_nil. ring.
Qed.

(** The Lagrange form takes the value of a point at its node. *)
Lemma lagrange_form_node pts i xi yi :
  NoDup (map fst pts) -> nth_error pts i = Some (xi, yi) ->
  lagrange_form pts xi = yi.
Proof.
  intros Hnd Hi. destruct (nth_error_split _ _ Hi) as [l1 [l2 [E _]]].
  set (X := map fst pts) in *.
  assert (Hin : In xi X).
  { subst X. rewrite E, map_app. apply in_or_app. right. now left. }
  assert (Hz : forall q, In q (l1 ++ l2) ->
               snd q * bw X (fst q) * wden xi (others (fst q) X) = 0).
  { intros q Hq. rewrite (wden_in xi).
    - ring.
    - apply filter_In. split; [assumption|].
      destruct (Qc_eq_dec xi (fst q)) as [Eq|_]; [|reflexivity].
      exfalso. subst X. rewrite E, map_app in Hnd. cbn [map fst] in Hnd.
      apply NoDup_middle in Hnd. apply Hnd. rewrite Eq, <- map_app.
      now apply in_map. }
  unfold lagrange_form. fold X. rewrite E at 1.
  rewrite sum_map_app. cbn [map]. rewrite sum_cons. cbn [fst snd].
  rewrite (sum_map_ext_in _ (fun _ => 0) l1)
    by (intros; apply Hz, in_or_app; now left).
  rewrite (sum_map_ext_in _ (fun _ => 0) l2)
    by (intros; apply Hz, in_or_app; now right).
  rewrite !sum_map_zero. unfold bw.
  assert (Hw : wden xi (others xi X) <> 0) by apply wden_ne0, not_in_others.
  field. assumption.
Qed.

(** ** Newton: evaluation *)

Lemma foldM_ext_in {A B} (f g : B -> A -> result B) l :
  (forall a b, In a l -> f b a = g b a) ->
  forall b, foldM f l b = foldM g l b.
Proof.
  induction l as [|a l IH]; intros H b; [reflexivity|]. simpl.
  rewrite (H a b (or_introl eq_refl)). destruct (g b a); simpl; [|reflexivity].
  apply IH. intros; apply H; now right.
Qed.

Lemma foldM_map {A B C} (f : B -> A -> result B) (g : C -> A) l b :
  foldM f (map g l) b = foldM (fun b c => f b (g c)) l b.
Proof.
  revert b. induction l as [|c l IH]; intros b; [reflexivity|]. simpl.
  destruct (f b (g c)); simpl; [apply IH|reflexivity].
Qed.

Lemma range_down_rev n :
  Newton.range_down (Z.of_nat n - 1) (-1) = rev (range n).
Proof.
  unfold Newton.range_down.
  replace (Z.to_nat (Z.of_nat n - 1 - -1)) with n by lia.
  induction n as [|n IH]; [reflexivity|].
  rewrite range_S, rev_app_distr. cbn [rev app].
  cbn [seq map]. f_equal; [lia|].
  rewrite <- seq_shift, map_map, <- IH.
  apply map_ext. intros k. lia.
Qed.

Lemma list_getitem_cons_S {A} (a : A) l i :
  (i < length l)%nat ->
  list_getitem (a :: l) (Z.of_nat (S i)) = list_getitem l (Z.of_nat i).
Proof.
  intros H. destruct (nth_error l i) as [b|] eqn:E;
    [|apply nth_error_None in E; lia].
  rewrite (list_getitem_nat l i b E).
  now apply list_getitem_nat.
Qed.

Lemma list_getitem_last_cons {A} (a b : A) l :
  list_getitem (a :: b :: l) (-1) = list_getitem (b :: l) (-1).
Proof.
  unfold list_getitem. rewrite !norm_index_last by (simpl; lia).
  cbn [length]. replace (S (S (length l)) - 1)%nat with (S (length l)) by lia.
  replace (S (length l) - 1)%nat with (length l) by lia. reflexivity.
Qed.

Lemma horner_fold x : forall cs xs,
  length cs = length xs -> cs <> [] ->
  (let? y0 := list_getitem cs (-1) in
   foldM (horner_step cs xs x) (rev (range (length cs - 1))) y0)
  = Ok (newton_form cs xs x).
Proof.
  induction cs as [|c cs IH]; intros xs Hl Hne; [congruence|].
  destruct xs as [|x0 xs]; [discriminate|]. simpl in Hl.
  destruct cs as [|c1 cs].
  - cbn. f_equal. ring.
  - assert (Hl' : length (c1 :: cs) = length xs) by lia.
    specialize (IH xs Hl' ltac:(discriminate)).
    rewrite list_getitem_last_cons.
    destruct (list_getitem (c1 :: cs) (-1)) as [y0|e] eqn:Ey;
      cbn [rbind] in *; [|discriminate].
    replace (length (c :: c1 :: cs) - 1)%nat with (S (length (c1 :: cs) - 1))
      by (simpl; lia).
    set (n := (length (c1 :: cs) - 1)%nat) in *.
    assert (Hn : (n < length (c1 :: cs))%nat) by (subst n; simpl; lia).
    unfold range at 1. cbn [seq map]. rewrite <- seq_shift, map_map.
    cbn [rev]. rewrite foldM_app, <- map_rev, foldM_map.
    rewrite (foldM_ext_in _ (fun y i => horner_step (c1 :: cs) xs x y (Z.of_nat i))).
    + unfold range in IH. rewrite <- map_rev in IH. rewrite foldM_map in IH.
      rewrite IH. cbn [rbind foldM]. unfold horner_step.
      change (Z.of_nat 0) with 0%Z. cbn. f_equal. ring.
    + intros i y Hi. apply in_rev, in_seq in Hi. unfold horner_step.
      rewrite !list_getitem_cons_S by lia. reflexivity.
Qed.

Lemma Newton_call_ok s x :
  length (Newton.coef s) = length (Newton.xs s) -> Newton.coef s <> [] ->
  Newton.call s x = Ok (newton_form (Newton.coef s) (Newton.xs s) x).
Proof.
  intros Hl Hne. unfold Newton.call.
  rewrite <- (horner_fold x _ _ Hl Hne).
  replace (Z.of_nat (length (Newton.xs s)) - 2)%Z
    with (Z.of_nat (length (Newton.coef s) - 1) - 1)%Z.
  - now rewrite range_down_rev.
  - destruct (Newton.coef s); [congruence|]. simpl in *. lia.
Qed.

(** ** Newton form and Lagrange form agree *)

Lemma skipn_cons_nth {A} (l : list A) k a :
  nth_error l k = Some a -> skipn k l = a :: skipn (S k) l.
Proof.
  intros H. destruct (nth_error_split _ _ H) as [l1 [l2 [-> <-]]].
  now rewrite skipn_middle, skipn_S_middle.
Qed.

Lemma nth_error_coef_spec pts n k :
  (k < n)%nat -> nth_error (coef_spec pts n) k = Some (ddf (rq (S k) pts)).
Proof.
  intros H. unfold coef_spec.
  rewrite (map_nth_error _ k (seq 0 n) (d := k)); [reflexivity|].
  rewrite (nth_error_nth' _ O) by (rewrite length_seq; lia).
  now rewrite seq_nth.
Qed.

Lemma length_coef_spec pts n : length (coef_spec pts n) = n.
Proof. unfold coef_spec. now rewrite length_map, length_seq. Qed.

(** The Newton form on the divided differences is the Lagrange form. *)
Lemma newton_lagrange_from pts x :
  NoDup (map fst pts) ->
  forall m k, (k + m = length pts)%nat ->
    wden x (firstn k (map fst pts))
    * newton_form (skipn k (coef_spec pts (length pts)))
                  (skipn k (map fst pts)) x
    = lagrange_form pts x - lagrange_form (firstn k pts) x.
Proof.
  intros Hnd. induction m as [|m IH]; intros k Hk.
  - replace k with (length pts) by lia.
    rewrite skipn_all2 by (rewrite length_coef_spec; lia).
    rewrite firstn_all. cbn [newton_form]. ring.
  - destruct (nth_error pts k) as [p|] eqn:Hp;
      [|apply nth_error_None in Hp; lia].
    assert (Hk' : (k < length pts)%nat) by lia.
    rewrite (skipn_cons_nth _ _ _ (nth_error_coef_spec pts _ k Hk')).
    rewrite (skipn_cons_nth _ _ _ (map_nth_error fst _ _ Hp)).
    cbn [newton_form].
    specialize (IH (S k) ltac:(lia)).
    rewrite (firstn_S_nth _ _ _ (map_nth_error fst _ _ Hp)) in IH.
    rewrite wden_app, wden_cons, wden_nil in IH.
    rewrite (firstn_S_nth _ _ _ Hp) in IH.
    rewrite lagrange_form_snoc in IH.
    2:{ rewrite <- (firstn_S_nth _ _ _ Hp), <- firstn_map.
        now apply NoDup_firstn. }
    unfold rq. rewrite ddf_rev, (firstn_S_nth _ _ _ Hp).
    rewrite <- firstn_map in IH.
    transitivity
      (wden x (firstn k (map fst pts)) * ddf (firstn k pts ++ [p])
       + wden x (firstn k (map fst pts)) * ((x - fst p) * 1)
         * newton_form (skipn (S k) (coef_spec pts (length pts)))
                       (skipn (S k) (map fst pts)) x);
      [ring|].
    rewrite IH. ring.
Qed.

Lemma newton_lagrange pts x :
  NoDup (map fst pts) ->
  newton_form (coef_spec pts (length pts)) (map fst pts) x
  = lagrange_form pts x.
Proof.
  intros Hnd.
  pose proof (newton_lagrange_from pts x Hnd (length pts) O eq_refl) as H.
  cbn [firstn skipn] in H. rewrite wden_nil in H.
  unfold lagrange_form at 2 in H. cbn [map] in H. rewrite sum_nil in H.
  rewrite <- (Qcmult_1_l (newton_form _ _ _)), H. ring.
Qed.

Lemma combine3_map (f : Qc -> Qc) (X ys : list Qc) :
  combine (combine (map f X) X) ys
  = map (fun p => (f (fst p), fst p, snd p)) (combine X ys).
Proof.
  revert ys. induction X as [|a X IH]; intros [|y ys]; simpl; try reflexivity.
  now rewrite IH.
Qed.

Lemma Newton_call_value s x :
  NewtonInv.wf s ->
  Newton.call s x
  = Ok (lagrange_form (combine (Newton.xs s) (Newton.ys s)) x).
Proof.
  intros [Hly Hnd H2 Hcoef Hrow].
  assert (Hlc : length (Newton.coef s) = length (Newton.xs s))
    by (rewrite Hcoef; apply length_coef_spec).
  rewrite Newton_call_ok; [|assumption|].
  2:{ intros E. rewrite E in Hlc. simpl in Hlc. lia. }
  rewrite Hcoef. f_equal.
  rewrite <- (newton_lagrange (combine (Newton.xs s) (Newton.ys s)))
    by now rewrite map_fst_combine.
  rewrite length_combine, Hly, Nat.min_id.
  now rewrite map_fst_combine.
Qed.

Lemma Lagrange_call_node s i x y :
  NoDup (Lagrange.xs s) ->
  nth_error (Lagrange.xs s) i = Some x -> nth_error (Lagrange.ys s) i = Some y ->
  Lagrange.call s x = Ok y.
Proof.
  intros Hnd Hx Hy. unfold Lagrange.call, list_index.
  rewrite (find_index_nodup _ _ _ Hnd Hx). now apply list_getitem_nat.
Qed.

Lemma Lagrange_call_value s x :
  LagrangeInv.wf s -> ~ In x (Lagrange.xs s) ->
  Lagrange.call s x
  = Ok (lagrange_form (combine (Lagrange.xs s) (Lagrange.ys s)) x).
Proof.
  intros [Hly Hnd H2 Hws] Hni. unfold Lagrange.call, list_index.
  rewrite (proj2 (find_index_none _ _) Hni).
  rewrite Hws. unfold weights. rewrite combine3_map.
  set (X := Lagrange.xs s) in *. set (pts := combine X (Lagrange.ys s)).
  assert (HX : map fst pts = X) by (now apply map_fst_combine).
  rewrite mapM_ok
    with (g := fun '(wi, xi, yi) => wi / (x - xi) * yi).
  - cbn [rbind]. f_equal. fold (wden x X).
    rewrite map_map. rewrite <- sum_map_scale. unfold lagrange_form.
    apply sum_map_ext_in. intros p Hp. rewrite HX.
    assert (Hin : In (fst p) X) by (rewrite <- HX; now apply in_map).
    rewrite (wden_split x (fst p) X Hnd Hin). fold (bw X (fst p)).
    field. apply Qc_sub_ne. intros ->. contradiction.
  - intros [[wi xi] yi] Hin. apply in_map_iff in Hin.
    destruct Hin as [p [[= <- <- <-] Hp]].
    unfold div. destruct (Qc_eq_dec (x - fst p) 0) as [E|_]; [|reflexivity].
    exfalso. revert E. apply Qc_sub_ne. intros ->. apply Hni.
    rewrite <- HX. now apply in_map.
Qed.

(** ** Ascending lists *)

Lemma SS_app_iff (l1 l2 : list Qc) :
  StronglySorted Qclt (l1 ++ l2) <->
  StronglySorted Qclt l1 /\ StronglySorted Qclt l2 /\
  (forall a b, In a l1 -> In b l2 -> a < b).
Proof.
  induction l1 as [|c l1 IH]; simpl.
  - split.
    + intros H. repeat split; [constructor|assumption|tauto].
    + tauto.
  - split.
    + intros H. inversion H as [|? ? Hs Hf]; subst.
      apply IH in Hs. destruct Hs as [H1 [H2 H3]].
      rewrite Forall_app in Hf. destruct Hf as [Hf1 Hf2].
      repeat split; [now constructor|assumption|].
      intros a b [<-|Ha] Hb; [|now apply H3].
      rewrite Forall_forall in Hf2. now apply Hf2.
    + intros [H1 [H2 H3]]. inversion H1 as [|? ? Hs Hf]; subst.
      constructor.
      * apply IH. repeat split; try assumption. intros; apply H3; auto.
      * rewrite Forall_app. split; [assumption|].
        rewrite Forall_forall. intros b Hb. apply H3; auto.
Qed.

Lemma SS_nth (l : list Qc) :
  StronglySorted Qclt l ->
  forall i j, (i < j)%nat -> (j < length l)%nat -> nth i l 0 < nth j l 0.
Proof.
  induction 1 as [|a l Hs IH Hf]; intros i j Hij Hj; simpl in Hj; [lia|].
  destruct j as [|j]; [lia|]. destruct i as [|i]; simpl.
  - rewrite Forall_forall in Hf. apply Hf, nth_In. lia.
  - apply IH; lia.
Qed.

Lemma SS_nth_le (l : list Qc) :
  StronglySorted Qclt l ->
  forall i j, (i <= j)%nat -> (j < length l)%nat -> nth i l 0 <= nth j l 0.
Proof.
  intros Hs i j Hij Hj. destruct (Nat.eq_dec i j) as [->|Hne].
  - apply Qcle_refl.
  - apply Qclt_le_weak, SS_nth; try assumption. lia.
Qed.

Lemma SS_NoDup (l : list Qc) : StronglySorted Qclt l -> NoDup l.
Proof.
  induction 1 as [|a l Hs IH Hf]; constructor; [|assumption].
  intros Hin. rewrite Forall_forall in Hf. specialize (Hf a Hin).
  revert Hf. apply Qcle_not_lt, Qcle_refl.
Qed.

Lemma In_firstn_nth (l : list Qc) r a :
  In a (firstn r l) ->
  exists i, (i < r)%nat /\ (i < length l)%nat /\ nth i l 0 = a.
Proof.
  intros H. destruct (In_nth _ _ 0 H) as [i [Hi E]].
  rewrite length_firstn in Hi. exists i. repeat split; try lia.
  rewrite <- E, nth_firstn.
  destruct (Nat.ltb_spec i r); [reflexivity|lia].
Qed.

Lemma In_skipn_nth (l : list Qc) r a :
  In a (skipn r l) ->
  exists i, (r <= i)%nat /\ (i < length l)%nat /\ nth i l 0 = a.
Proof.
  intros H. destruct (In_nth _ _ 0 H) as [i [Hi E]].
  rewrite length_skipn in Hi. exists (r + i)%nat. repeat split; try lia.
  now rewrite <- E, nth_skipn.
Qed.

(** ** Binary search *)

Section Bisect.
Variable a : list Qc.
Variable x : Qc.
Hypothesis Hs : StronglySorted Qclt a.

Lemma bisect_left_loop_spec : forall fuel lo hi,
  (lo <= hi <= length a)%nat -> (hi - lo <= fuel)%nat ->
  (forall i, (i < lo)%nat -> nth i a 0 < x) ->
  (forall i, (hi <= i < length a)%nat -> x <= nth i a 0) ->
  let r := bisect_left_loop fuel a x lo hi in
  (r <= length a)%nat /\
  (forall i, (i < r)%nat -> nth i a 0 < x) /\
  (forall i, (r <= i < length a)%nat -> x <= nth i a 0).
Proof.
  induction fuel as [|fuel IH]; intros lo hi Hb Hf Hlo Hhi; cbn [bisect_left_loop].
  - assert (lo = hi) by lia. subst hi. repeat split; [lia|assumption|assumption].
  - destruct (Nat.ltb_spec lo hi) as [Hlt|Hge].
    + assert (Hmid : (lo <= (lo + hi) / 2 < hi)%nat).
      { split; [apply Nat.div_le_lower_bound|apply Nat.Div0.div_lt_upper_bound]; lia. }
      destruct (Qclt_le_dec (nth ((lo + hi) / 2) a 0) x) as [Hc|Hc].
      * apply IH; try lia; try assumption.
        intros i Hi. apply Qcle_lt_trans with (nth ((lo + hi) / 2) a 0);
          [|assumption].
        apply SS_nth_le; try assumption; lia.
      * apply IH; try lia; try assumption.
        intros i Hi. apply Qcle_trans with (nth ((lo + hi) / 2) a 0);
          [assumption|].
        apply SS_nth_le; try assumption; lia.
    + assert (lo = hi) by lia. subst hi.
      repeat split; [lia|assumption|assumption].
Qed.

Lemma bisect_left_spec :
  (bisect_left a x <= length a)%nat /\
  (forall i, (i < bisect_left a x)%nat -> nth i a 0 < x) /\
  (forall i, (bisect_left a x <= i < length a)%nat -> x <= nth i a 0).
Proof. apply bisect_left_loop_spec; try lia; intros; lia. Qed.

Lemma bisect_left_eq r :
  (r <= length a)%nat ->
  (forall i, (i < r)%nat -> nth i a 0 < x) ->
  (forall i, (r <= i < length a)%nat -> x <= nth i a 0) ->
  bisect_left a x = r.
Proof.
  intros Hr H1 H2. destruct bisect_left_spec as [Hb [B1 B2]].
  destruct (Nat.lt_trichotomy (bisect_left a x) r) as [Hlt|[E|Hgt]];
    [|assumption|].
  - exfalso. apply (Qclt_not_le _ _ (H1 _ Hlt)). apply B2. lia.
  - exfalso. apply (Qclt_not_le _ _ (B1 _ Hgt)). apply H2. lia.
Qed.

Lemma bisect_right_loop_spec : forall fuel lo hi,
  (lo <= hi <= length a)%nat -> (hi - lo <= fuel)%nat ->
  (forall i, (i < lo)%nat -> nth i a 0 <= x) ->
  (forall i, (hi <= i < length a)%nat -> x < nth i a 0) ->
  let r := bisect_right_loop fuel a x lo hi in
  (r <= length a)%nat /\
  (forall i, (i < r)%nat -> nth i a 0 <= x) /\
  (forall i, (r <= i < length a)%nat -> x < nth i a 0).
Proof.
  induction fuel as [|fuel IH]; intros lo hi Hb Hf Hlo Hhi; cbn [bisect_right_loop].
  - assert (lo = hi) by lia. subst hi. repeat split; [lia|assumption|assumption].
  - destruct (Nat.ltb_spec lo hi) as [Hlt|Hge].
    + assert (Hmid : (lo <= (lo + hi) / 2 < hi)%nat).
      { split; [apply Nat.div_le_lower_bound|apply Nat.Div0.div_lt_upper_bound]; lia. }
      destruct (Qclt_le_dec x (nth ((lo + hi) / 2) a 0)) as [Hc|Hc].
      * apply IH; try lia; try assumption.
        intros i Hi. apply Qclt_le_trans with (nth ((lo + hi) / 2) a 0);
          [assumption|].
        apply SS_nth_le; try assumption; lia.
      * apply IH; try lia; try assumption.
        intros i Hi. apply Qcle_trans with (nth ((lo + hi) / 2) a 0);
          [|assumption].
        apply SS_nth_le; try assumption; lia.
    + assert (lo = hi) by lia. subst hi.
      repeat split; [lia|assumption|assumption].
Qed.

Lemma bisect_right_spec :
  (bisect_right a x <= length a)%nat /\
  (forall i, (i < bisect_right a x)%nat -> nth i a 0 <= x) /\
  (forall i, (bisect_right a x <= i < length a)%nat -> x < nth i a 0).
Proof. apply bisect_right_loop_spec; try lia; intros; lia. Qed.

(** Inserting a new node where [bisect] says keeps the list ascending. *)
Lemma insort_sorted :
  ~ In x a -> StronglySorted Qclt (ins (bisect_right a x) x a).
Proof.
  intros Hni. destruct bisect_right_spec as [Hb [B1 B2]].
  set (r := bisect_right a x) in *. unfold ins.
  pose proof Hs as Hs'. rewrite <- (firstn_skipn r a) in Hs'.
  apply SS_app_iff in Hs'. destruct Hs' as [S1 [S2 S3]].
  apply SS_app_iff. split; [assumption|]. split.
  - constructor; [assumption|]. rewrite Forall_forall. intros b Hb'.
    destruct (In_skipn_nth _ _ _ Hb') as [i [Hi [Hl <-]]]. apply B2. lia.
  - intros c b Hc [<-|Hb'].
    + destruct (In_firstn_nth _ _ _ Hc) as [i [Hi [Hl E]]].
      destruct (Qcle_lt_or_eq _ _ (B1 i Hi)) as [Hlt|Heq].
      * now rewrite <- E.
      * exfalso. apply Hni. rewrite <- Heq. now apply nth_In.
    + now apply S3.
Qed.

End Bisect.

Lemma bisect_left_node a i :
  StronglySorted Qclt a -> (i < length a)%nat -> bisect_left a (nth i a 0) = i.
Proof.
  intros Hs Hi. apply bisect_left_eq; try assumption; try lia.
  - intros k Hk. apply SS_nth; assumption.
  - intros k Hk. apply SS_nth_le; try assumption; lia.
Qed.

Lemma bisect_left_below a x :
  StronglySorted Qclt a -> (forall b, In b a -> x <= b) -> bisect_left a x = O.
Proof.
  intros Hs H. apply bisect_left_eq; try assumption; try lia.
  intros i Hi. apply H, nth_In. lia.
Qed.

Lemma bisect_left_above a x :
  StronglySorted Qclt a -> (forall b, In b a -> b < x) ->
  bisect_left a x = length a.
Proof.
  intros Hs H. apply bisect_left_eq; try assumption; try lia.
  intros i Hi. apply H, nth_In. lia.
Qed.

(** ** [sorted] *)

Section SortedFacts.
Context {A : Type}.
Variable key : A -> Qc.

Lemma insert_stable_perm a l : Permutation (insert_stable key a l) (a :: l).
Proof.
  induction l as [|b l IH]; simpl; [reflexivity|].
  destruct (Qclt_le_dec (key b) (key a)); [|reflexivity].
  rewrite IH. apply perm_swap.
Qed.

Lemma sorted_perm l : Permutation (sorted key l) l.
Proof.
  induction l as [|a l IH]; simpl; [reflexivity|].
  rewrite insert_stable_perm. now constructor.
Qed.

Lemma insert_stable_SS a l :
  StronglySorted Qclt (map key l) -> ~ In (key a) (map key l) ->
  StronglySorted Qclt (map key (insert_stable key a l)).
Proof.
  induction l as [|b l IH]; intros Hs Hni; simpl.
  - repeat constructor.
  - inversion Hs as [|? ? Hs' Hf]; subst.
    destruct (Qclt_le_dec (key b) (key a)) as [Hlt|Hle]; simpl.
    + constructor.
      * apply IH; [assumption|]. intros H. apply Hni. now right.
      * rewrite Forall_forall in *. intros c Hc.
        apply in_map_iff in Hc. destruct Hc as [d [<- Hd]].
        apply (Permutation_in _ (insert_stable_perm a l)) in Hd.
        destruct Hd as [<-|Hd]; [assumption|].
        apply Hf. now apply in_map.
    + assert (Hab : key a < key b).
      { destruct (Qcle_lt_or_eq _ _ Hle) as [H|H]; [assumption|].
        exfalso. apply Hni. left. now symmetry. }
      constructor; [assumption|]. constructor; [assumption|].
      rewrite Forall_forall in *. intros c Hc.
      apply Qclt_trans with (key b); auto.
Qed.

Lemma sorted_SS l :
  NoDup (map key l) -> StronglySorted Qclt (map key (sorted key l)).
Proof.
  induction l as [|a l IH]; intros Hnd; simpl; [constructor|].
  inversion Hnd as [|? ? Hni Hnd']; subst.
  apply insert_stable_SS; [now apply IH|].
  intros H. apply Hni.
  apply (Permutation_in _ (Permutation_map key (sorted_perm l))). assumption.
Qed.

Lemma length_sorted l : length (sorted key l) = length l.
Proof. apply Permutation_length, sorted_perm. Qed.
End SortedFacts.

Lemma SS_cut k (l : list Qc) :
  StronglySorted Qclt l -> StronglySorted Qclt (cut k l).
Proof.
  intros H. unfold cut. rewrite <- (firstn_skipn k l) in H.
  apply SS_app_iff in H. destruct H as [H1 [H2 H3]].
  apply SS_app_iff. split; [assumption|].
  assert (Hsk : forall b, In b (skipn (S k) l) -> In b (skipn k l)).
  { intros b Hb. destruct (skipn k l) as [|c l'] eqn:E.
    - assert (Hl : (length l <= k)%nat).
      { apply (f_equal (@length Qc)) in E. rewrite length_skipn in E.
        simpl in E. lia. }
      rewrite skipn_all2 in Hb by lia. contradiction.
    - replace (skipn (S k) l) with l' in Hb; [now right|].
      change (S k) with (1 + k)%nat. now rewrite <- skipn_skipn, E. }
  split.
  - destruct (skipn k l) as [|c l'] eqn:E.
    + assert (Hl : (length l <= k)%nat).
      { apply (f_equal (@length Qc)) in E. rewrite length_skipn in E.
        simpl in E. lia. }
      rewrite skipn_all2 by lia. constructor.
    + replace (skipn (S k) l) with l';
        [now inversion H2|].
      change (S k) with (1 + k)%nat. now rewrite <- skipn_skipn, E.
  - intros a b Ha Hb. apply H3; auto.
Qed.

Module LinearFacts.
Import MutableSet Linear LinearInv.

Lemma linear_init_wf points s :
  NoDup (map fst points) -> init points = Ok s -> wf s.
Proof.
  intros Hnd. unfold init, MutableSet.init.
  destruct (Nat.ltb_spec (length (map fst (sorted fst points))) 1) as [H|H];
    [discriminate|].
  intros [= <-]. constructor; cbn [xs ys].
  - now apply sorted_SS.
  - now rewrite !length_map.
  - assumption.
Qed.

Lemma linear_add_cases s p :
  wf s ->
  (exists e, check_error e /\ add p s = (Raise e, s)) \/
  (exists x y, p = PyTuple [PyFloat x; PyFloat y] /\ ~ In x (xs s) /\
     add p s
     = (Ok tt, mk (ins (bisect_right (xs s) x) x (xs s))
                  (ins (bisect_right (xs s) x) y (ys s)))).
Proof.
  intros [Hs Hl H1]. unfold add.
  destruct (not_tuple_of 2 p) eqn:Hnt.
  { left. exists TypeError. split; [exact I|reflexivity]. }
  destruct (float_pair_cases _ Hnt) as [[x [y [-> Hfp]]]|[ec [Hec Hfp]]]; mstep;
    rewrite Hfp; mstep.
  2:{ left. exists ec. split; [assumption|reflexivity]. }
  destruct (list_contains (xs s) x) eqn:Hc.
  { left. exists Exception. split; [exact I|reflexivity]. }
  apply list_contains_false in Hc.
  right. exists x, y. split; [reflexivity|]. split; [assumption|].
  mstep. unfold modify. cbn [xs ys put_xs put_ys].
  destruct (bisect_right_spec (xs s) x Hs) as [Hb _].
  unfold insort. rewrite !list_insert_nat by lia. reflexivity.
Qed.

Lemma linear_discard_cases s x :
  wf s ->
  (~ In x (xs s) /\ discard x s = (Ok tt, s)) \/
  (In x (xs s) /\ (length (xs s) <= 1)%nat /\
   discard x s = (Raise Exception, s)) \/
  ((1 < length (xs s))%nat /\
   exists k, nth_error (xs s) k = Some x /\
     discard x s = (Ok tt, mk (cut k (xs s)) (cut k (ys s)))).
Proof.
  intros [Hs Hl H1]. unfold discard. mstep.
  destruct (list_contains (xs s) x) eqn:Hc.
  2:{ left. apply list_contains_false in Hc. now split. }
  apply list_contains_In in Hc. right. mstep.
  destruct (Nat.leb_spec (length (xs s)) 1) as [HN|HN].
  { left. repeat split; try assumption; reflexivity. }
  right. split; [assumption|].
  destruct (find_index (xs s) x) as [k|] eqn:Hk;
    [|apply find_index_none in Hk; contradiction].
  pose proof (find_index_some _ _ _ Hk) as Hx.
  assert (Hkl : (k < length (xs s))%nat) by (apply nth_error_Some; congruence).
  exists k. split; [assumption|].
  mstep. unfold list_index. rewrite Hk. mstep.
  erewrite bind_delete by (now apply list_delitem_nat).
  unfold delete. cbn [xs ys put_xs put_ys].
  rewrite list_delitem_nat by lia. reflexivity.
Qed.

Lemma linear_run_wf s o s' : wf s -> run o s = (Ok tt, s') -> wf s'.
Proof.
  intros Hwf H. pose proof Hwf as [Hs Hl H1]. destruct o as [p|x]; simpl in H.
  - destruct (linear_add_cases s p Hwf) as [[e [_ E]]|[x [y [_ [Hni E]]]]];
      rewrite E in H; [discriminate|].
    injection H as <-. constructor; cbn [xs ys].
    + now apply insort_sorted.
    + rewrite !length_ins. lia.
    + rewrite length_ins. lia.
  - destruct (linear_discard_cases s x Hwf)
      as [[_ E]|[[_ [_ E]]|[HN [k [Hk E]]]]]; rewrite E in H; try discriminate.
    + now injection H as <-.
    + injection H as <-.
      assert (Hkl : (k < length (xs s))%nat) by (apply nth_error_Some; congruence).
      constructor; cbn [xs ys].
      * now apply SS_cut.
      * rewrite !length_cut; lia.
      * rewrite length_cut; lia.
Qed.

Lemma linear_reachable_wf s : reachable s -> wf s.
Proof.
  induction 1 as [points s Hnd H|s o s' _ IH H]; eauto using linear_init_wf, linear_run_wf.
Qed.

End LinearFacts.

(** ** Linear: evaluation *)

Lemma Zeqb_false_of (a b : Z) : a <> b -> (a =? b)%Z = false.
Proof. apply Z.eqb_neq. Qed.

Module LinearCall.
Import MutableSet Linear LinearInv.

Lemma linear_call_first s x y0 :
  wf s -> nth_error (ys s) 0 = Some y0 -> bisect_left (xs s) x = O ->
  call s x = Ok y0.
Proof.
  intros _ Hy Hb. unfold call. rewrite Hb. cbn [Z.of_nat Z.sub Z.add Z.opp Z.eqb Pos.eqb].
  now apply (list_getitem_nat _ 0).
Qed.

Lemma linear_call_last s x yl :
  wf s -> nth_error (ys s) (length (xs s) - 1) = Some yl ->
  bisect_left (xs s) x = length (xs s) ->
  call s x = Ok yl.
Proof.
  intros [Hs Hl H1] Hy Hb. unfold call. rewrite Hb.
  rewrite Zeqb_false_of by lia. rewrite Z.eqb_refl.
  unfold list_getitem. rewrite norm_index_last by lia.
  now rewrite Hl, Hy.
Qed.

Lemma linear_call_segment s x j xL xR yL yR :
  wf s ->
  nth_error (xs s) j = Some xL -> nth_error (xs s) (S j) = Some xR ->
  nth_error (ys s) j = Some yL -> nth_error (ys s) (S j) = Some yR ->
  bisect_left (xs s) x = S j ->
  call s x = Ok ((yL - yR) / (xL - xR) * x + (yL - (yL - yR) / (xL - xR) * xL)).
Proof.
  intros [Hs Hl H1] HxL HxR HyL HyR Hb. unfold call. rewrite Hb.
  assert (HR : (S j < length (xs s))%nat) by (apply nth_error_Some; congruence).
  replace (Z.of_nat (S j) - 1)%Z with (Z.of_nat j) by lia.
  rewrite !Zeqb_false_of by lia.
  replace (Z.of_nat j + 1)%Z with (Z.of_nat (S j)) by lia.
  rewrite (list_getitem_nat _ _ _ HxL), (list_getitem_nat _ _ _ HxR),
    (list_getitem_nat _ _ _ HyL), (list_getitem_nat _ _ _ HyR).
  cbn [rbind]. unfold div.
  destruct (Qc_eq_dec (xL - xR) 0) as [E|_]; [|reflexivity].
  exfalso. revert E. apply Qc_sub_ne. intros ->.
  pose proof (SS_nth _ Hs j (S j) ltac:(lia) HR) as Hlt.
  rewrite (nth_error_nth _ _ 0 HxL), (nth_error_nth _ _ 0 HxR) in Hlt.
  revert Hlt. apply Qcle_not_lt, Qcle_refl.
Qed.

Lemma linear_call_node s i x y :
  wf s -> nth_error (xs s) i = Some x -> nth_error (ys s) i = Some y ->
  call s x = Ok y.
Proof.
  intros Hwf Hx Hy. pose proof Hwf as [Hs Hl H1].
  assert (Hi : (i < length (xs s))%nat) by (apply nth_error_Some; congruence).
  assert (Hb : bisect_left (xs s) x = i).
  { rewrite <- (nth_error_nth _ _ 0 Hx). now apply bisect_left_node. }
  destruct i as [|j].
  - now apply linear_call_first.
  - destruct (nth_error (xs s) j) as [xL|] eqn:HxL;
      [|apply nth_error_None in HxL; lia].
    destruct (nth_error (ys s) j) as [yL|] eqn:HyL;
      [|apply nth_error_None in HyL; lia].
    rewrite (linear_call_segment s x j xL x yL y Hwf HxL Hx HyL Hy Hb). f_equal.
    assert (Hne : xL - x <> 0).
    { apply Qc_sub_ne. intros ->.
      pose proof (SS_nth _ Hs j (S j) ltac:(lia) Hi) as Hlt.
      rewrite (nth_error_nth _ _ 0 HxL), (nth_error_nth _ _ 0 Hx) in Hlt.
      revert Hlt. apply Qcle_not_lt, Qcle_refl. }
    field. assumption.
Qed.

Lemma linear_call_below s x x0 y0 :
  wf s -> nth_error (xs s) 0 = Some x0 -> nth_error (ys s) 0 = Some y0 ->
  x < x0 -> call s x = Ok y0.
Proof.
  intros Hwf Hx Hy Hlt. pose proof Hwf as [Hs Hl H1].
  apply linear_call_first; try assumption.
  apply bisect_left_below; [assumption|]. intros b Hb.
  destruct (In_nth _ _ 0 Hb) as [i [Hi <-]].
  apply Qclt_le_weak. apply Qclt_le_trans with x0; [assumption|].
  rewrite <- (nth_error_nth _ _ 0 Hx). apply SS_nth_le; try assumption; lia.
Qed.

Lemma linear_call_above s x xl yl :
  wf s ->
  nth_error (xs s) (length (xs s) - 1) = Some xl ->
  nth_error (ys s) (length (xs s) - 1) = Some yl ->
  xl <= x -> call s x = Ok yl.
Proof.
  intros Hwf Hx Hy Hle. pose proof Hwf as [Hs Hl H1].
  destruct (Qcle_lt_or_eq _ _ Hle) as [Hlt|<-].
  - apply linear_call_last; try assumption.
    apply bisect_left_above; [assumption|]. intros b Hb.
    destruct (In_nth _ _ 0 Hb) as [i [Hi <-]].
    apply Qcle_lt_trans with xl; [|assumption].
    rewrite <- (nth_error_nth _ _ 0 Hx). apply SS_nth_le; try assumption; lia.
  - now apply linear_call_node with (length (xs s) - 1)%nat.
Qed.

End LinearCall.

(** ** Hermite: construction and mutation *)

Lemma map_key_zip3 xs f fp :
  length f = length xs -> length fp = length xs ->
  map (fun z : Qc * Qc * Qc => fst (fst z)) (Hermite.zip3 xs f fp) = xs.
Proof.
  intros H1 H2. unfold Hermite.zip3.
  rewrite <- (map_map fst fst), map_fst_combine, map_fst_combine;
    rewrite ?length_combine; try reflexivity; lia.
Qed.

Module HermiteFacts.
Import Hermite HermiteInv.

Lemma hermite_init_wf xs0 f fp s :
  NoDup xs0 -> length f = length xs0 -> length fp = length xs0 ->
  init xs0 f fp = Ok s -> wf s.
Proof.
  intros Hnd Hf Hfp. unfold init, MutableSet.init.
  destruct (Nat.ltb_spec (length xs0) 1) as [H|H]; [discriminate|].
  set (key := fun z : Qc * Qc * Qc => fst (fst z)).
  set (zipped := sorted key (zip3 xs0 f fp)).
  assert (Hlz : length zipped = length xs0).
  { unfold zipped. rewrite length_sorted. unfold zip3.
    rewrite !length_combine. lia. }
  destruct (Nat.ltb_spec (length (map key zipped)) 1) as [H'|H'];
    [rewrite length_map in H'; lia|].
  cbn [rbind]. intros [= <-]. constructor; unfold xs, ys; cbn [base fprime MutableSet.xs MutableSet.ys].
  - apply sorted_SS. fold key. unfold key at 1.
    now rewrite map_key_zip3.
  - now rewrite !length_map.
  - now rewrite !length_map.
  - assumption.
Qed.

Lemma float_triple_cases p :
  not_tuple_of 3 p = false ->
  (exists x y d, p = PyTuple [PyFloat x; PyFloat y; PyFloat d] /\
                 float_triple p = Ok (x, y, d) /\ float_pair p = Ok (x, y))
  \/ (exists e, check_error e /\ float_triple p = Raise e).
Proof.
  intros H. apply not_tuple_of_false in H. destruct H as [l [-> Hl]].
  destruct l as [|a [|b [|c [|d l]]]]; try discriminate.
  destruct a as [x| |];
    [|right; exists TypeError; split; [exact I|reflexivity]
     |right; exists ValueError; split; [exact I|reflexivity]].
  destruct b as [y| |];
    [|right; exists TypeError; split; [exact I|reflexivity]
     |right; exists ValueError; split; [exact I|reflexivity]].
  destruct c as [d| |];
    [|right; exists TypeError; split; [exact I|reflexivity]
     |right; exists ValueError; split; [exact I|reflexivity]].
  left. exists x, y, d. repeat split; reflexivity.
Qed.

Lemma hermite_add_cases s p :
  wf s ->
  (exists e, check_error e /\ add p s = (Raise e, s)) \/
  (exists x y d, p = PyTuple [PyFloat x; PyFloat y; PyFloat d] /\ ~ In x (xs s) /\
     add p s
     = (Ok tt,
        mk (MutableSet.mk (ins (bisect_right (xs s) x) x (xs s))
                          (ins (bisect_right (xs s) x) y (ys s)))
           (ins (bisect_right (xs s) x) d (fprime s)))).
Proof.
  intros [Hs Hl Hlf H1]. unfold add.
  destruct (not_tuple_of 3 p) eqn:Hnt.
  { left. exists TypeError. split; [exact I|reflexivity]. }
  destruct (float_triple_cases _ Hnt)
    as [[x [y [d [-> [Hft Hfp]]]]]|[e [He Hft]]]; mstep; rewrite Hft; mstep.
  2:{ left. exists e. split; [assumption|reflexivity]. }
  destruct (list_contains (xs s) x) eqn:Hc.
  { left. exists Exception. split; [exact I|reflexivity]. }
  apply list_contains_false in Hc.
  right. exists x, y, d. split; [reflexivity|]. split; [assumption|].
  mstep. rewrite Hfp. mstep. unfold modify.
  destruct (bisect_right_spec (xs s) x Hs) as [Hb _].
  unfold put_fprime, put_ys, put_xs, MutableSet.put_xs, MutableSet.put_ys.
  cbn [base fprime MutableSet.xs MutableSet.ys].
  unfold ys, xs in *. cbn [base fprime MutableSet.xs MutableSet.ys].
  unfold insort. rewrite !list_insert_nat by lia. reflexivity.
Qed.

Lemma hermite_discard_cases s x :
  wf s ->
  (~ In x (xs s) /\ discard x s = (Ok tt, s)) \/
  (In x (xs s) /\ (length (xs s) <= 1)%nat /\
   discard x s = (Raise Exception, s)) \/
  ((1 < length (xs s))%nat /\
   exists k, nth_error (xs s) k = Some x /\
     discard x s
     = (Ok tt, mk (MutableSet.mk (cut k (xs s)) (cut k (ys s)))
                  (cut k (fprime s)))).
Proof.
  intros [Hs Hl Hlf H1]. unfold discard. mstep.
  destruct (list_contains (xs s) x) eqn:Hc.
  2:{ left. apply list_contains_false in Hc. now split. }
  apply list_contains_In in Hc. right. mstep.
  destruct (Nat.leb_spec (length (xs s)) 1) as [HN|HN].
  { left. repeat split; try assumption; reflexivity. }
  right. split; [assumption|].
  destruct (find_index (xs s) x) as [k|] eqn:Hk;
    [|apply find_index_none in Hk; contradiction].
  pose proof (find_index_some _ _ _ Hk) as Hx.
  assert (Hkl : (k < length (xs s))%nat) by (apply nth_error_Some; congruence).
  exists k. split; [assumption|].
  mstep. unfold list_index. rewrite Hk. mstep.
  erewrite bind_delete by (now apply list_delitem_nat).
  erewrite bind_delete
    by (unfold ys, put_xs in *; cbn [base MutableSet.ys MutableSet.put_xs] in *;
        apply list_delitem_nat; lia).
  unfold delete. cbn [fprime put_xs put_ys].
  rewrite list_delitem_nat by lia. reflexivity.
Qed.

Lemma hermite_run_wf s o s' : wf s -> run o s = (Ok tt, s') -> wf s'.
Proof.
  intros Hwf H. pose proof Hwf as [Hs Hl Hlf H1]. destruct o as [p|x]; simpl in H.
  - destruct (hermite_add_cases s p Hwf) as [[e [_ E]]|[x [y [d [_ [Hni E]]]]]];
      rewrite E in H; [discriminate|].
    injection H as <-.
    constructor; unfold xs, ys in *; cbn [base fprime MutableSet.xs MutableSet.ys].
    + now apply insort_sorted.
    + rewrite !length_ins. lia.
    + rewrite !length_ins. lia.
    + rewrite length_ins. lia.
  - destruct (hermite_discard_cases s x Hwf)
      as [[_ E]|[[_ [_ E]]|[HN [k [Hk E]]]]]; rewrite E in H; try discriminate.
    + now injection H as <-.
    + injection H as <-.
      assert (Hkl : (k < length (xs s))%nat) by (apply nth_error_Some; congruence).
      constructor; unfold xs, ys in *; cbn [base fprime MutableSet.xs MutableSet.ys].
      * now apply SS_cut.
      * rewrite !length_cut; lia.
      * rewrite !length_cut; lia.
      * rewrite length_cut; lia.
Qed.

Lemma hermite_reachable_wf s : reachable s -> wf s.
Proof.
  induction 1 as [xs0 f fp s Hnd Hf Hfp H|s o s' _ IH H];
    eauto using hermite_init_wf, hermite_run_wf.
Qed.

End HermiteFacts.

(** ** Hermite: evaluation *)

Lemma hermite_segment_right xL xR fL fR fpL fpR :
  xL <> xR -> hermite_segment xL xR fL fR fpL fpR xR = fR.
Proof.
  intros H. unfold hermite_segment, six, three, two. cbn [Qcpower].
  assert (Hh : xR - xL <> 0) by (apply Qc_sub_ne; congruence).
  field. repeat split; try discriminate; assumption.
Qed.

Lemma Qcpower_ne0 (h : Qc) n : h <> 0 -> h ^ n <> 0.
Proof.
  intros H. induction n as [|n IH]; simpl; [discriminate|].
  now apply Qc_mult_ne.
Qed.

Module HermiteCall.
Import Hermite HermiteInv.

Lemma hermite_call_first s x y0 :
  wf s -> nth_error (ys s) 0 = Some y0 -> bisect_left (xs s) x = O ->
  call s x = Ok y0.
Proof.
  intros _ Hy Hb. unfold call. rewrite Hb.
  cbn [Z.of_nat Z.sub Z.add Z.opp Z.eqb Pos.eqb].
  now apply (list_getitem_nat _ 0).
Qed.

Lemma hermite_call_last s x yl :
  wf s -> nth_error (ys s) (length (xs s) - 1) = Some yl ->
  bisect_left (xs s) x = length (xs s) ->
  call s x = Ok yl.
Proof.
  intros [Hs Hl Hlf H1] Hy Hb. unfold call. rewrite Hb.
  rewrite Zeqb_false_of by lia. rewrite Z.eqb_refl.
  unfold list_getitem. rewrite norm_index_last by lia.
  now rewrite Hl, Hy.
Qed.

Lemma hermite_call_segment s x j xL xR fL fR fpL fpR :
  wf s ->
  nth_error (xs s) j = Some xL -> nth_error (xs s) (S j) = Some xR ->
  nth_error (ys s) j = Some fL -> nth_error (ys s) (S j) = Some fR ->
  nth_error (fprime s) j = Some fpL -> nth_error (fprime s) (S j) = Some fpR ->
  bisect_left (xs s) x = S j ->
  call s x = Ok (hermite_segment xL xR fL fR fpL fpR x).
Proof.
  intros [Hs Hl Hlf H1] HxL HxR HyL HyR HpL HpR Hb. unfold call. rewrite Hb.
  assert (HR : (S j < length (xs s))%nat) by (apply nth_error_Some; congruence).
  replace (Z.of_nat (S j) - 1)%Z with (Z.of_nat j) by lia.
  rewrite !Zeqb_false_of by lia.
  replace (Z.of_nat j + 1)%Z with (Z.of_nat (S j)) by lia.
  rewrite (list_getitem_nat _ _ _ HxL), (list_getitem_nat _ _ _ HxR),
    (list_getitem_nat _ _ _ HyL), (list_getitem_nat _ _ _ HyR),
    (list_getitem_nat _ _ _ HpL), (list_getitem_nat _ _ _ HpR).
  cbn [rbind].
  assert (Hh : xR - xL <> 0).
  { apply Qc_sub_ne. intros ->.
    pose proof (SS_nth _ Hs j (S j) ltac:(lia) HR) as Hlt.
    rewrite (nth_error_nth _ _ 0 HxL), (nth_error_nth _ _ 0 HxR) in Hlt.
    revert Hlt. apply Qcle_not_lt, Qcle_refl. }
  unfold div.
  destruct (Qc_eq_dec ((xR - xL) ^ 2) 0) as [E|_];
    [exfalso; revert E; now apply Qcpower_ne0|]. cbn [rbind].
  destruct (Qc_eq_dec ((xR - xL) ^ 3) 0) as [E|_];
    [exfalso; revert E; now apply Qcpower_ne0|]. cbn [rbind].
  destruct (Qc_eq_dec (xR - xL) 0) as [E|_]; [contradiction|]. cbn [rbind].
  reflexivity.
Qed.

Lemma hermite_call_node s i x y :
  wf s -> nth_error (xs s) i = Some x -> nth_error (ys s) i = Some y ->
  call s x = Ok y.
Proof.
  intros Hwf Hx Hy. pose proof Hwf as [Hs Hl Hlf H1].
  assert (Hi : (i < length (xs s))%nat) by (apply nth_error_Some; congruence).
  assert (Hb : bisect_left (xs s) x = i).
  { rewrite <- (nth_error_nth _ _ 0 Hx). now apply bisect_left_node. }
  destruct i as [|j].
  - now apply hermite_call_first.
  - destruct (nth_error (xs s) j) as [xL|] eqn:HxL;
      [|apply nth_error_None in HxL; lia].
    destruct (nth_error (ys s) j) as [fL|] eqn:HyL;
      [|apply nth_error_None in HyL; lia].
    destruct (nth_error (fprime s) j) as [fpL|] eqn:HpL;
      [|apply nth_error_None in HpL; lia].
    destruct (nth_error (fprime s) (S j)) as [fpR|] eqn:HpR;
      [|apply nth_error_None in HpR; lia].
    rewrite (hermite_call_segment s x j xL x fL y fpL fpR Hwf HxL Hx HyL Hy HpL HpR Hb).
    f_equal. apply hermite_segment_right. intros ->.
    pose proof (SS_nth _ Hs j (S j) ltac:(lia) Hi) as Hlt.
    rewrite (nth_error_nth _ _ 0 HxL), (nth_error_nth _ _ 0 Hx) in Hlt.
    revert Hlt. apply Qcle_not_lt, Qcle_refl.
Qed.

Lemma hermite_call_below s x x0 y0 :
  wf s -> nth_error (xs s) 0 = Some x0 -> nth_error (ys s) 0 = Some y0 ->
  x < x0 -> call s x = Ok y0.
Proof.
  intros Hwf Hx Hy Hlt. pose proof Hwf as [Hs Hl Hlf H1].
  apply hermite_call_first; try assumption.
  apply bisect_left_below; [assumption|]. intros b Hb.
  destruct (In_nth _ _ 0 Hb) as [i [Hi <-]].
  apply Qclt_le_weak. apply Qclt_le_trans with x0; [assumption|].
  rewrite <- (nth_error_nth _ _ 0 Hx). apply SS_nth_le; try assumption; lia.
Qed.

Lemma hermite_call_above s x xl yl :
  wf s ->
  nth_error (xs s) (length (xs s) - 1) = Some xl ->
  nth_error (ys s) (length (xs s) - 1) = Some yl ->
  xl <= x -> call s x = Ok yl.
Proof.
  intros Hwf Hx Hy Hle. pose proof Hwf as [Hs Hl Hlf H1].
  destruct (Qcle_lt_or_eq _ _ Hle) as [Hlt|<-].
  - apply hermite_call_last; try assumption.
    apply bisect_left_above; [assumption|]. intros b Hb.
    destruct (In_nth _ _ 0 Hb) as [i [Hi <-]].
    apply Qcle_lt_trans with xl; [|assumption].
    rewrite <- (nth_error_nth _ _ 0 Hx). apply SS_nth_le; try assumption; lia.
  - now apply hermite_call_node with (length (xs s) - 1)%nat.
Qed.

End HermiteCall.

(** * Mutators on a well-formed sample with a fresh x *)

Lemma float_pair_sample x y :
  float_pair (PyTuple [PyFloat x; PyFloat y]) = Ok (x, y).
Proof. reflexivity. Qed.

(** The outcome of a mutator on a well-formed sample with a fresh x: the
    cases lemmas leave one alternative. *)
Lemma lagrange_append_ok s x y :
  LagrangeInv.wf s -> ~ In x (Lagrange.xs s) ->
  Lagrange.append (PyTuple [PyFloat x; PyFloat y]) s
  = (Ok tt, Lagrange.mk (Lagrange.xs s ++ [x]) (Lagrange.ys s ++ [y])
                        (weights (Lagrange.xs s ++ [x]))).
Proof.
  intros Hwf Hni.
  destruct (LagrangeFacts.lagrange_append_cases s (PyTuple [PyFloat x; PyFloat y]) Hwf)
    as [[e [_ E]]|[x' [y' [[= <- <-] [_ E]]]]]; [|assumption].
  exfalso. destruct Hwf as [Hly Hnd H2 Hws].
  apply list_contains_false in Hni.
  unfold Lagrange.append in E. cbn [not_tuple_of length Nat.eqb negb] in E.
  revert E. mstep. rewrite float_pair_sample. mstep. rewrite Hni.
  assert (Hlw : length (Lagrange.ws s) = length (Lagrange.xs s))
    by (rewrite Hws; apply length_weights).
  apply list_contains_false in Hni.
  mstep. rewrite Hlw.
  erewrite bind_ok by (now apply LagrangeFacts.divide_weights_wf). mstep.
  cbn [Lagrange.xs Lagrange.ys Lagrange.ws Lagrange.put_ws].
  fold (wden x (Lagrange.xs s)). unfold pow_neg1.
  destruct (Qc_eq_dec (wden x (Lagrange.xs s)) 0) as [E0|_];
    [exfalso; revert E0; now apply wden_ne0|]. mstep. discriminate.
Qed.

Lemma length_mapi_from g l : forall k, length (mapi_from k g l) = length l.
Proof.
  induction l as [|w l IH]; intros k; simpl; [reflexivity|]. now rewrite IH.
Qed.

Lemma lagrange_insert_ok s k x y :
  LagrangeInv.wf s -> (k < length (Lagrange.xs s))%nat ->
  ~ In x (Lagrange.xs s) ->
  Lagrange.insert (Z.of_nat k) (PyTuple [PyFloat x; PyFloat y]) s
  = (Ok tt, Lagrange.mk (ins k x (Lagrange.xs s)) (ins k y (Lagrange.ys s))
                        (weights (ins k x (Lagrange.xs s)))).
Proof.
  intros Hwf Hk Hni.
  destruct (LagrangeFacts.lagrange_insert_cases s (Z.of_nat k)
              (PyTuple [PyFloat x; PyFloat y]) Hwf)
    as [[e [_ E]]|[x' [y' [k' [Ek [_ [[= <- <-] [_ E]]]]]]]].
  - exfalso. destruct Hwf as [Hly Hnd H2 Hws].
    unfold Lagrange.insert in E. revert E. mstep.
    destruct ((Z.of_nat k <? 0)%Z
              || (Z.of_nat (length (Lagrange.xs s)) <=? Z.of_nat k)%Z) eqn:Hg;
      [apply index_guard_true in Hg; lia|].
    rewrite float_pair_sample. mstep.
    rewrite (proj2 (list_contains_false _ _) Hni).
    erewrite bind_ok by (now apply LagrangeFacts.divide_weights_wf). mstep.
    cbn [Lagrange.xs Lagrange.ys Lagrange.ws Lagrange.put_ws].
    fold (wden x (Lagrange.xs s)). unfold pow_neg1.
    destruct (Qc_eq_dec (wden x (Lagrange.xs s)) 0) as [E0|_];
      [exfalso; revert E0; now apply wden_ne0|]. mstep. discriminate.
  - apply Nat2Z.inj in Ek. now subst k'.
Qed.

Lemma lagrange_setitem_ok s k x y :
  LagrangeInv.wf s -> (k < length (Lagrange.xs s))%nat ->
  ~ In x (cut k (Lagrange.xs s)) ->
  Lagrange.setitem (Z.of_nat k) (PyTuple [PyFloat x; PyFloat y]) s
  = (Ok tt, Lagrange.mk (upd k x (Lagrange.xs s)) (upd k y (Lagrange.ys s))
                        (weights (upd k x (Lagrange.xs s)))).
Proof.
  intros Hwf Hk Hc.
  destruct (LagrangeFacts.lagrange_setitem_cases s (Z.of_nat k)
              (PyTuple [PyFloat x; PyFloat y]) Hwf)
    as [[e [_ E]]|[x' [y' [k' [Ek [_ [[= <- <-] [_ E]]]]]]]].
  2:{ apply Nat2Z.inj in Ek. now subst k'. }
  exfalso. destruct Hwf as [Hly Hnd H2 Hws].
  assert (Hlw : length (Lagrange.ws s) = length (Lagrange.xs s))
    by (rewrite Hws; apply length_weights).
  unfold Lagrange.setitem in E. revert E. mstep.
  destruct ((Z.of_nat k <? 0)%Z
            || (Z.of_nat (length (Lagrange.xs s)) <=? Z.of_nat k)%Z) eqn:Hg;
    [apply index_guard_true in Hg; lia|].
  cbn [not_tuple_of length Nat.eqb negb].
  rewrite float_pair_sample. mstep.
  rewrite filter_enumerate by lia. rewrite Nat2Z.id.
  fold (cut k (Lagrange.xs s)).
  rewrite (proj2 (list_contains_false _ _) Hc).
  destruct (nth_error (Lagrange.xs s) k) as [xo|] eqn:Hxo;
    [|apply nth_error_None in Hxo; lia].
  destruct (nth_error_split _ _ Hxo) as [l1 [l2 [E Hl1]]].
  assert (Hcut : cut k (Lagrange.xs s) = l1 ++ l2).
  { unfold cut. rewrite E, <- Hl1. now rewrite firstn_middle, skipn_S_middle. }
  erewrite bind_ok.
  2:{ apply LagrangeFacts.replace_loop_ok; try assumption.
      intros i Hik Hi E0. apply Hc. rewrite Hcut.
      rewrite E in E0, Hi. rewrite length_app in Hi. cbn [length] in Hi.
      destruct (Nat.lt_ge_cases i (length l1)) as [Hlt|Hge].
      - rewrite app_nth1 in E0 by assumption. apply in_or_app. left.
        rewrite <- E0. now apply nth_In.
      - rewrite app_nth2 in E0 by assumption.
        destruct (i - length l1)%nat as [|j] eqn:Ej; [lia|].
        cbn [nth] in E0. apply in_or_app. right. rewrite <- E0.
        apply nth_In. lia. }
  mstep. cbn [Lagrange.xs Lagrange.put_ws].
  rewrite map_snd_sub, filter_enumerate by lia.
  rewrite Nat2Z.id. fold (cut k (Lagrange.xs s)).
  fold (wden x (cut k (Lagrange.xs s))). unfold pow_neg1.
  destruct (Qc_eq_dec (wden x (cut k (Lagrange.xs s))) 0) as [E0|_];
    [exfalso; revert E0; now apply wden_ne0|]. mstep.
  erewrite bind_store
    by (cbn [Lagrange.ws Lagrange.put_ws]; apply list_setitem_nat;
        rewrite length_mapi_from; lia).
  erewrite bind_store
    by (cbn [Lagrange.xs Lagrange.put_ws]; apply list_setitem_nat; lia).
  unfold store. cbn [Lagrange.xs Lagrange.ys Lagrange.ws Lagrange.put_ws
                       Lagrange.put_xs Lagrange.put_ys].
  rewrite list_setitem_nat by lia. discriminate.
Qed.

Lemma newton_append_ok s x y :
  NewtonInv.wf s -> ~ In x (Newton.xs s) ->
  Newton.append (PyTuple [PyFloat x; PyFloat y]) s
  = (Ok tt,
     Newton.mk (Newton.xs s ++ [x]) (Newton.ys s ++ [y])
       (coef_spec (combine (Newton.xs s ++ [x]) (Newton.ys s ++ [y]))
                  (S (length (Newton.xs s))))
       (row_spec (combine (Newton.xs s ++ [x]) (Newton.ys s ++ [y]))
                 (S (length (Newton.xs s))))).
Proof.
  intros Hwf Hni.
  destruct (NewtonFacts.newton_append_cases s (PyTuple [PyFloat x; PyFloat y]) Hwf)
    as [[e [_ E]]|[x' [y' [[= <- <-] [_ E]]]]]; [|assumption].
  exfalso. destruct Hwf as [Hly Hnd H2 Hcoef Hrow].
  unfold Newton.append in E. cbn [not_tuple_of length Nat.eqb negb] in E.
  revert E. mstep. rewrite float_pair_sample. mstep.
  rewrite (proj2 (list_contains_false _ _) Hni).
  cbn [Newton.xs Newton.ys Newton.coef Newton.divided_diff Newton.put_xs
         Newton.put_ys Newton.put_coef Newton.put_divided_diff].
  set (pts' := combine (Newton.xs s ++ [x]) (Newton.ys s ++ [y])).
  assert (Hpts' : pts' = combine (Newton.xs s) (Newton.ys s) ++ [(x, y)])
    by (subst pts'; now apply combine_snoc).
  assert (Hlp : length (combine (Newton.xs s) (Newton.ys s)) = length (Newton.xs s))
    by (rewrite length_combine; lia).
  assert (Hp : nth_error pts' (length (Newton.xs s)) = Some (x, y))
    by (rewrite Hpts', <- Hlp; apply nth_error_middle).
  assert (Hnd' : NoDup (Newton.xs s ++ [x]))
    by (apply NoDup_ins; now rewrite app_nil_r).
  assert (Hl' : length (Newton.ys s ++ [y]) = length (Newton.xs s ++ [x]))
    by (rewrite !length_app; simpl; lia).
  mstep.
  erewrite bind_load.
  2:{ cbn [Newton.ys Newton.put_ys Newton.put_xs]. apply list_getitem_nat.
      rewrite <- Hly. apply nth_error_middle. }
  mstep.
  cbn [Newton.xs Newton.ys Newton.coef Newton.divided_diff Newton.put_xs
         Newton.put_ys Newton.put_coef Newton.put_divided_diff].
  erewrite bind_ok.
  2:{ apply NewtonFacts.newton_append_loop.
      cbn [Newton.xs Newton.ys Newton.coef Newton.divided_diff Newton.put_xs
             Newton.put_ys Newton.put_coef Newton.put_divided_diff].
      rewrite Hrow, <- (row_spec_prefix _ [(x, y)]), <- Hpts' by lia.
      exact (next_row _ _ _ _ Hl' Hnd' Hp). }
  erewrite bind_load.
  2:{ cbn [Newton.divided_diff Newton.put_divided_diff]. apply row_spec_last.
      rewrite length_combine, !length_app. simpl. lia. }
  unfold modify. discriminate.
Qed.

Lemma linear_add_ok s x y :
  LinearInv.wf s -> ~ In x (MutableSet.xs s) ->
  Linear.add (PyTuple [PyFloat x; PyFloat y]) s
  = (Ok tt, MutableSet.mk (ins (bisect_right (MutableSet.xs s) x) x (MutableSet.xs s))
                          (ins (bisect_right (MutableSet.xs s) x) y (MutableSet.ys s))).
Proof.
  intros Hwf Hni.
  destruct (LinearFacts.linear_add_cases s (PyTuple [PyFloat x; PyFloat y]) Hwf)
    as [[e [_ E]]|[x' [y' [[= <- <-] [_ E]]]]]; [|assumption].
  exfalso. unfold Linear.add in E. cbn [not_tuple_of length Nat.eqb negb] in E.
  revert E. mstep. rewrite float_pair_sample. mstep.
  rewrite (proj2 (list_contains_false _ _) Hni). mstep. discriminate.
Qed.

Lemma hermite_add_ok s x y d :
  HermiteInv.wf s -> ~ In x (Hermite.xs s) ->
  Hermite.add (PyTuple [PyFloat x; PyFloat y; PyFloat d]) s
  = (Ok tt,
     Hermite.mk
       (MutableSet.mk (ins (bisect_right (Hermite.xs s) x) x (Hermite.xs s))
                      (ins (bisect_right (Hermite.xs s) x) y (Hermite.ys s)))
       (ins (bisect_right (Hermite.xs s) x) d (Hermite.fprime s))).
Proof.
  intros Hwf Hni.
  destruct (HermiteFacts.hermite_add_cases s
              (PyTuple [PyFloat x; PyFloat y; PyFloat d]) Hwf)
    as [[e [_ E]]|[x' [y' [d' [[= <- <- <-] [_ E]]]]]]; [|assumption].
  exfalso. unfold Hermite.add in E. cbn [not_tuple_of length Nat.eqb negb] in E.
  revert E. mstep.
  change (Hermite.float_triple (PyTuple [PyFloat x; PyFloat y; PyFloat d]))
    with (Ok (x, y, d)).
  mstep. rewrite (proj2 (list_contains_false _ _) Hni). mstep.
  change (float_pair (PyTuple [PyFloat x; PyFloat y; PyFloat d]))
    with (Ok (x, y)).
  mstep. discriminate.
Qed.

Lemma norm_index_neg n k :
  (k < n)%nat -> norm_index n (Z.of_nat k - Z.of_nat n) = Some k.
Proof.
  intros H. unfold norm_index.
  destruct ((0 <=? Z.of_nat k - Z.of_nat n)%Z
            && (Z.of_nat k - Z.of_nat n <? Z.of_nat n)%Z) eqn:E1.
  - apply andb_true_iff in E1. destruct E1 as [E1 _]. apply Z.leb_le in E1. lia.
  - destruct ((- Z.of_nat n <=? Z.of_nat k - Z.of_nat n)%Z
              && (Z.of_nat k - Z.of_nat n <? 0)%Z) eqn:E2.
    + f_equal. lia.
    + apply andb_false_iff in E2. destruct E2 as [E2|E2];
        [apply Z.leb_gt in E2|apply Z.ltb_ge in E2]; lia.
Qed.

Lemma norm_index_outside n index :
  (index < - Z.of_nat n \/ Z.of_nat n <= index)%Z -> norm_index n index = None.
Proof.
  intros H. destruct (norm_index n index) as [k|] eqn:E; [|reflexivity].
  apply norm_index_inv in E. lia.
Qed.

Lemma lagrange_delitem_at s index k :
  LagrangeInv.wf s -> (2 < length (Lagrange.xs s))%nat ->
  norm_index (length (Lagrange.xs s)) index = Some k ->
  Lagrange.delitem index s
  = (Ok tt, Lagrange.mk (cut k (Lagrange.xs s)) (cut k (Lagrange.ys s))
                        (weights (cut k (Lagrange.xs s)))).
Proof.
  intros Hwf HN Hn.
  destruct (LagrangeFacts.lagrange_delitem_cases s index Hwf)
    as [[H _]|[[_ [H _]]|[_ [k' [Hk E]]]]]; [lia|congruence|].
  rewrite Hn in Hk. injection Hk as <-. exact E.
Qed.

Lemma not_in_cut_nodup (l : list Qc) k a :
  NoDup l -> nth_error l k = Some a -> ~ In a (cut k l).
Proof.
  intros Hnd Hk. destruct (nth_error_split _ _ Hk) as [l1 [l2 [E Hl]]].
  unfold cut. rewrite E in Hnd |- *. subst k.
  rewrite firstn_middle, skipn_S_middle. now apply NoDup_middle.
Qed.

Lemma lagrange_state_eq s xs' ys' :
  LagrangeInv.wf s -> xs' = Lagrange.xs s -> ys' = Lagrange.ys s ->
  Lagrange.mk xs' ys' (weights xs') = s.
Proof.
  intros [_ _ _ Hws] -> ->. rewrite <- Hws. now destruct s.
Qed.

Lemma cut_combine {A B} k (l1 : list A) (l2 : list B) :
  cut k (combine l1 l2) = combine (cut k l1) (cut k l2).
Proof.
  unfold cut. revert l1 l2. induction k as [|k IH]; intros l1 l2.
  - destruct l1 as [|a l1], l2 as [|b l2]; try reflexivity.
    cbn [firstn combine app skipn]. now destruct l1.
  - destruct l1 as [|a l1], l2 as [|b l2]; try reflexivity.
    cbn [firstn combine app skipn]. f_equal. apply (IH l1 l2).
Qed.

Lemma ins_combine {A B} k (a : A) (b : B) l1 l2 :
  length l2 = length l1 ->
  ins k (a, b) (combine l1 l2) = combine (ins k a l1) (ins k b l2).
Proof.
  unfold ins. revert l1 l2. induction k as [|k IH]; intros l1 l2 H.
  - reflexivity.
  - destruct l1 as [|a1 l1], l2 as [|b1 l2]; try discriminate; try reflexivity.
    cbn [firstn skipn combine app]. f_equal. apply IH. simpl in H. lia.
Qed.

Lemma upd_combine {A B} k (a : A) (b : B) l1 l2 :
  length l2 = length l1 ->
  upd k (a, b) (combine l1 l2) = combine (upd k a l1) (upd k b l2).
Proof.
  unfold upd. revert l1 l2. induction k as [|k IH]; intros l1 l2 H.
  - destruct l1 as [|a1 l1], l2 as [|b1 l2]; try discriminate; reflexivity.
  - destruct l1 as [|a1 l1], l2 as [|b1 l2]; try discriminate; try reflexivity.
    cbn [firstn skipn combine app]. f_equal. apply IH. simpl in H. lia.
Qed.

Lemma sample_of_some p x y :
  sample_of p = Some (x, y) -> p = PyTuple [PyFloat x; PyFloat y].
Proof.
  destruct p as [a|l|l]; try discriminate.
  destruct l as [|[q| |] [|[q'| |] [|c l]]]; try discriminate.
  now intros [= <- <-].
Qed.

Lemma position_some n index k :
  position n index = Some k -> index = Z.of_nat k /\ (k < n)%nat.
Proof.
  unfold position.
  destruct ((0 <=? index)%Z && (index <? Z.of_nat n)%Z) eqn:E; [|discriminate].
  apply andb_true_iff in E. destruct E as [E1 E2].
  apply Z.leb_le in E1. apply Z.ltb_lt in E2. intros [= <-]. lia.
Qed.

(** ** One asked operation, and a run of them *)

(** An operation the spec accepts returns normally and leaves the sequence
    asked for, in a well-formed state. *)
Lemma lagrange_asked_step s o pts' :
  LagrangeInv.wf s ->
  lagrange_asked o (combine (Lagrange.xs s) (Lagrange.ys s)) = Some pts' ->
  exists s',
    Lagrange.run o s = (Ok tt, s') /\ LagrangeInv.wf s' /\
    combine (Lagrange.xs s') (Lagrange.ys s') = pts'.
Proof.
  intros Hwf H. pose proof Hwf as [Hly Hnd H2 Hws].
  assert (Hfst : map fst (combine (Lagrange.xs s) (Lagrange.ys s)) = Lagrange.xs s)
    by now apply map_fst_combine.
  assert (Hlen : length (combine (Lagrange.xs s) (Lagrange.ys s))
                 = length (Lagrange.xs s))
    by (rewrite length_combine; lia).
  assert (Hstep : forall s', Lagrange.run o s = (Ok tt, s') ->
            combine (Lagrange.xs s') (Lagrange.ys s') = pts' ->
            exists s'', Lagrange.run o s = (Ok tt, s'') /\ LagrangeInv.wf s'' /\
                        combine (Lagrange.xs s'') (Lagrange.ys s'') = pts').
  { intros s' E Hc. exists s'. split; [assumption|]. split; [|assumption].
    now apply (LagrangeReach.lagrange_run_wf s o s'). }
  destruct o as [p|index p|index|index p]; cbn [lagrange_asked] in H.
  - destruct (sample_of p) as [[x y]|] eqn:Hp; [|discriminate].
    apply sample_of_some in Hp. subst p. rewrite Hfst in H.
    destruct (list_contains (Lagrange.xs s) x) eqn:Hc; [discriminate|].
    injection H as <-. apply list_contains_false in Hc.
    eapply Hstep; [apply (lagrange_append_ok s x y Hwf Hc)|].
    cbn [Lagrange.xs Lagrange.ys]. now apply combine_snoc.
  - rewrite Hlen in H.
    destruct (position (length (Lagrange.xs s)) index) as [k|] eqn:Hk;
      [|discriminate].
    apply position_some in Hk. destruct Hk as [-> Hk].
    destruct (sample_of p) as [[x y]|] eqn:Hp; [|discriminate].
    apply sample_of_some in Hp. subst p. rewrite Hfst in H.
    destruct (list_contains (Lagrange.xs s) x) eqn:Hc; [discriminate|].
    injection H as <-. apply list_contains_false in Hc.
    eapply Hstep; [apply (lagrange_insert_ok s k x y Hwf Hk Hc)|].
    cbn [Lagrange.xs Lagrange.ys]. symmetry. now apply ins_combine.
  - rewrite Hlen in H.
    destruct (position (length (Lagrange.xs s)) index) as [k|] eqn:Hk;
      [|discriminate].
    apply position_some in Hk. destruct Hk as [-> Hk].
    destruct (Nat.leb_spec (length (Lagrange.xs s)) 2) as [|HN]; [discriminate|].
    injection H as <-.
    eapply Hstep;
      [apply (lagrange_delitem_at s (Z.of_nat k) k Hwf HN);
       now apply norm_index_nat|].
    cbn [Lagrange.xs Lagrange.ys]. symmetry. apply cut_combine.
  - rewrite Hlen in H.
    destruct (position (length (Lagrange.xs s)) index) as [k|] eqn:Hk;
      [|discriminate].
    apply position_some in Hk. destruct Hk as [-> Hk].
    destruct (sample_of p) as [[x y]|] eqn:Hp; [|discriminate].
    apply sample_of_some in Hp. subst p.
    rewrite <- cut_map, Hfst in H.
    destruct (list_contains (cut k (Lagrange.xs s)) x) eqn:Hc; [discriminate|].
    injection H as <-. apply list_contains_false in Hc.
    eapply Hstep; [apply (lagrange_setitem_ok s k x y Hwf Hk Hc)|].
    cbn [Lagrange.xs Lagrange.ys]. symmetry. now apply upd_combine.
Qed.

Lemma lagrange_asked_run ops : forall s final,
  LagrangeInv.wf s ->
  lagrange_asked_all ops (combine (Lagrange.xs s) (Lagrange.ys s)) = Some final ->
  exists s',
    lagrange_run_all ops s = (Ok tt, s') /\ LagrangeInv.wf s' /\
    combine (Lagrange.xs s') (Lagrange.ys s') = final.
Proof.
  induction ops as [|o ops IH]; intros s final Hwf H.
  - injection H as <-. exists s. now split.
  - cbn [lagrange_asked_all] in H.
    destruct (lagrange_asked o (combine (Lagrange.xs s) (Lagrange.ys s)))
      as [pts'|] eqn:Ho; [|discriminate].
    destruct (lagrange_asked_step s o pts' Hwf Ho) as [s1 [E1 [Hwf1 Hc1]]].
    rewrite <- Hc1 in H.
    destruct (IH s1 final Hwf1 H) as [s' [E' [Hwf' Hc']]].
    exists s'. split; [|now split].
    unfold lagrange_run_all. cbn [for_each]. unfold bind. rewrite E1.
    exact E'.
Qed.

Lemma newton_appended_run added : forall s,
  NewtonInv.wf s -> NoDup (Newton.xs s ++ map fst added) ->
  exists s',
    newton_append_all added s = (Ok tt, s') /\ NewtonInv.wf s' /\
    combine (Newton.xs s') (Newton.ys s')
    = combine (Newton.xs s) (Newton.ys s) ++ added.
Proof.
  induction added as [|[x y] added IH]; intros s Hwf Hnd.
  - exists s. rewrite app_nil_r. now split.
  - pose proof Hwf as [Hly _ _ _ _].
    assert (Hni : ~ In x (Newton.xs s)).
    { cbn [map fst] in Hnd. apply NoDup_remove_2 in Hnd.
      intros Hin. apply Hnd. apply in_or_app. now left. }
    pose proof (newton_append_ok s x y Hwf Hni) as E1.
    set (s1 := Newton.mk (Newton.xs s ++ [x]) (Newton.ys s ++ [y])
                 (coef_spec (combine (Newton.xs s ++ [x]) (Newton.ys s ++ [y]))
                            (S (length (Newton.xs s))))
                 (row_spec (combine (Newton.xs s ++ [x]) (Newton.ys s ++ [y]))
                           (S (length (Newton.xs s))))) in *.
    assert (Hwf1 : NewtonInv.wf s1)
      by (apply (NewtonFacts.newton_append_wf s _ s1 Hwf E1)).
    destruct (IH s1 Hwf1) as [s' [E' [Hwf' Hc']]].
    { subst s1. cbn [Newton.xs]. rewrite <- app_assoc. exact Hnd. }
    exists s'. split; [|split; [assumption|]].
    + unfold newton_append_all. cbn [for_each fst snd]. unfold bind.
      rewrite E1. exact E'.
    + rewrite Hc'. subst s1. cbn [Newton.xs Newton.ys].
      rewrite combine_snoc by assumption. now rewrite <- app_assoc.
Qed.

(** * The claims *)

Lemma Lagrange_call_total s x :
  LagrangeInv.wf s ->
  Lagrange.call s x
  = Ok (lagrange_form (combine (Lagrange.xs s) (Lagrange.ys s)) x).
Proof.
  intros Hwf. pose proof Hwf as [Hly Hnd H2 Hws].
  destruct (in_dec Qc_eq_dec x (Lagrange.xs s)) as [Hin|Hni].
  - destruct (In_nth_error _ _ Hin) as [i Hx].
    destruct (nth_error (Lagrange.ys s) i) as [y|] eqn:Hy.
    + rewrite (Lagrange_call_node s i x y Hnd Hx Hy). f_equal. symmetry.
      apply lagrange_form_node with i.
      * now rewrite map_fst_combine.
      * now apply nth_error_combine.
    + apply nth_error_None in Hy.
      assert (i < length (Lagrange.xs s))%nat
        by (apply nth_error_Some; congruence). lia.
  - now apply Lagrange_call_value.
Qed.

Lemma lagrange_after_reachable ops : forall s,
  Lagrange.reachable s -> lagrange_all_ok ops s = true ->
  Lagrange.reachable (lagrange_after ops s).
Proof.
  induction ops as [|o ops IH]; intros s Hr Hok; [assumption|].
  simpl in Hok. unfold lagrange_after. cbn [fold_left].
  destruct (Lagrange.run o s) as [[[]|e] s'] eqn:E; [|discriminate].
  apply IH; [|assumption]. now apply Lagrange.reach_step with s o.
Qed.

(** C1.  Start from a Lagrange engine constructed on at least two samples
    with pairwise distinct x, and run any finite sequence of append, insert,
    delete and replace operations that the spec accepts.  Every operation
    returns normally, the engine then holds exactly the sequence of samples
    the operations were asked to produce (the sample added at the end, put
    at the index, taken out, overwritten), and its state, weights included,
    is the state a fresh construction from that sequence returns: the
    weight stored at position [i] is [1 / prod_{j <> i} (x_i - x_j)].
    (Exact arithmetic.) *)
Theorem C1_lagrange_weights_match_fresh_construction
  (points : list (Qc * Qc)) (ops : list Lagrange.op) (final : list (Qc * Qc)) :
  (2 <= length points)%nat -> NoDup (map fst points) ->
  lagrange_asked_all ops points = Some final ->
  exists s0 s,
    Lagrange.init points = Ok s0 /\
    lagrange_run_all ops s0 = (Ok tt, s) /\
    Lagrange.xs s = map fst final /\ Lagrange.ys s = map snd final /\
    Lagrange.init final = Ok s /\
    (forall i xi,
        nth_error (map fst final) i = Some xi ->
        nth_error (Lagrange.ws s) i
        = Some (/ prod (map (fun xj => xi - xj) (cut i (map fst final))))).
Proof.
  intros H2 Hnd Hasked.
  destruct (Lagrange_init_cases points) as [[H _]|[[_ [H _]]|[_ [_ E]]]];
    [lia|contradiction|].
  pose proof (LagrangeReach.lagrange_init_wf _ _ E) as Hwf0.
  destruct (lagrange_asked_run ops _ final Hwf0) as [s [Erun [Hwf Hc]]].
  { cbn [Lagrange.xs Lagrange.ys]. now rewrite combine_map_fst_snd. }
  pose proof Hwf as [Hly Hnd' _ Hws].
  assert (Hxs : Lagrange.xs s = map fst final)
    by (rewrite <- Hc; symmetry; now apply map_fst_combine).
  eexists. exists s. split; [exact E|]. split; [exact Erun|].
  split; [exact Hxs|]. split.
  { rewrite <- Hc. symmetry. now apply map_snd_combine. }
  split.
  { rewrite <- Hc. now apply LagrangeReach.lagrange_wf_init. }
  rewrite <- Hxs. intros i xi Hi.
  rewrite Hws. unfold weights. rewrite (map_nth_error _ _ _ Hi).
  now rewrite (others_nth _ _ _ Hnd' Hi).
Qed.

Lemma C1_witness :
  exists s0 s,
    Lagrange.init scenario_A = Ok s0 /\
    lagrange_run_all lagrange_ops s0 = (Ok tt, s) /\
    Lagrange.xs s = map fst scenario_A_after /\
    Lagrange.ys s = map snd scenario_A_after /\
    Lagrange.init scenario_A_after = Ok s /\
    (forall i xi,
        nth_error (map fst scenario_A_after) i = Some xi ->
        nth_error (Lagrange.ws s) i
        = Some (/ prod (map (fun xj => xi - xj)
                            (cut i (map fst scenario_A_after))))).
Proof.
  apply (C1_lagrange_weights_match_fresh_construction
           scenario_A lagrange_ops scenario_A_after).
  - simpl. lia.
  - apply len_set_NoDup. vm_compute. reflexivity.
  - vm_compute. reflexivity.
Defined.

(** C2.  Start from a Newton engine constructed on at least two samples
    and append any finite list of further samples, all x pairwise distinct.
    Every append returns normally, the engine then holds the extended list
    of samples in append order, and its state, that is the coefficients
    and the retained last divided-difference row, is the state a fresh
    construction from the extended list returns.  (Exact arithmetic.) *)
Theorem C2_newton_append_matches_fresh_construction
  (points added : list (Qc * Qc)) :
  (2 <= length points)%nat -> NoDup (map fst (points ++ added)) ->
  exists s0 s,
    Newton.init points = Ok s0 /\
    newton_append_all added s0 = (Ok tt, s) /\
    Newton.xs s = map fst (points ++ added) /\
    Newton.ys s = map snd (points ++ added) /\
    Newton.init (points ++ added) = Ok s.
Proof.
  intros H2 Hnd.
  assert (Hnd0 : NoDup (map fst points)).
  { rewrite map_app in Hnd. now apply NoDup_app_remove_r in Hnd. }
  destruct (Newton_init_cases points) as [[H _]|[[_ [H _]]|[_ [_ E]]]];
    [lia|contradiction|].
  pose proof (NewtonFacts.newton_init_wf _ _ E) as Hwf0.
  destruct (newton_appended_run added _ Hwf0) as [s [Erun [Hwf Hc]]].
  { cbn [Newton.xs]. now rewrite <- map_app. }
  cbn [Newton.xs Newton.ys] in Hc. rewrite combine_map_fst_snd in Hc.
  pose proof Hwf as [Hly _ _ _ _].
  eexists. exists s. split; [exact E|]. split; [exact Erun|].
  rewrite <- Hc. split; [symmetry; now apply map_fst_combine|].
  split; [symmetry; now apply map_snd_combine|].
  now apply NewtonFacts.newton_wf_init.
Qed.

Lemma C2_witness :
  exists s0 s,
    Newton.init scenario_A = Ok s0 /\
    newton_append_all [(qz 3, qz 5); (qz (-1), qz 4)] s0 = (Ok tt, s) /\
    Newton.xs s = map fst (scenario_A ++ [(qz 3, qz 5); (qz (-1), qz 4)]) /\
    Newton.ys s = map snd (scenario_A ++ [(qz 3, qz 5); (qz (-1), qz 4)]) /\
    Newton.init (scenario_A ++ [(qz 3, qz 5); (qz (-1), qz 4)]) = Ok s.
Proof.
  apply (C2_newton_append_matches_fresh_construction
           scenario_A [(qz 3, qz 5); (qz (-1), qz 4)]).
  - simpl. lia.
  - apply len_set_NoDup. vm_compute. reflexivity.
Defined.

(** C3.  For every list of at least two samples with pairwise distinct x,
    both constructors succeed and the Lagrange and the Newton engine return
    the same value at every query x: the value of the Lagrange form of the
    interpolating polynomial, which passes through every sample.  (Exact
    arithmetic.) *)
Theorem C3_lagrange_and_newton_agree (points : list (Qc * Qc)) (x : Qc) :
  (2 <= length points)%nat -> NoDup (map fst points) ->
  exists sl sn,
    Lagrange.init points = Ok sl /\ Newton.init points = Ok sn /\
    Lagrange.call sl x = Ok (lagrange_form points x) /\
    Newton.call sn x = Ok (lagrange_form points x) /\
    (forall i xi yi, nth_error points i = Some (xi, yi) ->
                     lagrange_form points xi = yi).
Proof.
  intros H2 Hnd.
  destruct (Lagrange_init_cases points) as [[H _]|[[_ [H _]]|[_ [_ EL]]]];
    [lia|contradiction|].
  destruct (Newton_init_cases points) as [[H _]|[[_ [H _]]|[_ [_ EN]]]];
    [lia|contradiction|].
  eexists. eexists. split; [exact EL|]. split; [exact EN|].
  assert (HL := LagrangeReach.lagrange_init_wf _ _ EL).
  assert (HN := NewtonFacts.newton_init_wf _ _ EN).
  split; [|split].
  - rewrite (Lagrange_call_total _ x HL). cbn [Lagrange.xs Lagrange.ys].
    now rewrite combine_map_fst_snd.
  - rewrite (Newton_call_value _ x HN). cbn [Newton.xs Newton.ys].
    now rewrite combine_map_fst_snd.
  - intros i xi yi Hi. now apply lagrange_form_node with i.
Qed.

Lemma C3_witness :
  exists sl sn,
    Lagrange.init scenario_A = Ok sl /\ Newton.init scenario_A = Ok sn /\
    Lagrange.call sl (Q2Qc (3 # 2)) = Ok (lagrange_form scenario_A (Q2Qc (3 # 2))) /\
    Newton.call sn (Q2Qc (3 # 2)) = Ok (lagrange_form scenario_A (Q2Qc (3 # 2))) /\
    (forall i xi yi, nth_error scenario_A i = Some (xi, yi) ->
                     lagrange_form scenario_A xi = yi).
Proof.
  apply (C3_lagrange_and_newton_agree scenario_A (Q2Qc (3 # 2))).
  - simpl. lia.
  - apply len_set_NoDup. vm_compute. reflexivity.
Defined.

(** C4.  For every engine a caller can hold (Lagrange, Newton, linear,
    Hermite) and every sample [(x_i, y_i)] stored in it, evaluating at [x_i]
    returns [y_i].  (Exact arithmetic.) *)
Theorem C4_evaluate_at_node_returns_value (e : engine) (i : nat) (x y : Qc) :
  valid e ->
  nth_error (nodes e) i = Some x -> nth_error (values e) i = Some y ->
  evaluate e x = Ok y.
Proof.
  destruct e as [s|s|s|s]; cbn [valid nodes values evaluate]; intros Hr Hx Hy.
  - apply LagrangeReach.lagrange_reachable_wf in Hr.
    destruct Hr as [_ Hnd _ _]. now apply Lagrange_call_node with i.
  - apply NewtonFacts.newton_reachable_wf in Hr.
    rewrite (Newton_call_value _ x Hr). f_equal.
    destruct Hr as [Hly Hnd _ _ _]. apply lagrange_form_node with i.
    + now rewrite map_fst_combine.
    + now apply nth_error_combine.
  - apply LinearFacts.linear_reachable_wf in Hr.
    now apply LinearCall.linear_call_node with i.
  - apply HermiteFacts.hermite_reachable_wf in Hr.
    now apply HermiteCall.hermite_call_node with i.
Qed.

Lemma C4_witness : evaluate (ENewton newton_demo) (qz 3) = Ok (qz 5).
Proof.
  apply (C4_evaluate_at_node_returns_value (ENewton newton_demo) 3).
  - cbn [valid]. unfold newton_demo.
    eapply Newton.reach_append with (p := point (-1) 4).
    + eapply Newton.reach_append with (p := point 3 5).
      * apply Newton.reach_init with scenario_A. vm_compute. reflexivity.
      * vm_compute. reflexivity.
    + vm_compute. reflexivity.
  - vm_compute. reflexivity.
  - vm_compute. reflexivity.
Defined.

(** C5 (amended).  For every linear or Hermite engine whose nodes ascend
    strictly (at least one node): a query strictly below the first node
    returns the first value, a query strictly above the last node returns
    the last value, and with a single node every query returns that node's
    value.  A query at the last node itself returns the last value under
    exact arithmetic: with two or more nodes the code evaluates the formula
    of the last segment there. *)
Theorem C5_flat_extrapolation (e : engine) :
  ascending e ->
  (forall x x0 y0,
      nth_error (nodes e) 0 = Some x0 -> nth_error (values e) 0 = Some y0 ->
      x < x0 -> evaluate e x = Ok y0) /\
  (forall x xl yl,
      nth_error (nodes e) (length (nodes e) - 1) = Some xl ->
      nth_error (values e) (length (nodes e) - 1) = Some yl ->
      xl < x -> evaluate e x = Ok yl) /\
  (forall xl yl,
      nth_error (nodes e) (length (nodes e) - 1) = Some xl ->
      nth_error (values e) (length (nodes e) - 1) = Some yl ->
      evaluate e xl = Ok yl) /\
  (length (nodes e) = 1%nat ->
   forall x y0, nth_error (values e) 0 = Some y0 -> evaluate e x = Ok y0).
Proof.
  destruct e as [s|s|s|s]; cbn [ascending nodes values evaluate];
    intros Hwf; try contradiction.
  - split; [|split; [|split]].
    + intros x x0 y0. now apply LinearCall.linear_call_below.
    + intros x xl yl Hx Hy Hlt.
      apply LinearCall.linear_call_above with xl; try assumption.
      now apply Qclt_le_weak.
    + intros xl yl Hx Hy.
      apply LinearCall.linear_call_above with xl; try assumption.
      apply Qcle_refl.
    + intros H1 x y0 Hy.
      destruct (nth_error (MutableSet.xs s) 0) as [x0|] eqn:Hx;
        [|apply nth_error_None in Hx; lia].
      destruct (Qclt_le_dec x x0) as [Hlt|Hle].
      * now apply LinearCall.linear_call_below with x0.
      * apply LinearCall.linear_call_above with x0; rewrite ?H1; assumption.
  - split; [|split; [|split]].
    + intros x x0 y0. now apply HermiteCall.hermite_call_below.
    + intros x xl yl Hx Hy Hlt.
      apply HermiteCall.hermite_call_above with xl; try assumption.
      now apply Qclt_le_weak.
    + intros xl yl Hx Hy.
      apply HermiteCall.hermite_call_above with xl; try assumption.
      apply Qcle_refl.
    + intros H1 x y0 Hy.
      destruct (nth_error (Hermite.xs s) 0) as [x0|] eqn:Hx;
        [|apply nth_error_None in Hx; lia].
      destruct (Qclt_le_dec x x0) as [Hlt|Hle].
      * now apply HermiteCall.hermite_call_below with x0.
      * apply HermiteCall.hermite_call_above with x0; rewrite ?H1; assumption.
Qed.

Lemma linear_D_ascending : ascending (ELinear linear_D).
Proof.
  constructor.
  - repeat constructor.
  - reflexivity.
  - vm_compute. lia.
Defined.

Lemma C5_witness :
  evaluate (ELinear linear_D) (qz (-5)) = Ok (qz 0) /\
  evaluate (ELinear linear_D) (qz 15) = Ok (qz 10).
Proof.
  destruct (C5_flat_extrapolation (ELinear linear_D) linear_D_ascending)
    as [Hlow [Hhigh _]].
  split.
  - apply (Hlow (qz (-5)) (qz 0) (qz 0)); reflexivity.
  - apply (Hhigh (qz 15) (qz 10) (qz 10)); reflexivity.
Defined.

(** C5 as stated fails on binary64.  The linear engine constructed from
    [(0, 0), (49, 1)] has the last node 49 with the value 1; queried at 49,
    which is at or above the last node, it returns
    [fl(fl(1/49) * 49) = 0.9999999999999999], the number just below 1. *)
Lemma C5_counterexample :
  Binary64.Linear.init Binary64.chord_49 = Ok Binary64.linear_49 /\
  nth_error (Binary64.Linear.xs Binary64.linear_49) 0 = Some Binary64.first_node /\
  PrimFloat.ltb Binary64.first_node Binary64.last_node = true /\
  nth_error (Binary64.Linear.xs Binary64.linear_49) 1 = Some Binary64.last_node /\
  nth_error (Binary64.Linear.ys Binary64.linear_49) 1 = Some Binary64.last_value /\
  length (Binary64.Linear.xs Binary64.linear_49) = 2%nat /\
  PrimFloat.leb Binary64.last_node Binary64.last_node = true /\
  Binary64.Linear.call Binary64.linear_49 Binary64.last_node
  = Ok Binary64.below_one /\
  PrimFloat.eqb Binary64.below_one Binary64.last_value = false.
Proof. repeat split; vm_compute; reflexivity. Qed.

(** Everywhere else a colliding x is rejected: by the constructors of the
    two polynomial engines and by every mutator. *)
Lemma duplicate_x_rejected_elsewhere :
  (forall points, ~ NoDup (map fst points) ->
     exists e, Lagrange.init points = Raise e) /\
  (forall points, ~ NoDup (map fst points) ->
     exists e, Newton.init points = Raise e) /\
  (forall s x y, In x (Lagrange.xs s) ->
     Lagrange.append (PyTuple [PyFloat x; PyFloat y]) s = (Raise Exception, s)) /\
  (forall s index x y, In x (Lagrange.xs s) ->
     exists e, Lagrange.insert index (PyTuple [PyFloat x; PyFloat y]) s
               = (Raise e, s)) /\
  (forall s k x y, In x (cut k (Lagrange.xs s)) ->
     exists e, Lagrange.setitem (Z.of_nat k) (PyTuple [PyFloat x; PyFloat y]) s
               = (Raise e, s)) /\
  (forall s x y, In x (Newton.xs s) ->
     Newton.append (PyTuple [PyFloat x; PyFloat y]) s = (Raise Exception, s)) /\
  (forall s x y, In x (MutableSet.xs s) ->
     Linear.add (PyTuple [PyFloat x; PyFloat y]) s = (Raise Exception, s)) /\
  (forall s x y d, In x (Hermite.xs s) ->
     Hermite.add (PyTuple [PyFloat x; PyFloat y; PyFloat d]) s
     = (Raise Exception, s)).
Proof.
  repeat split.
  - intros points H.
    destruct (Lagrange_init_cases points) as [[_ E]|[[_ [_ E]]|[_ [Hnd _]]]];
      [eauto|eauto|contradiction].
  - intros points H.
    destruct (Newton_init_cases points) as [[_ E]|[[_ [_ E]]|[_ [Hnd _]]]];
      [eauto|eauto|contradiction].
  - intros s x y Hin. apply list_contains_In in Hin.
    unfold Lagrange.append. cbn [not_tuple_of length Nat.eqb negb].
    mstep. change (float_pair (PyTuple [PyFloat x; PyFloat y])) with (Ok (x, y)).
    mstep. now rewrite Hin.
  - intros s index x y Hin. apply list_contains_In in Hin.
    unfold Lagrange.insert. mstep.
    destruct ((index <? 0)%Z || (Z.of_nat (length (Lagrange.xs s)) <=? index)%Z);
      [now exists IndexError|].
    change (float_pair (PyTuple [PyFloat x; PyFloat y])) with (Ok (x, y)).
    mstep. rewrite Hin. now exists Exception.
  - intros s k x y Hin. apply list_contains_In in Hin.
    unfold Lagrange.setitem. mstep.
    destruct ((Z.of_nat k <? 0)%Z
              || (Z.of_nat (length (Lagrange.xs s)) <=? Z.of_nat k)%Z);
      [now exists IndexError|].
    cbn [not_tuple_of length Nat.eqb negb].
    change (float_pair (PyTuple [PyFloat x; PyFloat y])) with (Ok (x, y)).
    mstep. rewrite filter_enumerate by lia. rewrite Nat2Z.id.
    fold (cut k (Lagrange.xs s)). rewrite Hin. now exists Exception.
  - intros s x y Hin. apply list_contains_In in Hin.
    unfold Newton.append. cbn [not_tuple_of length Nat.eqb negb].
    mstep. change (float_pair (PyTuple [PyFloat x; PyFloat y])) with (Ok (x, y)).
    mstep. now rewrite Hin.
  - intros s x y Hin. apply list_contains_In in Hin.
    unfold Linear.add. cbn [not_tuple_of length Nat.eqb negb].
    mstep. change (float_pair (PyTuple [PyFloat x; PyFloat y])) with (Ok (x, y)).
    mstep. now rewrite Hin.
  - intros s x y d Hin. apply list_contains_In in Hin.
    unfold Hermite.add. cbn [not_tuple_of length Nat.eqb negb].
    mstep.
    change (Hermite.float_triple (PyTuple [PyFloat x; PyFloat y; PyFloat d]))
      with (Ok (x, y, d)).
    mstep. now rewrite Hin.
Qed.

(** C6 (the code departs from it).  The constructors of the linear and of
    the Hermite engine accept two samples with the same x: on
    [(0,0), (0,1)] each returns an engine holding the node 0 twice. *)
Theorem C6_piecewise_constructors_accept_duplicate_x :
  Linear.init [(qz 0, qz 0); (qz 0, qz 1)]
  = Ok (MutableSet.mk [qz 0; qz 0] [qz 0; qz 1]) /\
  Hermite.init [qz 0; qz 0] [qz 0; qz 1] [qz 1; qz 1]
  = Ok (Hermite.mk (MutableSet.mk [qz 0; qz 0] [qz 0; qz 1]) [qz 1; qz 1]).
Proof. split; reflexivity. Qed.

(** *** Operations that raise *)

Lemma lagrange_run_raise s o e s' :
  LagrangeInv.wf s -> Lagrange.run o s = (Raise e, s') ->
  s' = s /\ check_error e.
Proof.
  intros Hwf H. destruct o as [p|i p|i|i p]; cbn [Lagrange.run] in H.
  - destruct (LagrangeFacts.lagrange_append_cases s p Hwf)
      as [[e0 [He E]]|[x [y [_ [_ E]]]]]; rewrite E in H;
      [|discriminate]. injection H as <- <-. now split.
  - destruct (LagrangeFacts.lagrange_insert_cases s i p Hwf)
      as [[e0 [He E]]|[x [y [k [_ [_ [_ [_ E]]]]]]]]; rewrite E in H;
      [|discriminate]. injection H as <- <-. now split.
  - destruct (LagrangeFacts.lagrange_delitem_cases s i Hwf)
      as [[_ E]|[[_ [_ E]]|[_ [k [_ E]]]]]; rewrite E in H;
      try discriminate; injection H as <- <-; split;
      reflexivity || exact I.
  - destruct (LagrangeFacts.lagrange_setitem_cases s i p Hwf)
      as [[e0 [He E]]|[x [y [k [_ [_ [_ [_ E]]]]]]]]; rewrite E in H;
      [|discriminate]. injection H as <- <-. now split.
Qed.

Lemma newton_append_raise s p e s' :
  NewtonInv.wf s -> Newton.append p s = (Raise e, s') ->
  s' = s /\ check_error e.
Proof.
  intros Hwf H.
  destruct (NewtonFacts.newton_append_cases s p Hwf)
    as [[e0 [He E]]|[x [y [_ [_ E]]]]]; rewrite E in H; [|discriminate].
  injection H as <- <-. now split.
Qed.

Lemma linear_run_raise s o e s' :
  LinearInv.wf s -> Linear.run o s = (Raise e, s') ->
  s' = s /\ check_error e.
Proof.
  intros Hwf H. destruct o as [p|x]; cbn [Linear.run] in H.
  - destruct (LinearFacts.linear_add_cases s p Hwf)
      as [[e0 [He E]]|[x [y [_ [_ E]]]]]; rewrite E in H; [|discriminate].
    injection H as <- <-. now split.
  - destruct (LinearFacts.linear_discard_cases s x Hwf)
      as [[_ E]|[[_ [_ E]]|[_ [k [_ E]]]]]; rewrite E in H;
      try discriminate. injection H as <- <-. now split.
Qed.

Lemma hermite_run_raise s o e s' :
  HermiteInv.wf s -> Hermite.run o s = (Raise e, s') ->
  s' = s /\ check_error e.
Proof.
  intros Hwf H. destruct o as [p|x]; cbn [Hermite.run] in H.
  - destruct (HermiteFacts.hermite_add_cases s p Hwf)
      as [[e0 [He E]]|[x [y [d [_ [_ E]]]]]]; rewrite E in H; [|discriminate].
    injection H as <- <-. now split.
  - destruct (HermiteFacts.hermite_discard_cases s x Hwf)
      as [[_ E]|[[_ [_ E]]|[_ [k [_ E]]]]]; rewrite E in H;
      try discriminate. injection H as <- <-. now split.
Qed.

Lemma mutates_raise e ex e' :
  valid e -> mutates e (Raise ex) e' -> e' = e /\ check_error ex.
Proof.
  intros Hv Hm.
  inversion Hm as [s o r s' H|s p r s' H|s o r s' H|s o r s' H];
    subst; cbn [valid] in Hv.
  - apply LagrangeReach.lagrange_reachable_wf in Hv.
    destruct (lagrange_run_raise _ _ _ _ Hv H) as [-> Hc]. now split.
  - apply NewtonFacts.newton_reachable_wf in Hv.
    destruct (newton_append_raise _ _ _ _ Hv H) as [-> Hc]. now split.
  - apply LinearFacts.linear_reachable_wf in Hv.
    destruct (linear_run_raise _ _ _ _ Hv H) as [-> Hc]. now split.
  - apply HermiteFacts.hermite_reachable_wf in Hv.
    destruct (hermite_run_raise _ _ _ _ Hv H) as [-> Hc]. now split.
Qed.

(** C7 (amended).  On every engine a caller can hold, a mutating operation
    (with an integer index) that raises for a failed check, that is for too
    few samples, a colliding x, a malformed sample or a bad index, leaves
    the engine exactly as it was; in particular deleting from a two-sample
    Lagrange engine raises and changes nothing.  Under exact arithmetic a
    mutating operation raises for no other reason, so there every raising
    operation is atomic. *)
Theorem C7_mutations_are_atomic :
  (forall e ex e',
      valid e -> mutates e (Raise ex) e' -> check_error ex -> e' = e) /\
  (forall e ex e', valid e -> mutates e (Raise ex) e' -> check_error ex) /\
  (forall s index,
      Lagrange.reachable s -> Lagrange.len s = 2%nat ->
      Lagrange.delitem index s = (Raise Exception, s)).
Proof.
  split; [|split].
  - intros e ex e' Hv Hm _. now destruct (mutates_raise e ex e' Hv Hm).
  - intros e ex e' Hv Hm. now destruct (mutates_raise e ex e' Hv Hm).
  - intros s index Hr Hlen. unfold Lagrange.len in Hlen.
    unfold Lagrange.delitem. mstep. now rewrite Hlen.
Qed.

Lemma C7_witness :
  snd (Lagrange.delitem 0
         (snd (Lagrange.delitem 0 lagrange_A)))
  = snd (Lagrange.delitem 0 lagrange_A).
Proof.
  assert (Hr : Lagrange.reachable (snd (Lagrange.delitem 0 lagrange_A))).
  { apply Lagrange.reach_step with lagrange_A (Lagrange.Delete 0).
    - apply Lagrange.reach_init with scenario_A. vm_compute. reflexivity.
    - vm_compute. reflexivity. }
  destruct C7_mutations_are_atomic as [_ [_ Hdel]].
  rewrite (Hdel _ 0%Z Hr); reflexivity.
Defined.

(** C7 as stated fails on binary64.  The Lagrange engine constructed from
    [(0, 0), (2^-600, 1)] holds the weights [-2^600, 2^600].  Appending
    [(2^-599, 2)], a well-formed sample with a new x, first divides every
    weight in place, which leaves [inf, -inf], and then raises
    [ZeroDivisionError] at [prod(...) ** -1], because the product
    [2^-599 * 2^-600] underflows to 0.0: the operation raises and the
    weights are not what they were. *)
Lemma C7_counterexample :
  Binary64.Lagrange.init Binary64.two_close_nodes
  = Ok Binary64.lagrange_two_close /\
  Binary64.Lagrange.ws Binary64.lagrange_two_close = Binary64.weights_before /\
  Binary64.list_contains (Binary64.Lagrange.xs Binary64.lagrange_two_close)
                         Binary64.third_x = false /\
  Binary64.Lagrange.append Binary64.third_x Binary64.third_y
                           Binary64.lagrange_two_close
  = (Raise ZeroDivisionError,
     Binary64.Lagrange.mk (Binary64.Lagrange.xs Binary64.lagrange_two_close)
                          (Binary64.Lagrange.ys Binary64.lagrange_two_close)
                          Binary64.weights_after) /\
  Binary64.same_lists Binary64.weights_before Binary64.weights_after = false.
Proof. repeat split; vm_compute; reflexivity. Qed.

(** C8.  On a linear or Hermite engine whose nodes ascend strictly, after
    every [add] or [discard] that returned normally the nodes still ascend
    strictly and the values (and derivatives) are still aligned with them:
    a new sample goes into every array at one position, a discarded one
    leaves every array at one position. *)
Theorem C8_sorted_and_aligned_after_add_discard :
  (forall s o s',
      LinearInv.wf s -> Linear.run o s = (Ok tt, s') ->
      StronglySorted Qclt (MutableSet.xs s') /\
      length (MutableSet.ys s') = length (MutableSet.xs s') /\
      match o with
      | Linear.Add p =>
          exists x y k,
            p = PyTuple [PyFloat x; PyFloat y] /\
            MutableSet.xs s' = ins k x (MutableSet.xs s) /\
            MutableSet.ys s' = ins k y (MutableSet.ys s)
      | Linear.Discard x =>
          (~ In x (MutableSet.xs s) /\ s' = s) \/
          exists k,
            nth_error (MutableSet.xs s) k = Some x /\
            MutableSet.xs s' = cut k (MutableSet.xs s) /\
            MutableSet.ys s' = cut k (MutableSet.ys s)
      end) /\
  (forall s o s',
      HermiteInv.wf s -> Hermite.run o s = (Ok tt, s') ->
      StronglySorted Qclt (Hermite.xs s') /\
      length (Hermite.ys s') = length (Hermite.xs s') /\
      length (Hermite.fprime s') = length (Hermite.xs s') /\
      match o with
      | Hermite.Add p =>
          exists x y d k,
            p = PyTuple [PyFloat x; PyFloat y; PyFloat d] /\
            Hermite.xs s' = ins k x (Hermite.xs s) /\
            Hermite.ys s' = ins k y (Hermite.ys s) /\
            Hermite.fprime s' = ins k d (Hermite.fprime s)
      | Hermite.Discard x =>
          (~ In x (Hermite.xs s) /\ s' = s) \/
          exists k,
            nth_error (Hermite.xs s) k = Some x /\
            Hermite.xs s' = cut k (Hermite.xs s) /\
            Hermite.ys s' = cut k (Hermite.ys s) /\
            Hermite.fprime s' = cut k (Hermite.fprime s)
      end).
Proof.
  split.
  - intros s o s' Hwf H.
    destruct (LinearFacts.linear_run_wf s o s' Hwf H) as [Hs Hl _].
    split; [assumption|]. split; [assumption|].
    destruct o as [p|x]; cbn [Linear.run] in H.
    + destruct (LinearFacts.linear_add_cases s p Hwf)
        as [[e0 [_ E]]|[x [y [-> [_ E]]]]]; rewrite E in H; [discriminate|].
      injection H as <-. now exists x, y, (bisect_right (MutableSet.xs s) x).
    + destruct (LinearFacts.linear_discard_cases s x Hwf)
        as [[Hni E]|[[_ [_ E]]|[_ [k [Hk E]]]]]; rewrite E in H;
        try discriminate; injection H as <-.
      * left. now split.
      * right. now exists k.
  - intros s o s' Hwf H.
    destruct (HermiteFacts.hermite_run_wf s o s' Hwf H) as [Hs Hl Hlf _].
    split; [assumption|]. split; [assumption|]. split; [assumption|].
    destruct o as [p|x]; cbn [Hermite.run] in H.
    + destruct (HermiteFacts.hermite_add_cases s p Hwf)
        as [[e0 [_ E]]|[x [y [d [-> [_ E]]]]]]; rewrite E in H; [discriminate|].
      injection H as <-.
      now exists x, y, d, (bisect_right (Hermite.xs s) x).
    + destruct (HermiteFacts.hermite_discard_cases s x Hwf)
        as [[Hni E]|[[_ [_ E]]|[_ [k [Hk E]]]]]; rewrite E in H;
        try discriminate; injection H as <-.
      * left. now split.
      * right. now exists k.
Qed.

Lemma C8_witness :
  StronglySorted Qclt (MutableSet.xs linear_demo) /\
  length (MutableSet.ys linear_demo) = length (MutableSet.xs linear_demo).
Proof.
  destruct C8_sorted_and_aligned_after_add_discard as [Hlin _].
  destruct (Hlin linear_D (Linear.Add (point 3 5)) linear_demo)
    as [Hs [Hl _]].
  - exact linear_D_ascending.
  - vm_compute. reflexivity.
  - now split.
Defined.

(** The guard of [__getitem__], [__setitem__] and [insert], which
    [__delitem__] lacks; a delete still raises, without a change, when the
    index is out of range on both sides. *)
Lemma lagrange_positions_guarded s index p :
  (index < 0 \/ Z.of_nat (length (Lagrange.xs s)) <= index)%Z ->
  Lagrange.getitem s index = Raise IndexError /\
  Lagrange.insert index p s = (Raise IndexError, s) /\
  Lagrange.setitem index p s = (Raise IndexError, s).
Proof.
  intros H. apply index_guard_true in H.
  unfold Lagrange.getitem, Lagrange.insert, Lagrange.setitem. mstep.
  rewrite H. repeat split; reflexivity.
Qed.

Lemma lagrange_delitem_out_of_range s index :
  LagrangeInv.wf s ->
  (index < - Z.of_nat (length (Lagrange.xs s))
   \/ Z.of_nat (length (Lagrange.xs s)) <= index)%Z ->
  exists e, Lagrange.delitem index s = (Raise e, s).
Proof.
  intros Hwf H.
  destruct (LagrangeFacts.lagrange_delitem_cases s index Hwf)
    as [[_ E]|[[_ [_ E]]|[_ [k [Hn _]]]]]; eauto.
  apply norm_index_inv in Hn. lia.
Qed.

(** C9 (the code departs from it).  [del engine[-1]] on the three-sample
    engine of scenario A does not raise: it returns normally and removes the
    last sample, leaving the nodes [0, 1] with the values [1, 3] and the
    weights [-1, 1]. *)
Theorem C9_delete_accepts_negative_index :
  Lagrange.init scenario_A = Ok lagrange_A /\
  fst (Lagrange.delitem (-1) lagrange_A) = Ok tt /\
  Lagrange.xs (snd (Lagrange.delitem (-1) lagrange_A)) = [qz 0; qz 1] /\
  Lagrange.ys (snd (Lagrange.delitem (-1) lagrange_A)) = [qz 1; qz 3] /\
  map this (Lagrange.ws (snd (Lagrange.delitem (-1) lagrange_A)))
  = [(-1)%Q; 1%Q].
Proof. repeat split; vm_compute; reflexivity. Qed.

(** C10 (amended).  Under exact arithmetic the Lagrange engine never
    divides by zero.  Construction never raises [ZeroDivisionError]; on
    every engine a caller can hold the nodes are pairwise distinct, every
    query returns a value, away from the nodes every division
    [w_i / (x - x_i)] of the barycentric sum goes through, every stored
    weight is the reciprocal that [prod(...) ** -1] returns on the stored
    nodes, and no mutating operation raises [ZeroDivisionError]; after a
    mutating operation that returned normally the nodes are still pairwise
    distinct. *)
Theorem C10_lagrange_never_divides_by_zero :
  (forall points, Lagrange.init points <> Raise ZeroDivisionError) /\
  (forall s,
      Lagrange.reachable s ->
      NoDup (Lagrange.xs s) /\
      (forall x, exists v, Lagrange.call s x = Ok v) /\
      (forall x wi xi, ~ In x (Lagrange.xs s) -> In xi (Lagrange.xs s) ->
                       div wi (x - xi) = Ok (wi / (x - xi))) /\
      (forall i xi, nth_error (Lagrange.xs s) i = Some xi ->
         exists w, Lagrange.weight_at (Lagrange.xs s) (Z.of_nat i) xi = Ok w /\
                   nth_error (Lagrange.ws s) i = Some w) /\
      (forall o s', fst (Lagrange.run o s) <> Raise ZeroDivisionError /\
                    (Lagrange.run o s = (Ok tt, s') -> NoDup (Lagrange.xs s')))).
Proof.
  split.
  - intros points.
    destruct (Lagrange_init_cases points) as [[_ E]|[[_ [_ E]]|[_ [_ E]]]];
      rewrite E; discriminate.
  - intros s Hr. apply LagrangeReach.lagrange_reachable_wf in Hr.
    split; [now destruct Hr|]. split; [|split; [|split]].
    + intros x. eexists. now apply Lagrange_call_total.
    + intros x wi xi Hni Hin. unfold div.
      destruct (Qc_eq_dec (x - xi) 0) as [E|_]; [|reflexivity].
      exfalso. revert E. apply Qc_sub_ne. intros ->. contradiction.
    + intros i xi Hi. destruct Hr as [_ Hnd _ Hws].
      eexists. split; [now apply weight_at_ok|].
      rewrite Hws. unfold weights. now rewrite (map_nth_error _ _ _ Hi).
    + intros o s'. split.
      * destruct (Lagrange.run o s) as [[[]|e] s1] eqn:E; cbn [fst];
          [discriminate|].
        intros [= ->]. now destruct (lagrange_run_raise _ _ _ _ Hr E).
      * intros H. now destruct (LagrangeReach.lagrange_run_wf _ _ _ Hr H).
Qed.

Lemma C10_witness :
  exists v, Lagrange.call lagrange_demo (Q2Qc (3 # 2)) = Ok v.
Proof.
  destruct C10_lagrange_never_divides_by_zero as [_ H].
  destruct (H lagrange_demo) as [_ [Hcall _]].
  - apply lagrange_after_reachable.
    + apply Lagrange.reach_init with scenario_A. vm_compute. reflexivity.
    + vm_compute. reflexivity.
  - apply Hcall.
Defined.

(** C10 as stated fails on binary64.  The nodes 0, [2^-600] and [2^-599]
    are pairwise distinct, yet the product [(0 - 2^-600) * (0 - 2^-599)]
    taken for the first weight underflows to 0.0, and the constructor
    raises [ZeroDivisionError] at [prod(...) ** -1]. *)
Lemma C10_counterexample :
  Binary64.distinct (map fst Binary64.close_nodes) = true /\
  Binary64.Lagrange.init Binary64.close_nodes = Raise ZeroDivisionError.
Proof. split; vm_compute; reflexivity. Qed.

(** * Further properties of the code *)

(** X1.  The constructors of the two polynomial engines, under exact
    arithmetic: fewer than two samples raise [Exception] (checked first),
    two or more samples with a repeated x raise [ValueError], and every
    other input gives an engine holding the samples in the order given.
    (On binary64 the Lagrange constructor can also raise on pairwise
    distinct nodes, at [prod(...) ** -1].) *)
Theorem X1_polynomial_constructor_outcomes (points : list (Qc * Qc)) :
  (Lagrange.init points = Raise Exception <-> (length points < 2)%nat) /\
  (Lagrange.init points = Raise ValueError <->
   (2 <= length points)%nat /\ ~ NoDup (map fst points)) /\
  ((exists s, Lagrange.init points = Ok s /\
              Lagrange.xs s = map fst points /\ Lagrange.ys s = map snd points)
   <-> (2 <= length points)%nat /\ NoDup (map fst points)) /\
  (Newton.init points = Raise Exception <-> (length points < 2)%nat) /\
  (Newton.init points = Raise ValueError <->
   (2 <= length points)%nat /\ ~ NoDup (map fst points)) /\
  ((exists s, Newton.init points = Ok s /\
              Newton.xs s = map fst points /\ Newton.ys s = map snd points)
   <-> (2 <= length points)%nat /\ NoDup (map fst points)).
Proof.
  destruct (Lagrange_init_cases points) as [[HL EL]|[[HL [HdL EL]]|[HL [HdL EL]]]];
  destruct (Newton_init_cases points) as [[HN EN]|[[HN [HdN EN]]|[HN [HdN EN]]]];
    try lia; try contradiction; rewrite EL, EN;
    repeat split; intros; try discriminate; try lia; try tauto;
    try (match goal with H : _ /\ _ |- _ => destruct H; lia || contradiction end);
    try (match goal with H : exists _, _ |- _ => destruct H as [? [? _]]; discriminate end);
    try (eexists; repeat split; reflexivity).
Qed.

(** X2.  Size and alignment, kept by every operation: a polynomial engine
    always holds at least two samples, a piecewise engine at least one, and
    all arrays of an engine have one length. *)
Theorem X2_size_and_alignment (e : engine) :
  valid e ->
  length (values e) = length (nodes e) /\
  match e with
  | ELagrange s =>
      (2 <= Lagrange.len s)%nat /\ length (Lagrange.ws s) = Lagrange.len s
  | ENewton s =>
      (2 <= Newton.len s)%nat /\ length (Newton.coef s) = Newton.len s /\
      length (Newton.divided_diff s) = Newton.len s
  | ELinear s => (1 <= MutableSet.len s)%nat
  | EHermite s =>
      (1 <= length (Hermite.xs s))%nat /\
      length (Hermite.fprime s) = length (Hermite.xs s)
  end.
Proof.
  destruct e as [s|s|s|s]; cbn [valid values nodes]; intros Hr.
  - apply LagrangeReach.lagrange_reachable_wf in Hr.
    destruct Hr as [Hl _ H2 Hw]. unfold Lagrange.len.
    repeat split; try assumption. rewrite Hw. apply length_weights.
  - apply NewtonFacts.newton_reachable_wf in Hr.
    destruct Hr as [Hl _ H2 Hc Hd]. unfold Newton.len.
    repeat split; try assumption.
    + rewrite Hc. apply length_coef_spec.
    + rewrite Hd. unfold row_spec. now rewrite length_map, length_seq.
  - apply LinearFacts.linear_reachable_wf in Hr.
    destruct Hr as [_ Hl H1]. now split.
  - apply HermiteFacts.hermite_reachable_wf in Hr.
    destruct Hr as [_ Hl Hf H1]. now repeat split.
Qed.

Lemma lagrange_demo_reachable : Lagrange.reachable lagrange_demo.
Proof.
  apply lagrange_after_reachable.
  - apply Lagrange.reach_init with scenario_A. vm_compute. reflexivity.
  - vm_compute. reflexivity.
Defined.

Lemma X2_witness :
  length (values (ELagrange lagrange_demo)) = length (nodes (ELagrange lagrange_demo)) /\
  (2 <= Lagrange.len lagrange_demo)%nat /\
  length (Lagrange.ws lagrange_demo) = Lagrange.len lagrange_demo.
Proof.
  apply (X2_size_and_alignment (ELagrange lagrange_demo)).
  exact lagrange_demo_reachable.
Defined.

(** X3.  [__getitem__] of the three classes that define it: an index below
    0 or at or above the length raises [IndexError] (negative indices do not
    count from the end), and an index inside the range returns the sample at
    that position. *)
Theorem X3_getitem_positions :
  (forall s index,
      (index < 0 \/ Z.of_nat (Lagrange.len s) <= index)%Z ->
      Lagrange.getitem s index = Raise IndexError) /\
  (forall s k x y,
      nth_error (Lagrange.xs s) k = Some x ->
      nth_error (Lagrange.ys s) k = Some y ->
      Lagrange.getitem s (Z.of_nat k) = Ok (x, y)) /\
  (forall s index,
      (index < 0 \/ Z.of_nat (Newton.len s) <= index)%Z ->
      Newton.getitem s index = Raise IndexError) /\
  (forall s k x y,
      nth_error (Newton.xs s) k = Some x ->
      nth_error (Newton.ys s) k = Some y ->
      Newton.getitem s (Z.of_nat k) = Ok (x, y)) /\
  (forall s index,
      (index < 0 \/ Z.of_nat (MutableSet.len s) <= index)%Z ->
      MutableSet.getitem s index = Raise IndexError) /\
  (forall s k x y,
      nth_error (MutableSet.xs s) k = Some x ->
      nth_error (MutableSet.ys s) k = Some y ->
      MutableSet.getitem s (Z.of_nat k) = Ok (x, y)).
Proof.
  repeat split.
  - intros s index H. apply index_guard_true in H.
    unfold Lagrange.getitem. unfold Lagrange.len in H. now rewrite H.
  - intros s k x y Hx Hy. unfold Lagrange.getitem.
    assert (Hk : (k < length (Lagrange.xs s))%nat)
      by (apply nth_error_Some; congruence).
    destruct ((Z.of_nat k <? 0)%Z
              || (Z.of_nat (length (Lagrange.xs s)) <=? Z.of_nat k)%Z) eqn:E.
    + apply index_guard_true in E. lia.
    + now rewrite (list_getitem_nat _ _ _ Hx), (list_getitem_nat _ _ _ Hy).
  - intros s index H. apply index_guard_true in H.
    unfold Newton.getitem. unfold Newton.len in H. now rewrite H.
  - intros s k x y Hx Hy. unfold Newton.getitem.
    assert (Hk : (k < length (Newton.xs s))%nat)
      by (apply nth_error_Some; congruence).
    destruct ((Z.of_nat k <? 0)%Z
              || (Z.of_nat (length (Newton.xs s)) <=? Z.of_nat k)%Z) eqn:E.
    + apply index_guard_true in E. lia.
    + now rewrite (list_getitem_nat _ _ _ Hx), (list_getitem_nat _ _ _ Hy).
  - intros s index H. apply index_guard_true in H.
    unfold MutableSet.getitem. unfold MutableSet.len in H. now rewrite H.
  - intros s k x y Hx Hy. unfold MutableSet.getitem.
    assert (Hk : (k < length (MutableSet.xs s))%nat)
      by (apply nth_error_Some; congruence).
    destruct ((Z.of_nat k <? 0)%Z
              || (Z.of_nat (length (MutableSet.xs s)) <=? Z.of_nat k)%Z) eqn:E.
    + apply index_guard_true in E. lia.
    + now rewrite (list_getitem_nat _ _ _ Hx), (list_getitem_nat _ _ _ Hy).
Qed.

(** ** Mutators on a well-formed sample *)

Lemma newton_demo_reachable : Newton.reachable newton_demo.
Proof.
  unfold newton_demo.
  eapply Newton.reach_append with (p := point (-1) 4).
  - eapply Newton.reach_append with (p := point 3 5).
    + apply Newton.reach_init with scenario_A. vm_compute. reflexivity.
    + vm_compute. reflexivity.
  - vm_compute. reflexivity.
Defined.

Lemma float_pair_two a b :
  float_pair (PyTuple [a; b])
  = (let? x := py_float a in let? y := py_float b in Ok (x, y)).
Proof. reflexivity. Qed.

Lemma py_float_ok a x : py_float a = Ok x -> a = PyFloat x.
Proof. destruct a; simpl; intros H; try discriminate. now injection H as ->. Qed.

(** X4.  The outcome of [append] on a polynomial engine, in full.  A point
    that is not a tuple, or a tuple not of length two, raises [TypeError].
    A tuple of two with a component that [float()] refuses raises what
    [float()] raises on the first such component: [TypeError] for [None],
    [ValueError] for a string that is no number.  A tuple of two numbers
    whose x is already a node raises [Exception].  In all these cases the
    engine is left as it was.  Any other tuple of two numbers is put at the
    end of the sample sequence (exact arithmetic: on binary64 the weight
    update of the Lagrange engine can raise instead). *)
Theorem X4_append_outcomes :
  (forall s p,
      Lagrange.reachable s ->
      (not_tuple_of 2 p = true -> Lagrange.append p s = (Raise TypeError, s)) /\
      (forall a b, p = PyTuple [a; b] ->
         match py_float a, py_float b with
         | Ok x, Ok y =>
             (In x (Lagrange.xs s) ->
              Lagrange.append p s = (Raise Exception, s)) /\
             (~ In x (Lagrange.xs s) ->
              exists s', Lagrange.append p s = (Ok tt, s') /\
                         Lagrange.xs s' = Lagrange.xs s ++ [x] /\
                         Lagrange.ys s' = Lagrange.ys s ++ [y])
         | Raise e, _ | Ok _, Raise e => Lagrange.append p s = (Raise e, s)
         end)) /\
  (forall s p,
      Newton.reachable s ->
      (not_tuple_of 2 p = true -> Newton.append p s = (Raise TypeError, s)) /\
      (forall a b, p = PyTuple [a; b] ->
         match py_float a, py_float b with
         | Ok x, Ok y =>
             (In x (Newton.xs s) ->
              Newton.append p s = (Raise Exception, s)) /\
             (~ In x (Newton.xs s) ->
              exists s', Newton.append p s = (Ok tt, s') /\
                         Newton.xs s' = Newton.xs s ++ [x] /\
                         Newton.ys s' = Newton.ys s ++ [y])
         | Raise e, _ | Ok _, Raise e => Newton.append p s = (Raise e, s)
         end)).
Proof.
  split; intros s p Hr.
  - apply LagrangeReach.lagrange_reachable_wf in Hr. split.
    + intros Hp. unfold Lagrange.append. now rewrite Hp.
    + intros a b ->.
      destruct (py_float a) as [x|e] eqn:Ha;
        [destruct (py_float b) as [y|e] eqn:Hb|];
        try (unfold Lagrange.append; cbn [not_tuple_of length Nat.eqb negb];
             mstep; rewrite float_pair_two, Ha, ?Hb; reflexivity).
      apply py_float_ok in Ha, Hb. subst a b. split; intros Hx.
      * apply list_contains_In in Hx. unfold Lagrange.append.
        cbn [not_tuple_of length Nat.eqb negb]. mstep.
        rewrite float_pair_sample. mstep. now rewrite Hx.
      * eexists. split; [now apply lagrange_append_ok|]. now split.
  - apply NewtonFacts.newton_reachable_wf in Hr. split.
    + intros Hp. unfold Newton.append. now rewrite Hp.
    + intros a b ->.
      destruct (py_float a) as [x|e] eqn:Ha;
        [destruct (py_float b) as [y|e] eqn:Hb|];
        try (unfold Newton.append; cbn [not_tuple_of length Nat.eqb negb];
             mstep; rewrite float_pair_two, Ha, ?Hb; reflexivity).
      apply py_float_ok in Ha, Hb. subst a b. split; intros Hx.
      * apply list_contains_In in Hx. unfold Newton.append.
        cbn [not_tuple_of length Nat.eqb negb]. mstep.
        rewrite float_pair_sample. mstep. now rewrite Hx.
      * eexists. split; [now apply newton_append_ok|]. now split.
Qed.

Lemma X4_witness :
  Lagrange.append (PyList [PyFloat (qz 9); PyFloat (qz 9)]) lagrange_demo
  = (Raise TypeError, lagrange_demo).
Proof.
  destruct X4_append_outcomes as [HL _].
  destruct (HL lagrange_demo (PyList [PyFloat (qz 9); PyFloat (qz 9)])
              lagrange_demo_reachable) as [Hty _].
  apply Hty. reflexivity.
Defined.

Lemma float_pair_first_two x y rest :
  float_pair (PyList (PyFloat x :: PyFloat y :: rest)) = Ok (x, y) /\
  float_pair (PyTuple (PyFloat x :: PyFloat y :: rest)) = Ok (x, y).
Proof.
  pose proof (list_getitem_nat (PyFloat x :: PyFloat y :: rest) 0
                (PyFloat x) eq_refl) as H0.
  pose proof (list_getitem_nat (PyFloat x :: PyFloat y :: rest) 1
                (PyFloat y) eq_refl) as H1.
  change (Z.of_nat 0) with 0%Z in H0. change (Z.of_nat 1) with 1%Z in H1.
  unfold float_pair, py_getitem. rewrite H0, H1. now split.
Qed.

(** X5.  [insert] on a Lagrange engine: with a position inside the range
    and an x that is no node yet, the sample goes in before that position
    (the later samples move up by one) and can be read back there (exact
    arithmetic: on binary64 the weight update can raise instead).  Unlike
    [append], [insert] does not check the type of the point: it reads
    [point[0]] and [point[1]], so a list or a longer tuple that starts with
    the two numbers is taken as the pair itself, where [append] raises
    [TypeError]. *)
Theorem X5_insert_outcome (s : Lagrange.state) (k : nat) (x y : Qc) :
  Lagrange.reachable s -> (k < Lagrange.len s)%nat -> ~ In x (Lagrange.xs s) ->
  (exists s',
      Lagrange.insert (Z.of_nat k) (PyTuple [PyFloat x; PyFloat y]) s = (Ok tt, s') /\
      Lagrange.xs s' = ins k x (Lagrange.xs s) /\
      Lagrange.ys s' = ins k y (Lagrange.ys s) /\
      Lagrange.len s' = S (Lagrange.len s) /\
      Lagrange.getitem s' (Z.of_nat k) = Ok (x, y)) /\
  (forall rest,
      Lagrange.insert (Z.of_nat k) (PyList (PyFloat x :: PyFloat y :: rest)) s
      = Lagrange.insert (Z.of_nat k) (PyTuple [PyFloat x; PyFloat y]) s /\
      Lagrange.insert (Z.of_nat k) (PyTuple (PyFloat x :: PyFloat y :: rest)) s
      = Lagrange.insert (Z.of_nat k) (PyTuple [PyFloat x; PyFloat y]) s /\
      Lagrange.append (PyList (PyFloat x :: PyFloat y :: rest)) s
      = (Raise TypeError, s) /\
      (rest <> [] ->
       Lagrange.append (PyTuple (PyFloat x :: PyFloat y :: rest)) s
       = (Raise TypeError, s))).
Proof.
  intros Hr Hk Hni. apply LagrangeReach.lagrange_reachable_wf in Hr.
  unfold Lagrange.len in *. split.
  - eexists. split; [now apply lagrange_insert_ok|].
    cbn [Lagrange.xs Lagrange.ys]. repeat split.
    + apply length_ins.
    + destruct Hr as [Hly _ _ _].
      assert (Hx : nth_error (ins k x (Lagrange.xs s)) k = Some x).
      { unfold ins. rewrite nth_error_app2 by (rewrite length_firstn; lia).
        rewrite length_firstn.
        now replace (k - Init.Nat.min k (length (Lagrange.xs s)))%nat with O by lia. }
      assert (Hy : nth_error (ins k y (Lagrange.ys s)) k = Some y).
      { unfold ins. rewrite nth_error_app2 by (rewrite length_firstn; lia).
        rewrite length_firstn.
        now replace (k - Init.Nat.min k (length (Lagrange.ys s)))%nat with O by lia. }
      unfold Lagrange.getitem. cbn [Lagrange.xs Lagrange.ys].
      rewrite length_ins.
      destruct ((Z.of_nat k <? 0)%Z
                || (Z.of_nat (S (length (Lagrange.xs s))) <=? Z.of_nat k)%Z) eqn:E;
        [apply index_guard_true in E; lia|].
      now rewrite (list_getitem_nat _ _ _ Hx), (list_getitem_nat _ _ _ Hy).
  - intros rest.
    assert (Hins : forall p, float_pair p = Ok (x, y) ->
              Lagrange.insert (Z.of_nat k) p s
              = Lagrange.insert (Z.of_nat k) (PyTuple [PyFloat x; PyFloat y]) s).
    { intros p Hp. unfold Lagrange.insert. mstep.
      destruct ((Z.of_nat k <? 0)%Z
                || (Z.of_nat (length (Lagrange.xs s)) <=? Z.of_nat k)%Z);
        [reflexivity|].
      now rewrite Hp, float_pair_sample. }
    destruct (float_pair_first_two x y rest) as [HL HT].
    split; [now apply Hins|]. split; [now apply Hins|].
    split; [reflexivity|].
    intros Hrest. unfold Lagrange.append.
    destruct rest as [|c rest]; [contradiction|]. reflexivity.
Qed.

Lemma X5_witness :
  exists s',
    Lagrange.insert 2 (PyTuple [PyFloat (qz 9); PyFloat (qz 8)]) lagrange_demo
    = (Ok tt, s') /\
    Lagrange.getitem s' 2 = Ok (qz 9, qz 8).
Proof.
  destruct (X5_insert_outcome lagrange_demo 2 (qz 9) (qz 8))
    as [[s' [H1 [_ [_ [_ H2]]]]] _].
  - exact lagrange_demo_reachable.
  - vm_compute. lia.
  - apply list_contains_false. vm_compute. reflexivity.
  - exists s'. now split.
Defined.

Lemma upd_same {A} (l : list A) k a : nth_error l k = Some a -> upd k a l = l.
Proof. intros H. unfold upd. now apply firstn_skipn_middle. Qed.

Lemma nth_error_upd {A} (l : list A) k a :
  (k < length l)%nat -> nth_error (upd k a l) k = Some a.
Proof.
  intros H. unfold upd. rewrite nth_error_app2 by (rewrite length_firstn; lia).
  rewrite length_firstn.
  now replace (k - Init.Nat.min k (length l))%nat with O by lia.
Qed.

(** X6.  [__setitem__] on a Lagrange engine: with a position inside the
    range and an x that is no other node, the sample at that position is
    replaced and can be read back; the length is unchanged.  The new x may be
    the x already at that position: then nodes and weights stay as they are
    and only the value changes, and writing a sample over itself changes
    nothing. *)
Theorem X6_replace_outcome (s : Lagrange.state) (k : nat) (x y : Qc) :
  Lagrange.reachable s -> (k < Lagrange.len s)%nat ->
  ~ In x (cut k (Lagrange.xs s)) ->
  exists s',
    Lagrange.setitem (Z.of_nat k) (PyTuple [PyFloat x; PyFloat y]) s = (Ok tt, s') /\
    Lagrange.xs s' = upd k x (Lagrange.xs s) /\
    Lagrange.ys s' = upd k y (Lagrange.ys s) /\
    Lagrange.len s' = Lagrange.len s /\
    Lagrange.getitem s' (Z.of_nat k) = Ok (x, y) /\
    (nth_error (Lagrange.xs s) k = Some x ->
     Lagrange.xs s' = Lagrange.xs s /\ Lagrange.ws s' = Lagrange.ws s /\
     (nth_error (Lagrange.ys s) k = Some y -> s' = s)).
Proof.
  intros Hr Hk Hni. apply LagrangeReach.lagrange_reachable_wf in Hr.
  unfold Lagrange.len in *. pose proof Hr as [Hly Hnd H2 Hws].
  eexists. split; [now apply lagrange_setitem_ok|].
  cbn [Lagrange.xs Lagrange.ys Lagrange.ws]. repeat split.
  - now apply length_upd.
  - unfold Lagrange.getitem. cbn [Lagrange.xs Lagrange.ys].
    rewrite length_upd by assumption.
    destruct ((Z.of_nat k <? 0)%Z
              || (Z.of_nat (length (Lagrange.xs s)) <=? Z.of_nat k)%Z) eqn:E;
      [apply index_guard_true in E; lia|].
    rewrite (list_getitem_nat _ _ _ (nth_error_upd (Lagrange.xs s) k x Hk)).
    rewrite (list_getitem_nat _ _ _
               (nth_error_upd (Lagrange.ys s) k y ltac:(lia))).
    reflexivity.
  - now apply upd_same.
  - rewrite (upd_same _ _ _ H). now symmetry.
  - intros Hy. rewrite (upd_same _ _ _ H), (upd_same _ _ _ Hy), <- Hws.
    now destruct s.
Qed.

Lemma X6_witness :
  exists s',
    Lagrange.setitem 1 (PyTuple [PyFloat (qz 1); PyFloat (qz 8)]) lagrange_demo
    = (Ok tt, s') /\
    Lagrange.getitem s' 1 = Ok (qz 1, qz 8).
Proof.
  destruct (X6_replace_outcome lagrange_demo 1 (qz 1) (qz 8))
    as [s' [H1 [_ [_ [_ [H2 _]]]]]].
  - exact lagrange_demo_reachable.
  - vm_compute. lia.
  - apply list_contains_false. vm_compute. reflexivity.
  - exists s'. now split.
Defined.

(** X7.  [__delitem__] on a Lagrange engine with more than two samples
    follows list indexing: position [k] is also reached as [k - len], the
    sample there is taken out of every array, and an index beyond either end
    raises [IndexError] without a change. *)
Theorem X7_delete_follows_list_indexing (s : Lagrange.state) :
  Lagrange.reachable s -> (2 < Lagrange.len s)%nat ->
  (forall k, (k < Lagrange.len s)%nat ->
     exists s',
       Lagrange.delitem (Z.of_nat k) s = (Ok tt, s') /\
       Lagrange.delitem (Z.of_nat k - Z.of_nat (Lagrange.len s)) s = (Ok tt, s') /\
       Lagrange.xs s' = cut k (Lagrange.xs s) /\
       Lagrange.ys s' = cut k (Lagrange.ys s) /\
       Lagrange.len s' = (Lagrange.len s - 1)%nat) /\
  (forall index,
      (index < - Z.of_nat (Lagrange.len s) \/ Z.of_nat (Lagrange.len s) <= index)%Z ->
      Lagrange.delitem index s = (Raise IndexError, s)).
Proof.
  intros Hr HN. apply LagrangeReach.lagrange_reachable_wf in Hr.
  unfold Lagrange.len in *. split.
  - intros k Hk. eexists. split; [|split].
    + apply lagrange_delitem_at; try assumption. now apply norm_index_nat.
    + apply lagrange_delitem_at; try assumption. now apply norm_index_neg.
    + cbn [Lagrange.xs Lagrange.ys]. repeat split. now apply length_cut.
  - intros index H. apply norm_index_outside in H.
    destruct (LagrangeFacts.lagrange_delitem_cases s index Hr)
      as [[H' _]|[[_ [_ E]]|[_ [k [Hk _]]]]]; [lia|assumption|congruence].
Qed.

Lemma X7_witness :
  exists s',
    Lagrange.delitem 3 lagrange_demo = (Ok tt, s') /\
    Lagrange.delitem (-1) lagrange_demo = (Ok tt, s').
Proof.
  destruct (X7_delete_follows_list_indexing lagrange_demo) as [H _].
  - exact lagrange_demo_reachable.
  - vm_compute. lia.
  - destruct (H 3%nat) as [s' [H1 [H2 _]]].
    + vm_compute. lia.
    + exists s'. split; [exact H1|exact H2].
Defined.

Lemma cut_snoc {A} (l : list A) a : cut (length l) (l ++ [a]) = l.
Proof.
  unfold cut. rewrite firstn_middle, skipn_S_middle. apply app_nil_r.
Qed.

Lemma ins_cut {A} (l : list A) k a : nth_error l k = Some a -> ins k a (cut k l) = l.
Proof.
  intros H. destruct (nth_error_split _ _ H) as [l1 [l2 [-> <-]]].
  unfold ins, cut. rewrite firstn_middle, skipn_S_middle.
  rewrite firstn_app, Nat.sub_diag, firstn_all, firstn_O, app_nil_r.
  now rewrite skipn_app, Nat.sub_diag, skipn_all.
Qed.

(** X8.  On a Lagrange engine, deleting the sample that a successful
    [append] has just added (at the old length, or at index [-1]) gives back
    exactly the engine as it was, weights included.  (Exact arithmetic.) *)
Theorem X8_append_then_delete_restores (s s1 : Lagrange.state) (p : pyobj) :
  Lagrange.reachable s -> Lagrange.append p s = (Ok tt, s1) ->
  Lagrange.delitem (Z.of_nat (Lagrange.len s)) s1 = (Ok tt, s) /\
  Lagrange.delitem (-1) s1 = (Ok tt, s).
Proof.
  intros Hr H. pose proof (Lagrange.reach_step _ (Lagrange.Append p) _ Hr H) as Hr1.
  apply LagrangeReach.lagrange_reachable_wf in Hr, Hr1.
  destruct (LagrangeFacts.lagrange_append_cases s p Hr)
    as [[e [_ E]]|[x [y [-> [Hni E]]]]]; rewrite E in H; [discriminate|].
  injection H as <-. pose proof Hr as [Hly Hnd H2 Hws]. unfold Lagrange.len.
  assert (Hl1 : length (Lagrange.xs s ++ [x]) = S (length (Lagrange.xs s)))
    by (rewrite length_app; simpl; lia).
  split.
  - rewrite (lagrange_delitem_at _ _ (length (Lagrange.xs s)) Hr1);
      cbn [Lagrange.xs Lagrange.ys]; rewrite ?Hl1; try lia.
    + rewrite cut_snoc. rewrite <- Hly. rewrite cut_snoc.
      f_equal. now apply lagrange_state_eq.
    + apply norm_index_nat. lia.
  - rewrite (lagrange_delitem_at _ _ (length (Lagrange.xs s)) Hr1);
      cbn [Lagrange.xs Lagrange.ys]; rewrite ?Hl1; try lia.
    + rewrite cut_snoc. rewrite <- Hly. rewrite cut_snoc.
      f_equal. now apply lagrange_state_eq.
    + rewrite norm_index_last by lia. f_equal. lia.
Qed.

Lemma X8_witness :
  Lagrange.delitem (-1) (snd (Lagrange.append (point 9 9) lagrange_demo))
  = (Ok tt, lagrange_demo).
Proof.
  apply (X8_append_then_delete_restores lagrange_demo
           (snd (Lagrange.append (point 9 9) lagrange_demo)) (point 9 9)).
  - exact lagrange_demo_reachable.
  - vm_compute. reflexivity.
Defined.

(** X9.  On a Lagrange engine, putting a deleted sample back where it was
    gives back exactly the engine as it was: by [insert] at the same position
    when it was not the last sample, by [append] when it was.  (Exact
    arithmetic.) *)
Theorem X9_delete_then_reinsert_restores
        (s s1 : Lagrange.state) (k : nat) (x y : Qc) :
  Lagrange.reachable s ->
  nth_error (Lagrange.xs s) k = Some x -> nth_error (Lagrange.ys s) k = Some y ->
  Lagrange.delitem (Z.of_nat k) s = (Ok tt, s1) ->
  ((k < Lagrange.len s - 1)%nat ->
   Lagrange.insert (Z.of_nat k) (PyTuple [PyFloat x; PyFloat y]) s1 = (Ok tt, s)) /\
  (k = (Lagrange.len s - 1)%nat ->
   Lagrange.append (PyTuple [PyFloat x; PyFloat y]) s1 = (Ok tt, s)).
Proof.
  intros Hr Hx Hy H.
  pose proof (Lagrange.reach_step _ (Lagrange.Delete (Z.of_nat k)) _ Hr H) as Hr1.
  apply LagrangeReach.lagrange_reachable_wf in Hr, Hr1.
  assert (Hk : (k < length (Lagrange.xs s))%nat)
    by (apply nth_error_Some; congruence).
  destruct (LagrangeFacts.lagrange_delitem_cases s (Z.of_nat k) Hr)
    as [[_ E]|[[_ [_ E]]|[HN [k' [Hn E]]]]]; rewrite E in H; try discriminate.
  rewrite norm_index_nat in Hn by assumption. injection Hn as <-.
  injection H as <-. pose proof Hr as [Hly Hnd H2 Hws]. unfold Lagrange.len.
  assert (Hni : ~ In x (cut k (Lagrange.xs s))) by now apply not_in_cut_nodup.
  split.
  - intros Hlt.
    rewrite lagrange_insert_ok; cbn [Lagrange.xs Lagrange.ys]; try assumption.
    + rewrite (ins_cut _ _ _ Hx), (ins_cut _ _ _ Hy).
      f_equal. now apply lagrange_state_eq.
    + rewrite length_cut; lia.
  - intros Hlast.
    rewrite lagrange_append_ok; cbn [Lagrange.xs Lagrange.ys]; try assumption.
    assert (Ex : cut k (Lagrange.xs s) ++ [x] = Lagrange.xs s).
    { rewrite <- (ins_cut _ _ _ Hx) at 2. unfold ins.
      rewrite firstn_all2, skipn_all2 by (rewrite length_cut; lia).
      reflexivity. }
    assert (Ey : cut k (Lagrange.ys s) ++ [y] = Lagrange.ys s).
    { rewrite <- (ins_cut _ _ _ Hy) at 2. unfold ins.
      rewrite firstn_all2, skipn_all2 by (rewrite length_cut; lia).
      reflexivity. }
    rewrite Ex, Ey. f_equal. now apply lagrange_state_eq.
Qed.

Lemma X9_witness :
  Lagrange.insert 1 (PyTuple [PyFloat (qz 1); PyFloat (qz 3)])
                  (snd (Lagrange.delitem 1 lagrange_demo))
  = (Ok tt, lagrange_demo).
Proof.
  apply (X9_delete_then_reinsert_restores lagrange_demo
           (snd (Lagrange.delitem 1 lagrange_demo)) 1 (qz 1) (qz 3)).
  - exact lagrange_demo_reachable.
  - reflexivity.
  - reflexivity.
  - vm_compute. reflexivity.
  - vm_compute. lia.
Defined.

(** ** The order of the samples *)

Lemma sum_perm l l' : Permutation l l' -> sum l = sum l'.
Proof.
  induction 1 as [|a l l' _ IH|a b l|l l' l'' _ IH1 _ IH2].
  - reflexivity.
  - now rewrite !sum_cons, IH.
  - rewrite !sum_cons. ring.
  - congruence.
Qed.

Lemma prod_perm l l' : Permutation l l' -> prod l = prod l'.
Proof.
  induction 1 as [|a l l' _ IH|a b l|l l' l'' _ IH1 _ IH2].
  - reflexivity.
  - now rewrite !prod_cons, IH.
  - rewrite !prod_cons. ring.
  - congruence.
Qed.

Lemma others_perm x l l' :
  Permutation l l' -> Permutation (others x l) (others x l').
Proof.
  induction 1 as [|a l l' _ IH|a b l|l l' l'' _ IH1 _ IH2]; simpl.
  - constructor.
  - destruct (Qc_eq_dec a x); [assumption|now constructor].
  - destruct (Qc_eq_dec a x), (Qc_eq_dec b x);
      try reflexivity; apply perm_swap.
  - now transitivity (others x l').
Qed.

Lemma wden_perm x l l' : Permutation l l' -> wden x l = wden x l'.
Proof. intros H. unfold wden. apply prod_perm. now apply Permutation_map. Qed.

Lemma lagrange_form_perm pts pts' x :
  Permutation pts pts' -> lagrange_form pts x = lagrange_form pts' x.
Proof.
  intros H. unfold lagrange_form.
  assert (HX : Permutation (map fst pts) (map fst pts'))
    by now apply Permutation_map.
  rewrite (sum_map_ext_in _
             (fun p => snd p * bw (map fst pts') (fst p)
                       * wden x (others (fst p) (map fst pts')))).
  - apply sum_perm. now apply Permutation_map.
  - intros p _. unfold bw.
    rewrite (wden_perm (fst p) _ _ (others_perm (fst p) _ _ HX)).
    now rewrite (wden_perm x _ _ (others_perm (fst p) _ _ HX)).
Qed.

Lemma polynomial_evaluate e x :
  polynomial e -> valid e -> evaluate e x = Ok (lagrange_form (samples e) x).
Proof.
  destruct e as [s|s|s|s]; cbn [polynomial valid evaluate]; intros Hp Hv;
    try contradiction.
  - apply Lagrange_call_total. now apply LagrangeReach.lagrange_reachable_wf.
  - apply Newton_call_value. now apply NewtonFacts.newton_reachable_wf.
Qed.

(** X10.  Two polynomial engines (Lagrange or Newton, in any mix) that hold
    the same samples, in whatever order and however they were reached,
    return the same value at every query.  (Exact arithmetic.) *)
Theorem X10_evaluation_ignores_sample_order (e e' : engine) (x : Qc) :
  polynomial e -> polynomial e' -> valid e -> valid e' ->
  Permutation (samples e) (samples e') ->
  evaluate e x = evaluate e' x.
Proof.
  intros Hp Hp' Hv Hv' Hperm.
  rewrite (polynomial_evaluate e x Hp Hv), (polynomial_evaluate e' x Hp' Hv').
  f_equal. now apply lagrange_form_perm.
Qed.

Lemma X10_witness :
  evaluate (ELagrange lagrange_A) (Q2Qc (3 # 2))
  = evaluate (ENewton newton_rev_A) (Q2Qc (3 # 2)).
Proof.
  apply X10_evaluation_ignores_sample_order.
  - exact I.
  - exact I.
  - apply Lagrange.reach_init with scenario_A. vm_compute. reflexivity.
  - apply Newton.reach_init with (rev scenario_A). vm_compute. reflexivity.
  - change (Permutation scenario_A (rev scenario_A)). apply Permutation_rev.
Defined.

(** ** Newton coefficients *)

Lemma rq_all pts n : (length pts <= n)%nat -> rq n pts = rev pts.
Proof. intros H. unfold rq. now rewrite firstn_all2. Qed.

Lemma rq_firstn pts k : rq k pts = rev (firstn k pts).
Proof. reflexivity. Qed.

(** X11.  The coefficients of a Newton engine are the divided differences
    of the leading samples: coefficient [k] is
    [sum_{i <= k} y_i / prod_{j <= k, j <> i} (x_i - x_j)].  A successful
    [append] leaves every coefficient as it is and adds one, the divided
    difference of all samples, which is also the last entry of the new row,
    whose first entry is the new y.  (Exact arithmetic.) *)
Theorem X11_newton_coefficients (s : Newton.state) :
  Newton.reachable s ->
  (forall k c, nth_error (Newton.coef s) k = Some c ->
               c = ddf (firstn (S k) (samples (ENewton s)))) /\
  (forall p s', Newton.append p s = (Ok tt, s') ->
     Newton.coef s' = Newton.coef s ++ [ddf (samples (ENewton s'))] /\
     (exists x y, p = PyTuple [PyFloat x; PyFloat y] /\
                  nth_error (Newton.divided_diff s') 0 = Some y) /\
     nth_error (Newton.divided_diff s') (Newton.len s)
     = Some (ddf (samples (ENewton s'))) /\
     length (Newton.divided_diff s') = S (Newton.len s)).
Proof.
  intros Hr. apply NewtonFacts.newton_reachable_wf in Hr.
  pose proof Hr as [Hly Hnd H2 Hcoef Hrow].
  unfold samples, Newton.len. cbn [nodes values]. split.
  - intros k c Hk. rewrite Hcoef in Hk.
    assert (Hlt : (k < length (Newton.xs s))%nat).
    { rewrite <- (length_coef_spec (combine (Newton.xs s) (Newton.ys s))).
      apply nth_error_Some. congruence. }
    rewrite nth_error_coef_spec in Hk by assumption. injection Hk as <-.
    now rewrite rq_firstn, ddf_rev.
  - intros p s' H.
    destruct (NewtonFacts.newton_append_cases s p Hr)
      as [[e [_ E]]|[x [y [-> [Hni E]]]]]; rewrite E in H; [discriminate|].
    injection H as <-.
    cbn [Newton.xs Newton.ys Newton.coef Newton.divided_diff].
    set (pts' := combine (Newton.xs s ++ [x]) (Newton.ys s ++ [y])).
    assert (Hpts' : pts' = combine (Newton.xs s) (Newton.ys s) ++ [(x, y)])
      by (subst pts'; now apply combine_snoc).
    assert (Hlp : length pts' = S (length (Newton.xs s))).
    { rewrite Hpts', length_app, length_combine. simpl. lia. }
    assert (Hall : ddf (rq (S (length (Newton.xs s))) pts') = ddf pts')
      by (rewrite rq_all by lia; apply ddf_rev).
    repeat split.
    + rewrite coef_spec_S, Hall. f_equal.
      rewrite Hcoef, Hpts'. apply coef_spec_prefix.
      rewrite length_combine. lia.
    + exists x, y. split; [reflexivity|].
      unfold row_spec. cbn [seq map].
      rewrite (rq_S pts' (length (Newton.xs s)) (x, y)).
      * cbn [firstn nth_error]. now rewrite ddf_single.
      * rewrite Hpts'.
        replace (length (Newton.xs s))
          with (length (combine (Newton.xs s) (Newton.ys s)))
          by (rewrite length_combine; lia).
        apply nth_error_middle.
    + unfold row_spec.
      rewrite (map_nth_error _ _ (seq 0 (S (length (Newton.xs s))))
                 (d := length (Newton.xs s))).
      * f_equal. rewrite firstn_all2 by (rewrite length_rq; lia). exact Hall.
      * rewrite (nth_error_nth' _ O) by (rewrite length_seq; lia).
        now rewrite seq_nth by lia.
    + unfold row_spec. now rewrite length_map, length_seq.
Qed.

Lemma X11_witness :
  exists c, nth_error (Newton.coef newton_demo) 1 = Some c /\
            c = ddf (firstn 2 (samples (ENewton newton_demo))).
Proof.
  destruct (X11_newton_coefficients newton_demo newton_demo_reachable)
    as [H _].
  eexists. split.
  - vm_compute. reflexivity.
  - apply (H 1%nat). vm_compute. reflexivity.
Defined.

(** ** The constructors of the piecewise engines *)

Section SortedOrder.
Context {A : Type}.
Variable key : A -> Qc.

Lemma insert_stable_le a l :
  StronglySorted Qcle (map key l) ->
  StronglySorted Qcle (map key (insert_stable key a l)).
Proof.
  induction l as [|b l IH]; intros Hs; simpl.
  - repeat constructor.
  - inversion Hs as [|? ? Hs' Hf]; subst.
    destruct (Qclt_le_dec (key b) (key a)) as [Hlt|Hle]; simpl.
    + constructor; [now apply IH|].
      rewrite Forall_forall in *. intros c Hc.
      apply in_map_iff in Hc. destruct Hc as [d [<- Hd]].
      apply (Permutation_in _ (insert_stable_perm key a l)) in Hd.
      destruct Hd as [<-|Hd]; [now apply Qclt_le_weak|].
      apply Hf. now apply in_map.
    + constructor; [assumption|]. constructor; [assumption|].
      rewrite Forall_forall in *. intros c Hc.
      apply Qcle_trans with (key b); auto.
Qed.

Lemma sorted_le l : StronglySorted Qcle (map key (sorted key l)).
Proof.
  induction l as [|a l IH]; simpl; [constructor|].
  now apply insert_stable_le.
Qed.

Lemma SS_perm_unique l l' :
  StronglySorted Qclt (map key l) -> StronglySorted Qclt (map key l') ->
  Permutation l l' -> l = l'.
Proof.
  revert l'. induction l as [|a l IH]; intros l' Hs Hs' Hp.
  - apply Permutation_nil in Hp. now subst.
  - destruct l' as [|b l'].
    + apply Permutation_sym, Permutation_nil in Hp. discriminate.
    + simpl in Hs, Hs'.
      inversion Hs as [|? ? Hs1 Hf]; subst.
      inversion Hs' as [|? ? Hs1' Hf']; subst.
      rewrite Forall_forall in Hf, Hf'.
      assert (Hab : a = b).
      { assert (Ha : In a (b :: l'))
          by (apply (Permutation_in _ Hp); now left).
        assert (Hb : In b (a :: l))
          by (apply (Permutation_in _ (Permutation_sym Hp)); now left).
        destruct Ha as [Ha|Ha]; [now symmetry|].
        destruct Hb as [Hb|Hb]; [assumption|].
        exfalso. apply (Qcle_not_lt (key a) (key b)).
        - apply Qclt_le_weak, Hf. now apply in_map.
        - apply Hf'. now apply in_map. }
      subst b. f_equal. apply IH; try assumption.
      now apply Permutation_cons_inv with a.
Qed.

Lemma sorted_perm_eq l l' :
  NoDup (map key l) -> Permutation l l' -> sorted key l = sorted key l'.
Proof.
  intros Hnd Hp. apply SS_perm_unique.
  - now apply sorted_SS.
  - apply sorted_SS.
    apply (Permutation_NoDup (Permutation_map key Hp) Hnd).
  - rewrite (sorted_perm key l), (sorted_perm key l'). assumption.
Qed.

End SortedOrder.

Lemma sorted_nil_inv {A} (key : A -> Qc) l : sorted key l = [] -> l = [].
Proof.
  intros H. apply (f_equal (@length A)) in H. rewrite length_sorted in H.
  now destruct l.
Qed.

(** X12.  The constructor of the piecewise-linear engine raises (with
    [Exception]) exactly on an empty input.  On any other input it holds
    the samples given, each x with its y, rearranged so that the x values
    do not decrease; and when the x values are pairwise distinct the engine
    built does not depend on the order in which the samples were given. *)
Theorem X12_linear_constructor (points : list (Qc * Qc)) :
  match Linear.init points with
  | Raise e => e = Exception /\ points = []
  | Ok s =>
      points <> [] /\
      Permutation (MutableSet.iter s) points /\
      StronglySorted Qcle (MutableSet.xs s) /\
      (NoDup (map fst points) ->
       forall points', Permutation points points' -> Linear.init points' = Ok s)
  end.
Proof.
  unfold Linear.init, MutableSet.init.
  destruct (Nat.ltb_spec (length (map fst (sorted fst points))) 1) as [H|H];
    rewrite length_map, length_sorted in H.
  - split; [reflexivity|]. destruct points; [reflexivity|simpl in H; lia].
  - split; [intros ->; simpl in H; lia|].
    unfold MutableSet.iter. cbn [MutableSet.xs MutableSet.ys].
    rewrite combine_map_fst_snd. split; [apply sorted_perm|].
    split; [apply sorted_le|].
    intros Hnd points' Hp.
    rewrite <- (sorted_perm_eq fst points points' Hnd Hp).
    destruct (Nat.ltb_spec (length (map fst (sorted fst points))) 1) as [H'|H'];
      [rewrite length_map, length_sorted in H'; lia|reflexivity].
Qed.

Lemma X12_witness :
  Linear.init [(qz 0, qz 0); (qz 10, qz 10)] = Ok linear_D.
Proof.
  pose proof (X12_linear_constructor [(qz 10, qz 10); (qz 0, qz 0)]) as H.
  change (Linear.init [(qz 10, qz 10); (qz 0, qz 0)]) with (Ok linear_D) in H.
  destruct H as [_ [_ [_ H]]]. apply H.
  - apply len_set_NoDup. vm_compute. reflexivity.
  - apply perm_swap.
Defined.

Lemma zip3_maps (z : list (Qc * Qc * Qc)) :
  Hermite.zip3 (map (fun t => fst (fst t)) z) (map (fun t => snd (fst t)) z)
               (map snd z) = z.
Proof.
  unfold Hermite.zip3. induction z as [|[[a b] c] z IH]; simpl;
    [reflexivity|now rewrite IH].
Qed.

Lemma length_zip3 xs f fp :
  length (Hermite.zip3 xs f fp)
  = Nat.min (length xs) (Nat.min (length f) (length fp)).
Proof. unfold Hermite.zip3. rewrite !length_combine. lia. Qed.

(** X13.  The constructor of the Hermite engine zips its three lists, so it
    keeps as many samples as the shortest list has and silently drops the
    rest; it raises (with [Exception]) exactly when one of the lists is
    empty.  The triples kept are stored by non-decreasing x, each x with its
    own value and derivative. *)
Theorem X13_hermite_constructor (xs f fprime : list Qc) :
  match Hermite.init xs f fprime with
  | Raise e => e = Exception /\ (xs = [] \/ f = [] \/ fprime = [])
  | Ok s =>
      xs <> [] /\ f <> [] /\ fprime <> [] /\
      Permutation (Hermite.zip3 (Hermite.xs s) (Hermite.ys s) (Hermite.fprime s))
                  (Hermite.zip3 xs f fprime) /\
      StronglySorted Qcle (Hermite.xs s) /\
      length (Hermite.xs s)
      = Nat.min (length xs) (Nat.min (length f) (length fprime)) /\
      length (Hermite.ys s) = length (Hermite.xs s) /\
      length (Hermite.fprime s) = length (Hermite.xs s)
  end.
Proof.
  unfold Hermite.init.
  destruct (Nat.ltb_spec (length xs) 1) as [H|H].
  - split; [reflexivity|]. left. destruct xs; [reflexivity|simpl in H; lia].
  - unfold MutableSet.init.
    set (key := fun z : Qc * Qc * Qc => fst (fst z)).
    destruct (Nat.ltb_spec (length (map key (sorted key (Hermite.zip3 xs f fprime)))) 1)
      as [H'|H']; rewrite length_map, length_sorted, length_zip3 in H';
      cbn [rbind].
    + split; [reflexivity|]. right.
      destruct f; [now left|]. destruct fprime; [now right|].
      simpl in H'. lia.
    + unfold Hermite.xs, Hermite.ys.
      cbn [Hermite.base Hermite.fprime MutableSet.xs MutableSet.ys].
      split; [intros ->; simpl in H; lia|].
      split; [intros ->; simpl in H'; lia|].
      split; [intros ->; simpl in H'; lia|].
      split; [subst key; rewrite zip3_maps; apply sorted_perm|].
      split; [apply sorted_le|].
      rewrite !length_map, length_sorted, length_zip3. auto.
Qed.

(** ** Evaluation of the piecewise engines *)

Lemma nth_error_ex {A} (l : list A) i :
  (i < length l)%nat -> exists v, nth_error l i = Some v.
Proof.
  intros H. destruct (nth_error l i) eqn:E; [eauto|].
  apply nth_error_None in E. lia.
Qed.

Lemma bisect_left_bracket (a : list Qc) j xL xR x :
  StronglySorted Qclt a ->
  nth_error a j = Some xL -> nth_error a (S j) = Some xR ->
  xL < x -> x <= xR -> bisect_left a x = S j.
Proof.
  intros Hs HL HR Hlo Hhi.
  assert (Hj : (S j < length a)%nat) by (apply nth_error_Some; congruence).
  apply bisect_left_eq; [assumption|lia| |].
  - intros i Hi. apply Qcle_lt_trans with xL; [|assumption].
    rewrite <- (nth_error_nth _ _ 0 HL). apply SS_nth_le; try assumption; lia.
  - intros i Hi. apply Qcle_trans with xR; [assumption|].
    rewrite <- (nth_error_nth _ _ 0 HR). apply SS_nth_le; try assumption; lia.
Qed.

Lemma bracket_ne (xL xR x : Qc) : xL < x -> x <= xR -> xR - xL <> 0.
Proof.
  intros H1 H2. apply Qc_sub_ne. intros ->.
  apply (Qcle_not_lt _ _ H2 H1).
Qed.

(** X14.  Between two neighbouring nodes, [xL < x <= xR], the
    piecewise-linear engine returns the point of the chord through the two
    samples, [yL + (yR - yL) (x - xL) / (xR - xL)].  (Exact arithmetic.) *)
Theorem X14_linear_chord (s : Linear.state) (j : nat) (xL xR yL yR x : Qc) :
  ascending (ELinear s) ->
  nth_error (MutableSet.xs s) j = Some xL ->
  nth_error (MutableSet.xs s) (S j) = Some xR ->
  nth_error (MutableSet.ys s) j = Some yL ->
  nth_error (MutableSet.ys s) (S j) = Some yR ->
  xL < x -> x <= xR ->
  Linear.call s x = Ok (yL + (yR - yL) * (x - xL) / (xR - xL)).
Proof.
  intros Hwf HxL HxR HyL HyR Hlo Hhi. cbn [ascending] in Hwf.
  pose proof (bracket_ne _ _ _ Hlo Hhi) as Hne.
  rewrite (LinearCall.linear_call_segment s x j xL xR yL yR Hwf HxL HxR HyL HyR).
  - f_equal. field. split; [assumption|].
    apply Qc_sub_ne. intros ->. apply Hne. ring.
  - apply bisect_left_bracket with xL xR; try assumption. apply Hwf.
Qed.

Lemma X14_witness :
  Linear.call linear_demo (qz 5) = Ok (qz 5 + (qz 10 - qz 5) * (qz 5 - qz 3) / (qz 10 - qz 3)).
Proof.
  apply (X14_linear_chord linear_demo 1 (qz 3) (qz 10) (qz 5) (qz 10) (qz 5)).
  - cbn [ascending]. apply LinearFacts.linear_reachable_wf.
    eapply Linear.reach_step with (o := Linear.Add (point 3 5)).
    + apply Linear.reach_init with [(qz 10, qz 10); (qz 0, qz 0)].
      * apply len_set_NoDup. vm_compute. reflexivity.
      * vm_compute. reflexivity.
    + vm_compute. reflexivity.
  - vm_compute. reflexivity.
  - vm_compute. reflexivity.
  - vm_compute. reflexivity.
  - vm_compute. reflexivity.
  - vm_compute. reflexivity.
  - vm_compute. discriminate.
Defined.

Lemma hermite_segment_cubic xL xR fL fR fpL fpR x :
  xR - xL <> 0 ->
  hermite_segment xL xR fL fR fpL fpR x = cubic_hermite xL xR fL fR fpL fpR x.
Proof.
  intros H. unfold hermite_segment, cubic_hermite, six, three, two.
  cbn [Qcpower]. field. repeat split; try discriminate; assumption.
Qed.

(** X15.  Between two neighbouring nodes, [xL < x <= xR], the Hermite
    engine returns the value of the cubic Hermite interpolant of the two
    samples: the cubic that takes the stored values at [xL] and [xR] and
    has the stored derivatives as slopes there, written in the Hermite
    basis.  When both stored derivatives equal the slope of the chord, that
    is the point of the chord.  (Exact arithmetic.) *)
Theorem X15_hermite_cubic
  (s : Hermite.state) (j : nat) (xL xR fL fR fpL fpR x : Qc) :
  ascending (EHermite s) ->
  nth_error (Hermite.xs s) j = Some xL ->
  nth_error (Hermite.xs s) (S j) = Some xR ->
  nth_error (Hermite.ys s) j = Some fL ->
  nth_error (Hermite.ys s) (S j) = Some fR ->
  nth_error (Hermite.fprime s) j = Some fpL ->
  nth_error (Hermite.fprime s) (S j) = Some fpR ->
  xL < x -> x <= xR ->
  Hermite.call s x = Ok (cubic_hermite xL xR fL fR fpL fpR x) /\
  (fpL = (fR - fL) / (xR - xL) -> fpR = (fR - fL) / (xR - xL) ->
   Hermite.call s x = Ok (fL + (fR - fL) * (x - xL) / (xR - xL))).
Proof.
  intros Hwf HxL HxR HfL HfR HpL HpR Hlo Hhi. cbn [ascending] in Hwf.
  pose proof (bracket_ne _ _ _ Hlo Hhi) as Hne.
  assert (E : Hermite.call s x = Ok (cubic_hermite xL xR fL fR fpL fpR x)).
  { rewrite (HermiteCall.hermite_call_segment s x j xL xR fL fR fpL fpR
               Hwf HxL HxR HfL HfR HpL HpR).
    - f_equal. now apply hermite_segment_cubic.
    - apply bisect_left_bracket with xL xR; try assumption. apply Hwf. }
  split; [exact E|]. intros -> ->. rewrite E. f_equal.
  unfold cubic_hermite, three, two. cbn [Qcpower]. field. assumption.
Qed.

Lemma X15_witness :
  Hermite.call hermite_demo (qz 2)
  = Ok (cubic_hermite (qz 1) (qz 3) (qz 1) (qz 5) (qz 1) (qz 2) (qz 2)).
Proof.
  apply (X15_hermite_cubic hermite_demo 1 (qz 1) (qz 3) (qz 1) (qz 5) (qz 1) (qz 2) (qz 2)).
  - cbn [ascending]. apply HermiteFacts.hermite_reachable_wf.
    eapply Hermite.reach_step
      with (o := Hermite.Add (PyTuple [PyFloat (qz 3); PyFloat (qz 5); PyFloat (qz 2)])).
    + apply Hermite.reach_init with [qz 0; qz 1] [qz 0; qz 1] [qz 1; qz 1].
      * apply len_set_NoDup. vm_compute. reflexivity.
      * reflexivity.
      * reflexivity.
      * vm_compute. reflexivity.
    + vm_compute. reflexivity.
  - vm_compute. reflexivity.
  - vm_compute. reflexivity.
  - vm_compute. reflexivity.
  - vm_compute. reflexivity.
  - vm_compute. reflexivity.
  - vm_compute. reflexivity.
  - vm_compute. reflexivity.
  - vm_compute. discriminate.
Defined.

(** X16.  Under exact arithmetic, evaluation of a piecewise engine whose
    nodes ascend strictly returns a number at every argument: no index
    falls outside the lists and no division is by zero.  (On binary64 the
    powers [h**2] and [h**3] of the Hermite formula can overflow, or
    underflow to a zero divisor, and raise.) *)
Theorem X16_piecewise_evaluation_total (e : engine) (x : Qc) :
  ascending e -> exists v, evaluate e x = Ok v.
Proof.
  destruct e as [s|s|s|s]; cbn [ascending evaluate]; try contradiction;
    intros Hwf.
  - pose proof Hwf as [Hs Hl H1].
    destruct (bisect_left_spec (MutableSet.xs s) x Hs) as [Hb _].
    destruct (bisect_left (MutableSet.xs s) x) as [|j] eqn:Eb.
    + destruct (nth_error_ex (MutableSet.ys s) 0 ltac:(lia)) as [y0 Hy].
      exists y0. now apply LinearCall.linear_call_first.
    + destruct (Nat.eq_dec (S j) (length (MutableSet.xs s))) as [El|Hn].
      * destruct (nth_error_ex (MutableSet.ys s) (length (MutableSet.xs s) - 1)
                    ltac:(lia)) as [yl Hy].
        exists yl. apply LinearCall.linear_call_last; try assumption. congruence.
      * destruct (nth_error_ex (MutableSet.xs s) j ltac:(lia)) as [xL HxL].
        destruct (nth_error_ex (MutableSet.xs s) (S j) ltac:(lia)) as [xR HxR].
        destruct (nth_error_ex (MutableSet.ys s) j ltac:(lia)) as [yL HyL].
        destruct (nth_error_ex (MutableSet.ys s) (S j) ltac:(lia)) as [yR HyR].
        eexists.
        apply (LinearCall.linear_call_segment s x j xL xR yL yR); assumption.
  - pose proof Hwf as [Hs Hl Hp H1].
    destruct (bisect_left_spec (Hermite.xs s) x Hs) as [Hb _].
    destruct (bisect_left (Hermite.xs s) x) as [|j] eqn:Eb.
    + destruct (nth_error_ex (Hermite.ys s) 0 ltac:(lia)) as [y0 Hy].
      exists y0. now apply HermiteCall.hermite_call_first.
    + destruct (Nat.eq_dec (S j) (length (Hermite.xs s))) as [El|Hn].
      * destruct (nth_error_ex (Hermite.ys s) (length (Hermite.xs s) - 1)
                    ltac:(lia)) as [yl Hy].
        exists yl. apply HermiteCall.hermite_call_last; try assumption. congruence.
      * destruct (nth_error_ex (Hermite.xs s) j ltac:(lia)) as [xL HxL].
        destruct (nth_error_ex (Hermite.xs s) (S j) ltac:(lia)) as [xR HxR].
        destruct (nth_error_ex (Hermite.ys s) j ltac:(lia)) as [yL HyL].
        destruct (nth_error_ex (Hermite.ys s) (S j) ltac:(lia)) as [yR HyR].
        destruct (nth_error_ex (Hermite.fprime s) j ltac:(lia)) as [pL HpL].
        destruct (nth_error_ex (Hermite.fprime s) (S j) ltac:(lia)) as [pR HpR].
        eexists.
        apply (HermiteCall.hermite_call_segment s x j xL xR yL yR pL pR);
          assumption.
Qed.

Lemma X16_witness : exists v, evaluate (ELinear linear_D) (qz 4) = Ok v.
Proof.
  apply X16_piecewise_evaluation_total. cbn [ascending].
  apply LinearFacts.linear_init_wf with [(qz 10, qz 10); (qz 0, qz 0)].
  - apply len_set_NoDup. vm_compute. reflexivity.
  - vm_compute. reflexivity.
Defined.

(** ** [add] and [discard] on the piecewise engines *)

Lemma cut_ins {A} (l : list A) k a : (k <= length l)%nat -> cut k (ins k a l) = l.
Proof.
  intros H. unfold cut, ins.
  assert (Hk : length (firstn k l) = k) by (rewrite length_firstn; lia).
  rewrite firstn_app, Hk, Nat.sub_diag, firstn_O, app_nil_r.
  rewrite firstn_all2 by lia.
  rewrite skipn_app, Hk.
  replace (S k - k)%nat with 1%nat by lia.
  rewrite skipn_all2 by lia. cbn [skipn app]. apply firstn_skipn.
Qed.

Lemma nth_error_ins {A} (l : list A) k a :
  (k <= length l)%nat -> nth_error (ins k a l) k = Some a.
Proof.
  intros H. unfold ins.
  assert (Hk : length (firstn k l) = k) by (rewrite length_firstn; lia).
  rewrite <- Hk at 3. apply nth_error_middle.
Qed.

Lemma In_ins {A} (l : list A) k a : In a (ins k a l).
Proof. unfold ins. apply in_elt. Qed.

Lemma NoDup_index (l : list Qc) i j a :
  NoDup l -> nth_error l i = Some a -> nth_error l j = Some a -> i = j.
Proof.
  intros Hnd Hi Hj. rewrite NoDup_nth_error in Hnd. apply Hnd.
  - apply nth_error_Some. congruence.
  - congruence.
Qed.

(** X17.  On a piecewise engine, adding a sample at a new x and then
    discarding that x gives back the engine as it was.  In between the
    engine contains the x, holds one sample more, and, under exact
    arithmetic, returns the new value there (on binary64 the segment
    formula can be off by rounding at a node). *)
Theorem X17_add_then_discard_restores :
  (forall (s : Linear.state) (x y : Qc),
      ascending (ELinear s) -> ~ In x (MutableSet.xs s) ->
      exists s1,
        Linear.add (PyTuple [PyFloat x; PyFloat y]) s = (Ok tt, s1) /\
        MutableSet.contains s1 x = true /\
        MutableSet.len s1 = S (MutableSet.len s) /\
        Linear.call s1 x = Ok y /\
        Linear.discard x s1 = (Ok tt, s)) /\
  (forall (s : Hermite.state) (x y d : Qc),
      ascending (EHermite s) -> ~ In x (Hermite.xs s) ->
      exists s1,
        Hermite.add (PyTuple [PyFloat x; PyFloat y; PyFloat d]) s = (Ok tt, s1) /\
        MutableSet.contains (Hermite.base s1) x = true /\
        MutableSet.len (Hermite.base s1) = S (MutableSet.len (Hermite.base s)) /\
        Hermite.call s1 x = Ok y /\
        Hermite.discard x s1 = (Ok tt, s)).
Proof.
  split.
  - intros s x y Hwf Hni. cbn [ascending] in Hwf.
    pose proof (linear_add_ok s x y Hwf Hni) as Ha.
    pose proof Hwf as [Hs Hl H1].
    destruct (bisect_right_spec (MutableSet.xs s) x Hs) as [Hr _].
    set (r := bisect_right (MutableSet.xs s) x) in *.
    eexists. split; [exact Ha|].
    assert (Hwf1 : LinearInv.wf (MutableSet.mk (ins r x (MutableSet.xs s))
                                               (ins r y (MutableSet.ys s))))
      by (apply (LinearFacts.linear_run_wf s (Linear.Add _) _ Hwf Ha)).
    split; [apply list_contains_In, In_ins|].
    split; [apply length_ins|].
    split.
    { apply (LinearCall.linear_call_node _ r); [assumption| |];
        apply nth_error_ins; cbn [MutableSet.xs MutableSet.ys]; lia. }
    destruct (LinearFacts.linear_discard_cases _ x Hwf1)
      as [[Hn _]|[[_ [Hle _]]|[_ [k [Hk E]]]]].
    + exfalso. apply Hn, In_ins.
    + cbn [MutableSet.xs] in Hle. rewrite length_ins in Hle. lia.
    + cbn [MutableSet.xs MutableSet.ys] in Hk, E.
      assert (k = r).
      { apply (NoDup_index (ins r x (MutableSet.xs s)) k r x);
          [apply SS_NoDup, Hwf1|assumption|now apply nth_error_ins]. }
      subst k. rewrite E, !cut_ins by lia. now destruct s.
  - intros s x y d Hwf Hni. cbn [ascending] in Hwf.
    pose proof (hermite_add_ok s x y d Hwf Hni) as Ha.
    pose proof Hwf as [Hs Hl Hp H1].
    destruct (bisect_right_spec (Hermite.xs s) x Hs) as [Hr _].
    set (r := bisect_right (Hermite.xs s) x) in *.
    eexists. split; [exact Ha|].
    assert (Hwf1 : HermiteInv.wf
                     (Hermite.mk
                        (MutableSet.mk (ins r x (Hermite.xs s))
                                       (ins r y (Hermite.ys s)))
                        (ins r d (Hermite.fprime s))))
      by (apply (HermiteFacts.hermite_run_wf s (Hermite.Add _) _ Hwf Ha)).
    split; [apply list_contains_In, In_ins|].
    split; [apply length_ins|].
    split.
    { apply (HermiteCall.hermite_call_node _ r); [assumption| |];
        apply nth_error_ins; unfold Hermite.xs, Hermite.ys in *; lia. }
    destruct (HermiteFacts.hermite_discard_cases _ x Hwf1)
      as [[Hn _]|[[_ [Hle _]]|[_ [k [Hk E]]]]].
    + exfalso. apply Hn, In_ins.
    + unfold Hermite.xs in *. cbn [Hermite.base MutableSet.xs] in Hle.
      rewrite length_ins in Hle. lia.
    + unfold Hermite.xs, Hermite.ys in Hk, E.
      cbn [Hermite.base Hermite.fprime MutableSet.xs MutableSet.ys] in Hk, E.
      assert (k = r).
      { apply (NoDup_index (ins r x (Hermite.xs s)) k r x);
          [apply SS_NoDup, Hwf1|assumption|now apply nth_error_ins]. }
      subst k. unfold Hermite.xs, Hermite.ys in *. rewrite E.
      rewrite !cut_ins by lia.
      destruct s as [[? ?] ?]. reflexivity.
Qed.

Lemma X17_witness :
  Linear.discard (qz 3) linear_demo = (Ok tt, linear_D).
Proof.
  destruct X17_add_then_discard_restores as [H _].
  destruct (H linear_D (qz 3) (qz 5)) as [s1 [Ha [_ [_ [_ Hd]]]]].
  - cbn [ascending].
    apply LinearFacts.linear_init_wf with [(qz 10, qz 10); (qz 0, qz 0)].
    + apply len_set_NoDup. vm_compute. reflexivity.
    + vm_compute. reflexivity.
  - apply list_contains_false. vm_compute. reflexivity.
  - unfold linear_demo, point. rewrite Ha. exact Hd.
Defined.

Lemma In_cut_iff (l : list (Qc * Qc)) k x y p :
  NoDup (map fst l) -> nth_error l k = Some (x, y) ->
  In p (cut k l) <-> In p l /\ fst p <> x.
Proof.
  intros Hnd Hk. destruct (nth_error_split _ _ Hk) as [l1 [l2 [-> <-]]].
  unfold cut. rewrite firstn_middle, skipn_S_middle.
  rewrite map_app in Hnd. cbn [map fst] in Hnd.
  apply NoDup_remove in Hnd. destruct Hnd as [_ Hni].
  rewrite <- map_app in Hni. rewrite !in_app_iff. cbn [In]. split.
  - intros H. split; [tauto|]. intros <-. apply Hni.
    apply in_map, in_app_iff. assumption.
  - intros [[H|[<-|H]] Hne]; auto. now contradiction Hne.
Qed.

Lemma discard_outcomes (xs0 ys0 : list Qc) k x :
  StronglySorted Qclt xs0 -> length ys0 = length xs0 ->
  nth_error xs0 k = Some x ->
  ~ In x (cut k xs0) /\ S (length (cut k xs0)) = length xs0 /\
  length (cut k ys0) = length (cut k xs0) /\
  StronglySorted Qclt (cut k xs0) /\
  forall p, In p (combine (cut k xs0) (cut k ys0))
            <-> In p (combine xs0 ys0) /\ fst p <> x.
Proof.
  intros Hs Hl Hk.
  assert (Hlt : (k < length xs0)%nat) by (apply nth_error_Some; congruence).
  split; [apply not_in_cut_nodup; [now apply SS_NoDup|assumption]|].
  split; [rewrite length_cut; lia|].
  split; [rewrite !length_cut; lia|].
  split; [now apply SS_cut|].
  intros p. rewrite <- cut_combine.
  destruct (nth_error_ex ys0 k ltac:(lia)) as [y Hy].
  apply In_cut_iff with y.
  - rewrite map_fst_combine by lia. now apply SS_NoDup.
  - now apply nth_error_combine.
Qed.

(** X18.  [discard] on a piecewise engine whose nodes ascend strictly: an
    x that is not a node is ignored; the only node of a one-sample engine
    is refused with [Exception] and the engine is left as it was; any other
    node is removed together with its sample, and nothing else changes: the
    other samples stay, in ascending order. *)
Theorem X18_discard_outcomes (e e' : engine) (x : Qc) (r : result unit) :
  ascending e -> discards e x r e' ->
  (~ In x (nodes e) -> r = Ok tt /\ e' = e) /\
  (In x (nodes e) -> length (nodes e) = 1%nat ->
   r = Raise Exception /\ e' = e) /\
  (In x (nodes e) -> (1 < length (nodes e))%nat ->
   r = Ok tt /\ ~ In x (nodes e') /\
   S (length (nodes e')) = length (nodes e) /\ ascending e' /\
   forall p, In p (samples e') <-> In p (samples e) /\ fst p <> x).
Proof.
  intros Hwf Hd. destruct Hd as [s x r s' Hd|s x r s' Hd];
    cbn [ascending nodes] in *; unfold samples; cbn [nodes values].
  - pose proof Hwf as [Hs Hl H1].
    destruct (LinearFacts.linear_discard_cases s x Hwf)
      as [[Hn E]|[[Hi [Hle E]]|[Hlt [k [Hk E]]]]];
      rewrite E in Hd; injection Hd as <- <-.
    + repeat split; try contradiction; reflexivity.
    + repeat split; try contradiction; try reflexivity; intros; lia.
    + assert (Hi : In x (MutableSet.xs s)) by (eapply nth_error_In; eauto).
      split; [contradiction|]. split; [intros; lia|]. intros _ _.
      cbn [MutableSet.xs MutableSet.ys].
      destruct (discard_outcomes _ (MutableSet.ys s) k x Hs Hl Hk)
        as [D1 [D2 [D3 [D4 D5]]]].
      split; [reflexivity|]. split; [exact D1|]. split; [exact D2|].
      split; [|exact D5].
      constructor; cbn [MutableSet.xs MutableSet.ys]; try assumption; lia.
  - pose proof Hwf as [Hs Hl Hp H1].
    destruct (HermiteFacts.hermite_discard_cases s x Hwf)
      as [[Hn E]|[[Hi [Hle E]]|[Hlt [k [Hk E]]]]];
      rewrite E in Hd; injection Hd as <- <-.
    + repeat split; try contradiction; reflexivity.
    + repeat split; try contradiction; try reflexivity; intros; lia.
    + assert (Hi : In x (Hermite.xs s)) by (eapply nth_error_In; eauto).
      split; [contradiction|]. split; [intros; lia|]. intros _ _.
      unfold Hermite.xs, Hermite.ys in *.
      cbn [Hermite.base Hermite.fprime MutableSet.xs MutableSet.ys].
      destruct (discard_outcomes _ (MutableSet.ys (Hermite.base s)) k x Hs Hl Hk)
        as [D1 [D2 [D3 [D4 D5]]]].
      assert (Hk' : (k < length (MutableSet.xs (Hermite.base s)))%nat)
        by (apply nth_error_Some; congruence).
      split; [reflexivity|]. split; [exact D1|]. split; [exact D2|].
      split; [|exact D5].
      constructor; unfold Hermite.xs, Hermite.ys;
        cbn [Hermite.base Hermite.fprime MutableSet.xs MutableSet.ys];
        try assumption; rewrite ?length_cut by lia; lia.
Qed.

Lemma X18_witness :
  S (length (nodes (ELinear (snd (Linear.discard (qz 0) linear_demo)))))
  = length (nodes (ELinear linear_demo)).
Proof.
  assert (Hwf : ascending (ELinear linear_demo)).
  { cbn [ascending]. apply LinearFacts.linear_reachable_wf.
    eapply Linear.reach_step with (o := Linear.Add (point 3 5)).
    - apply Linear.reach_init with [(qz 10, qz 10); (qz 0, qz 0)].
      + apply len_set_NoDup. vm_compute. reflexivity.
      + vm_compute. reflexivity.
    - vm_compute. reflexivity. }
  assert (Hd : discards (ELinear linear_demo) (qz 0)
                 (fst (Linear.discard (qz 0) linear_demo))
                 (ELinear (snd (Linear.discard (qz 0) linear_demo))))
    by (constructor; apply surjective_pairing).
  destruct (X18_discard_outcomes _ _ _ _ Hwf Hd) as [_ [_ H]].
  destruct H as [_ [_ [H _]]].
  - apply list_contains_In. vm_compute. reflexivity.
  - vm_compute. lia.
  - exact H.
Defined.

(** ** [prod] *)

Lemma prod_zero_in l : prod l = 0 -> In 0 l.
Proof.
  induction l as [|a l IH]; intros H.
  - rewrite prod_nil in H. discriminate.
  - rewrite prod_cons in H.
    destruct (Qc_eq_dec a 0) as [->|Ha]; [now left|]. right. apply IH.
    destruct (Qc_eq_dec (prod l) 0) as [E|Hp]; [assumption|].
    exfalso. revert H. now apply Qc_mult_ne.
Qed.

(** X19.  [prod] multiplies the numbers of a list, starting from 1: the
    product of a concatenation is the product of the two products, the
    order of the numbers does not matter, and the product is zero exactly
    when one of the numbers is zero.  (Exact arithmetic.) *)
Theorem X19_prod_properties :
  prod [] = 1 /\
  (forall l1 l2, prod (l1 ++ l2) = prod l1 * prod l2) /\
  (forall l l', Permutation l l' -> prod l = prod l') /\
  (forall l, prod l = 0 <-> In 0 l).
Proof.
  split; [apply prod_nil|]. split; [apply prod_app|].
  split; [apply prod_perm|].
  intros l. split; [apply prod_zero_in|].
  intros H. destruct (in_split _ _ H) as [l1 [l2 ->]].
  rewrite prod_app, prod_cons. ring.
Qed.

Lemma X19_witness : prod [qz 2; qz 3] = prod [qz 3; qz 2].
Proof.
  destruct X19_prod_properties as [_ [_ [H _]]]. apply H. apply perm_swap.
Defined.

(** ** The arguments of [add] *)

Lemma float_triple_three a b c :
  Hermite.float_triple (PyTuple [a; b; c])
  = (let? x := py_float a in
     let? y := py_float b in
     let? d := py_float c in Ok (x, y, d)).
Proof.
  unfold Hermite.float_triple. cbn [mapM].
  destruct (py_float a), (py_float b), (py_float c); reflexivity.
Qed.

(** X20.  The outcome of [add] on a piecewise engine, in full.  A point
    that is not a tuple, or a tuple not of length two (three for the
    Hermite engine), raises [TypeError].  A tuple of that length with a
    component that [float()] refuses raises what [float()] raises on the
    first such component: [TypeError] for [None], [ValueError] for a string
    that is no number.  A tuple of numbers whose x is already a node raises
    [Exception].  In all these cases the engine is left as it was.  Any
    other tuple of numbers is put, in every list, at the position that
    separates the smaller nodes from the larger ones. *)
Theorem X20_add_outcomes :
  (forall s p,
      ascending (ELinear s) ->
      (not_tuple_of 2 p = true -> Linear.add p s = (Raise TypeError, s)) /\
      (forall a b, p = PyTuple [a; b] ->
         match py_float a, py_float b with
         | Ok x, Ok y =>
             (In x (MutableSet.xs s) ->
              Linear.add p s = (Raise Exception, s)) /\
             (~ In x (MutableSet.xs s) ->
              exists k,
                Linear.add p s
                = (Ok tt, MutableSet.mk (ins k x (MutableSet.xs s))
                                        (ins k y (MutableSet.ys s))) /\
                (k <= MutableSet.len s)%nat /\
                (forall i, (i < k)%nat -> nth i (MutableSet.xs s) 0 < x) /\
                (forall i, (k <= i < MutableSet.len s)%nat ->
                           x < nth i (MutableSet.xs s) 0))
         | Raise e, _ | Ok _, Raise e => Linear.add p s = (Raise e, s)
         end)) /\
  (forall s p,
      ascending (EHermite s) ->
      (not_tuple_of 3 p = true -> Hermite.add p s = (Raise TypeError, s)) /\
      (forall a b c, p = PyTuple [a; b; c] ->
         match py_float a, py_float b, py_float c with
         | Ok x, Ok y, Ok d =>
             (In x (Hermite.xs s) ->
              Hermite.add p s = (Raise Exception, s)) /\
             (~ In x (Hermite.xs s) ->
              exists k,
                Hermite.add p s
                = (Ok tt,
                   Hermite.mk (MutableSet.mk (ins k x (Hermite.xs s))
                                             (ins k y (Hermite.ys s)))
                              (ins k d (Hermite.fprime s))) /\
                (k <= length (Hermite.xs s))%nat /\
                (forall i, (i < k)%nat -> nth i (Hermite.xs s) 0 < x) /\
                (forall i, (k <= i < length (Hermite.xs s))%nat ->
                           x < nth i (Hermite.xs s) 0))
         | Raise e, _, _ | Ok _, Raise e, _ | Ok _, Ok _, Raise e =>
             Hermite.add p s = (Raise e, s)
         end)).
Proof.
  assert (Hpos : forall (a : list Qc) (x : Qc),
             StronglySorted Qclt a -> ~ In x a ->
             (bisect_right a x <= length a)%nat /\
             (forall i, (i < bisect_right a x)%nat -> nth i a 0 < x) /\
             (forall i, (bisect_right a x <= i < length a)%nat -> x < nth i a 0)).
  { intros a x Hs Hni.
    destruct (bisect_right_spec a x Hs) as [Hb [B1 B2]].
    split; [assumption|]. split; [|assumption].
    intros i Hi. destruct (Qcle_lt_or_eq _ _ (B1 i Hi)) as [H|H]; [assumption|].
    exfalso. apply Hni. rewrite <- H. apply nth_In. lia. }
  split; intros s p Hwf; cbn [ascending] in Hwf.
  - split.
    + intros Hp. unfold Linear.add. now rewrite Hp.
    + intros a b ->.
      destruct (py_float a) as [x|e] eqn:Ha;
        [destruct (py_float b) as [y|e] eqn:Hb|];
        try (unfold Linear.add; cbn [not_tuple_of length Nat.eqb negb];
             mstep; rewrite float_pair_two, Ha, ?Hb; reflexivity).
      apply py_float_ok in Ha, Hb. subst a b. split; intros Hx.
      * apply list_contains_In in Hx. unfold Linear.add.
        cbn [not_tuple_of length Nat.eqb negb]. mstep.
        rewrite float_pair_sample. mstep. now rewrite Hx.
      * exists (bisect_right (MutableSet.xs s) x).
        split; [now apply linear_add_ok|].
        apply Hpos; [apply Hwf|assumption].
  - split.
    + intros Hp. unfold Hermite.add. now rewrite Hp.
    + intros a b c ->.
      destruct (py_float a) as [x|e] eqn:Ha;
        [destruct (py_float b) as [y|e] eqn:Hb;
         [destruct (py_float c) as [d|e] eqn:Hc|]|];
        try (unfold Hermite.add; cbn [not_tuple_of length Nat.eqb negb];
             mstep; rewrite float_triple_three, Ha, ?Hb, ?Hc; reflexivity).
      apply py_float_ok in Ha, Hb, Hc. subst a b c. split; intros Hx.
      * apply list_contains_In in Hx. unfold Hermite.add.
        cbn [not_tuple_of length Nat.eqb negb]. mstep.
        cbn [Hermite.float_triple mapM py_float rbind]. mstep.
        now rewrite Hx.
      * exists (bisect_right (Hermite.xs s) x).
        split; [now apply hermite_add_ok|].
        apply Hpos; [apply Hwf|assumption].
Qed.

Lemma X20_witness :
  Linear.add (point 10 7) linear_demo = (Raise Exception, linear_demo).
Proof.
  destruct X20_add_outcomes as [H _].
  destruct (H linear_demo (point 10 7)) as [_ H2].
  - cbn [ascending]. apply LinearFacts.linear_reachable_wf.
    eapply Linear.reach_step with (o := Linear.Add (point 3 5)).
    + apply Linear.reach_init with [(qz 10, qz 10); (qz 0, qz 0)].
      * apply len_set_NoDup. vm_compute. reflexivity.
      * vm_compute. reflexivity.
    + vm_compute. reflexivity.
  - destruct (H2 (PyFloat (qz 10)) (PyFloat (qz 7)) eq_refl) as [H3 _].
    apply H3. apply list_contains_In. vm_compute. reflexivity.
Defined.

(** ** The container methods of the piecewise engines *)

(** X21.  On a piecewise engine with as many values as nodes, the container
    methods agree with each other: iteration yields [len] samples,
    [__getitem__] at position [k] returns the [k]-th sample iterated, and
    [__contains__] holds exactly for the x of an iterated sample. *)
Theorem X21_container_methods_agree (s : MutableSet.state) :
  length (MutableSet.ys s) = length (MutableSet.xs s) ->
  length (MutableSet.iter s) = MutableSet.len s /\
  (forall k p, MutableSet.getitem s (Z.of_nat k) = Ok p
               <-> nth_error (MutableSet.iter s) k = Some p) /\
  (forall x, MutableSet.contains s x = true
             <-> exists y, In (x, y) (MutableSet.iter s)).
Proof.
  intros Hl. unfold MutableSet.iter, MutableSet.len, MutableSet.contains.
  split; [rewrite length_combine; lia|]. split.
  - intros k p. unfold MutableSet.getitem.
    destruct (Z.ltb_spec (Z.of_nat k) 0) as [H0|_]; [lia|]. cbn [orb].
    destruct (Z.leb_spec (Z.of_nat (length (MutableSet.xs s))) (Z.of_nat k))
      as [Hge|Hlt].
    + split; [discriminate|]. intros H.
      assert (k < length (combine (MutableSet.xs s) (MutableSet.ys s)))%nat
        by (apply nth_error_Some; congruence).
      rewrite length_combine in *. lia.
    + destruct (nth_error_ex (MutableSet.xs s) k ltac:(lia)) as [x Hx].
      destruct (nth_error_ex (MutableSet.ys s) k ltac:(lia)) as [y Hy].
      rewrite (list_getitem_nat _ _ _ Hx), (list_getitem_nat _ _ _ Hy).
      cbn [rbind]. rewrite (nth_error_combine _ _ _ _ _ Hx Hy).
      split; congruence.
  - intros x. rewrite list_contains_In. split.
    + intros H. destruct (In_nth_error _ _ H) as [k Hk].
      assert (Hlt : (k < length (MutableSet.xs s))%nat)
        by (apply nth_error_Some; congruence).
      destruct (nth_error_ex (MutableSet.ys s) k ltac:(lia)) as [y Hy].
      exists y. apply nth_error_In with k. now apply nth_error_combine.
    + intros [y H]. now apply in_combine_l in H.
Qed.

Lemma X21_witness :
  length (MutableSet.iter linear_demo) = MutableSet.len linear_demo.
Proof.
  destruct (X21_container_methods_agree linear_demo) as [H _].
  - vm_compute. reflexivity.
  - exact H.
Defined.

(** ** Piecewise engines and their samples *)

Lemma zip3_keys xs f fp :
  length f = length xs -> length fp = length xs ->
  map (fun z : Qc * Qc * Qc => snd (fst z)) (Hermite.zip3 xs f fp) = f /\
  map snd (Hermite.zip3 xs f fp) = fp.
Proof.
  intros H1 H2. unfold Hermite.zip3. split.
  - rewrite <- (map_map fst snd), map_fst_combine
      by (rewrite length_combine; lia).
    now apply map_snd_combine.
  - apply map_snd_combine. rewrite length_combine. lia.
Qed.

(** X22.  A piecewise engine whose nodes ascend strictly is the engine its
    constructor builds from its samples, given in any order: the state
    after any sequence of [add] and [discard] calls is the one a fresh
    construction from the samples then held would have.  (For the Hermite
    engine a sample is the triple of x, value and derivative.) *)
Theorem X22_piecewise_matches_fresh_construction :
  (forall (s : Linear.state) (points : list (Qc * Qc)),
      ascending (ELinear s) ->
      Permutation points (MutableSet.iter s) ->
      Linear.init points = Ok s) /\
  (forall (s : Hermite.state) (xs f fprime : list Qc),
      ascending (EHermite s) ->
      length f = length xs -> length fprime = length xs ->
      Permutation (Hermite.zip3 xs f fprime)
                  (Hermite.zip3 (Hermite.xs s) (Hermite.ys s) (Hermite.fprime s)) ->
      Hermite.init xs f fprime = Ok s).
Proof.
  split.
  - intros s points Hwf Hp. cbn [ascending] in Hwf.
    pose proof Hwf as [Hs Hl H1]. unfold MutableSet.iter in Hp.
    assert (Hk : map fst (combine (MutableSet.xs s) (MutableSet.ys s))
                 = MutableSet.xs s) by now apply map_fst_combine.
    assert (E : sorted fst points = combine (MutableSet.xs s) (MutableSet.ys s)).
    { apply (SS_perm_unique fst).
      - apply sorted_SS.
        apply (Permutation_NoDup (Permutation_map fst (Permutation_sym Hp))).
        rewrite Hk. now apply SS_NoDup.
      - now rewrite Hk.
      - now rewrite (sorted_perm fst points). }
    unfold Linear.init, MutableSet.init. rewrite E, Hk.
    rewrite (map_snd_combine _ _ Hl).
    destruct (Nat.ltb_spec (length (MutableSet.xs s)) 1); [lia|].
    now destruct s.
  - intros s xs0 f fp Hwf Hf Hfp Hp. cbn [ascending] in Hwf.
    pose proof Hwf as [Hs Hl Hd H1].
    set (key := fun z : Qc * Qc * Qc => fst (fst z)).
    set (z := Hermite.zip3 (Hermite.xs s) (Hermite.ys s) (Hermite.fprime s))
      in *.
    assert (Hk : map key z = Hermite.xs s) by now apply map_key_zip3.
    destruct (zip3_keys (Hermite.xs s) (Hermite.ys s) (Hermite.fprime s) Hl Hd)
      as [Hy Hq]. fold z in Hy, Hq.
    assert (E : sorted key (Hermite.zip3 xs0 f fp) = z).
    { apply (SS_perm_unique key).
      - apply sorted_SS.
        apply (Permutation_NoDup (Permutation_map key (Permutation_sym Hp))).
        rewrite Hk. now apply SS_NoDup.
      - now rewrite Hk.
      - now rewrite (sorted_perm key _). }
    assert (Hn : length xs0 = length (Hermite.xs s)).
    { pose proof (Permutation_length Hp) as Hn. unfold z in Hn.
      rewrite !length_zip3 in Hn. lia. }
    unfold Hermite.init, MutableSet.init. fold key. rewrite E, Hk, Hy, Hq.
    destruct (Nat.ltb_spec (length xs0) 1); [lia|].
    destruct (Nat.ltb_spec (length (Hermite.xs s)) 1); [lia|].
    cbn [rbind]. destruct s as [[? ?] ?]. reflexivity.
Qed.

Lemma X22_witness :
  Linear.init [(qz 3, qz 5); (qz 10, qz 10); (qz 0, qz 0)] = Ok linear_demo.
Proof.
  destruct X22_piecewise_matches_fresh_construction as [H _]. apply H.
  - cbn [ascending]. apply LinearFacts.linear_reachable_wf.
    eapply Linear.reach_step with (o := Linear.Add (point 3 5)).
    + apply Linear.reach_init with [(qz 10, qz 10); (qz 0, qz 0)].
      * apply len_set_NoDup. vm_compute. reflexivity.
      * vm_compute. reflexivity.
    + vm_compute. reflexivity.
  - change (MutableSet.iter linear_demo)
      with [(qz 0, qz 0); (qz 3, qz 5); (qz 10, qz 10)].
    apply Permutation_sym.
    apply perm_trans with [(qz 3, qz 5); (qz 0, qz 0); (qz 10, qz 10)].
    + apply perm_swap.
    + apply perm_skip, perm_swap.
Defined.

(** ** Newton evaluation *)

Lemma newton_form_last (cs xs0 : list Qc) (x x' : Qc) :
  length cs = length xs0 -> xs0 <> [] ->
  newton_form cs (removelast xs0 ++ [x']) x = newton_form cs xs0 x.
Proof.
  revert cs. induction xs0 as [|a xs0 IH]; intros cs Hl Hne; [contradiction|].
  destruct cs as [|c cs]; [reflexivity|].
  destruct xs0 as [|b xs0].
  - destruct cs; [|simpl in Hl; lia].
    cbn [removelast app newton_form]. ring.
  - change (removelast (a :: b :: xs0)) with (a :: removelast (b :: xs0)).
    cbn [app newton_form]. f_equal. f_equal.
    apply IH; [|discriminate]. simpl in *. lia.
Qed.

Lemma length_removelast_snoc {A} (l : list A) a :
  l <> [] -> length (removelast l ++ [a]) = length l.
Proof.
  intros H. destruct (exists_last H) as [l' [b ->]].
  rewrite removelast_last, !length_app. reflexivity.
Qed.

(** X23.  Evaluation of a Newton engine is Horner's rule on the stored
    coefficients: it returns the nested form
    [c_0 + (x - x_0) (c_1 + (x - x_1) (c_2 + ...))] and never raises.  The
    last node is not read: with any other number in its place and the same
    coefficients the result is the same. *)
Theorem X23_newton_horner (s : Newton.state) (x : Qc) :
  Newton.reachable s ->
  Newton.call s x = Ok (newton_form (Newton.coef s) (Newton.xs s) x) /\
  (forall x' : Qc,
      Newton.call (Newton.mk (removelast (Newton.xs s) ++ [x']) (Newton.ys s)
                             (Newton.coef s) (Newton.divided_diff s)) x
      = Newton.call s x).
Proof.
  intros Hr. apply NewtonFacts.newton_reachable_wf in Hr.
  pose proof Hr as [Hly Hnd H2 Hcoef Hrow].
  assert (Hlc : length (Newton.coef s) = length (Newton.xs s))
    by (rewrite Hcoef; apply length_coef_spec).
  assert (Hxs : Newton.xs s <> []) by (intros E; rewrite E in H2; simpl in H2; lia).
  assert (Hcs : Newton.coef s <> [])
    by (intros E; rewrite E in Hlc; simpl in Hlc; lia).
  assert (E : Newton.call s x = Ok (newton_form (Newton.coef s) (Newton.xs s) x))
    by now apply Newton_call_ok.
  split; [exact E|]. intros x'. rewrite E.
  rewrite Newton_call_ok; cbn [Newton.xs Newton.coef].
  - f_equal. now apply newton_form_last.
  - now rewrite length_removelast_snoc.
  - assumption.
Qed.

Lemma X23_witness :
  Newton.call newton_demo (qz 2)
  = Ok (newton_form (Newton.coef newton_demo) (Newton.xs newton_demo) (qz 2)).
Proof.
  apply (X23_newton_horner newton_demo (qz 2) newton_demo_reachable).
Defined.

Lemma X3_witness : Lagrange.getitem lagrange_demo (-1) = Raise IndexError.
Proof.
  destruct X3_getitem_positions as [H _]. apply H. left. lia.
Defined.
